(** * The reftable stack manager ([stack.go]) in Rocq

    A shallow embedding of the stack manager of the reftable library:
    manifest I/O and reload, transactional [Add], range compaction and the
    size-tiered segment selection, together with the properties of the
    stack that its specification states. *)

From Stdlib Require Import ZArith Lia String Ascii List Bool.
From stdpp Require Import base gmap list strings.

Local Open Scope Z_scope.

#[local] Arguments String.append !_ _ : simpl nomatch.

(** ** Machine integers

    Go's [uint64] is a [Z] in [0, 2^64) with the wrap-around written out;
    Go's [int] (slice indices, segment bounds, logarithms) is a [Z]. *)

Definition two64 : Z := 2 ^ 64.

Definition wrap64 (z : Z) : Z := z mod two64.

Definition is_u64 (z : Z) : Prop := 0 <= z < two64.

(** ** Go results

    A Go function either returns or panics.  An [error] result is an
    [option error], [None] being [nil]. *)

Inductive outcome (A : Type) : Type :=
  | Returns (a : A)
  | Panics (msg : string).
Arguments Returns {A} a.
Arguments Panics {A} msg.

Inductive error : Type :=
  | ErrNotExist                 (* os.ErrNotExist: os.IsNotExist holds *)
  | ErrExist                    (* os.ErrExist: os.IsExist holds *)
  | ErrInvalid                  (* os.ErrInvalid *)
  | ErrIO                       (* any other failure of a system call *)
  | ErrLockFailure              (* reftable: lock failure *)
  | ErrWrapped (msg : string)   (* fmt.Errorf(...) *)
  | ErrUser (msg : string).     (* an error of a collaborator or callback *)

Definition os_IsNotExist (e : option error) : bool :=
  match e with Some ErrNotExist => true | _ => false end.

Definition os_IsExist (e : option error) : bool :=
  match e with Some ErrExist => true | _ => false end.

Definition is_ErrLockFailure (e : error) : bool :=
  match e with ErrLockFailure => true | _ => false end.

(** ** [formatName]

    [fmt.Sprintf("%012x-%012x", min, max)]: lower-case hexadecimal, padded
    with zeros to at least twelve digits. *)

Definition hex_digit (d : Z) : ascii :=
  match d with
  | 0 => "0" | 1 => "1" | 2 => "2" | 3 => "3" | 4 => "4" | 5 => "5"
  | 6 => "6" | 7 => "7" | 8 => "8" | 9 => "9" | 10 => "a" | 11 => "b"
  | 12 => "c" | 13 => "d" | 14 => "e" | _ => "f"
  end%char.

(** The [n] low hexadecimal digits of [z], most significant first. *)
Fixpoint hex_digits (n : nat) (z : Z) : string :=
  match n with
  | O => EmptyString
  | S n' => hex_digits n' (z / 16) +:+ String (hex_digit (z mod 16)) EmptyString
  end.

(** Number of hexadecimal digits of [z] (1 for 0). *)
Definition hex_width (z : Z) : nat :=
  if z =? 0 then 1%nat else Z.to_nat (Z.log2 z / 4 + 1).

(** The verb [%012x]. *)
Definition sprintf_012x (z : Z) : string :=
  hex_digits (Nat.max 12 (hex_width z)) z.

Definition formatName (min max : Z) : string :=
  sprintf_012x min +:+ "-" +:+ sprintf_012x max.

(** ** Size-tiered segment selection *)

Record segment : Type := mkSegment {
  seg_start : Z;
  seg_end : Z;      (* exclusive *)
  seg_log : Z;
  seg_bytes : Z     (* uint64 *)
}.

Definition segment_size (s : segment) : Z := seg_end s - seg_start s.

(** The loop [for sz > 0 { l++; sz /= base }].  A [uint64] is 0 after at
    most 64 halvings, which is the fuel [log2] gives it
    (see [log2_loop_fuel]). *)
Fixpoint log2_loop (fuel : nat) (sz l : Z) : Z :=
  match fuel with
  | O => l
  | S fuel' => if 0 <? sz then log2_loop fuel' (sz / 2) (l + 1) else l
  end.

Definition log2 (sz : Z) : outcome Z :=
  if sz =? 0 then Panics "log(0)"
  else Returns (log2_loop 64 sz 0 - 1).

(** The body of [for i, sz := range sizes] in [sizesToSegments]. *)
Fixpoint sizesToSegments_loop (sizes : list Z) (i : Z) (cur : segment)
    (res : list segment) : outcome (segment * list segment) :=
  match sizes with
  | [] => Returns (cur, res)
  | sz :: rest =>
      match log2 sz with
      | Panics m => Panics m
      | Returns l =>
          let '(cur, res) :=
            if negb (seg_log cur =? l) && (0 <? seg_bytes cur)
            then (mkSegment i 0 0 0, res ++ [cur])
            else (cur, res) in
          sizesToSegments_loop rest (i + 1)
            (mkSegment (seg_start cur) (i + 1) l (wrap64 (seg_bytes cur + sz)))
            res
      end
  end.

Definition sizesToSegments (sizes : list Z) : outcome (list segment) :=
  match sizesToSegments_loop sizes 0 (mkSegment 0 0 0 0) [] with
  | Panics m => Panics m
  | Returns (cur, res) => Returns (res ++ [cur])
  end.

(** The loop over [segs] that keeps the segment of least [log] among those
    of more than one table. *)
Fixpoint minSegment_loop (segs : list segment) (minSeg : segment) : segment :=
  match segs with
  | [] => minSeg
  | st :: rest =>
      if segment_size st =? 1 then minSegment_loop rest minSeg
      else if seg_log st <? seg_log minSeg then minSegment_loop rest st
      else minSegment_loop rest minSeg
  end.

(** The loop [for minSeg.start > 0]; [start] is [minSeg.start], so the
    recursion is on the loop variable itself. *)
Fixpoint extendLeft_loop (sizes : list Z) (start : nat) (minSeg : segment)
    : outcome segment :=
  match start with
  | O => Returns minSeg
  | S prev =>
      match log2 (seg_bytes minSeg) with
      | Panics m => Panics m
      | Returns lb =>
          match sizes !! prev with
          | None => Panics "index out of range"
          | Some sp =>
              match log2 sp with
              | Panics m => Panics m
              | Returns lp =>
                  if lb <? lp then Returns minSeg
                  else extendLeft_loop sizes prev
                         (mkSegment (Z.of_nat prev) (seg_end minSeg)
                            (seg_log minSeg) (wrap64 (seg_bytes minSeg + sp)))
              end
          end
      end
  end.

Definition suggestCompactionSegment (sizes : list Z) : outcome (option segment) :=
  match sizesToSegments sizes with
  | Panics m => Panics m
  | Returns segs =>
      let minSeg := minSegment_loop segs (mkSegment 0 0 64 0) in
      if segment_size minSeg =? 0 then Returns None
      else
        match extendLeft_loop sizes (Z.to_nat (seg_start minSeg)) minSeg with
        | Panics m => Panics m
        | Returns s => Returns (Some s)
        end
  end.

(** ** Path and manifest text helpers *)

(** [filepath.Join(dir, name)] for a clean [dir] and a plain file [name]. *)
Definition filepath_Join (dir name : string) : string :=
  if String.eqb dir EmptyString then name else dir +:+ "/" +:+ name.

Definition newline : ascii := Ascii.ascii_of_nat 10.

Definition nl : string := String newline EmptyString.

(** [bytes.Split(c, []byte("\n"))]: the pieces between newlines, empty
    pieces included; one empty piece for an empty [c]. *)
Fixpoint bytes_Split (c : string) : list string :=
  match c with
  | EmptyString => [EmptyString]
  | String a c' =>
      if Ascii.eqb a newline then EmptyString :: bytes_Split c'
      else match bytes_Split c' with
           | l :: ls => String a l :: ls
           | [] => [String a EmptyString]
           end
  end.

(** [strings.Join(names, "\n")]. *)
Definition strings_Join (names : list string) : string :=
  String.concat nl names.

Definition nonempty (l : string) : bool :=
  negb (String.eqb l EmptyString).

Definition names_of_manifest (c : string) : list string :=
  List.filter nonempty (bytes_Split c).

(** A legal table name is not empty and holds no newline. *)
Fixpoint no_newline (s : string) : bool :=
  match s with
  | EmptyString => true
  | String a s' => negb (Ascii.eqb a newline) && no_newline s'
  end.

Definition legal_name (n : string) : bool := nonempty n && no_newline n.

(** The bit length in the words of the specification: the number of times
    [s] can be integer-divided by 2 before reaching 0. *)
Fixpoint halvings (fuel : nat) (s : Z) : Z :=
  match fuel with
  | O => 0
  | S fuel' => if s =? 0 then 0 else 1 + halvings fuel' (s / 2)
  end.

Definition spec_bit_length (s : Z) : Z := halvings 64 s.

Fixpoint list_eqb (a b : list string) : bool :=
  match a, b with
  | [], [] => true
  | x :: a', y :: b' => String.eqb x y && list_eqb a' b'
  | _, _ => false
  end.

(** ** Records, tables, readers and writers

    The record codecs, the block-level [Reader] and [Writer] and the
    [Merged] view are collaborators of the stack manager; [stack.go] only
    calls them.  What they are is taken from their contracts in the
    specification (section 6); what the contracts leave open is a field of
    [Records] (the types) or of [Collaborators] (the operations). *)

(** Modelled from the spec: the record kinds, [RefRecord] with its
    [is_deletion] predicate and [LogRecord], and the writer configuration
    that is forwarded opaquely to the Writer. *)
Class Records : Type := {
  RefRecord : Type;
  LogRecord : Type;
  Config : Type;
  isDeletion : RefRecord -> bool
}.

(** Modelled from the spec: an iterator of a merged view, yielding
    (record, ok, err) triples until exhausted: the records it will yield,
    ended by exhaustion or by an error. *)
Inductive iter (A : Type) : Type :=
  | IterEnd
  | IterErr (e : error)
  | IterNext (a : A) (rest : iter A).
Arguments IterEnd {A}.
Arguments IterErr {A} e.
Arguments IterNext {A} a rest.

Fixpoint iter_records {A : Type} (it : iter A) : list A :=
  match it with
  | IterNext a rest => a :: iter_records rest
  | _ => []
  end.

Fixpoint iter_error {A : Type} (it : iter A) : option error :=
  match it with
  | IterEnd => None
  | IterErr e => Some e
  | IterNext a rest => iter_error rest
  end.

Section Data.
Context `{Records}.

(** Modelled from the spec: what a finished table file holds, a
    contiguous interval [min, max] of update indices, its records, and its
    size in bytes. *)
Record table : Type := mkTable {
  t_min : Z;
  t_max : Z;
  t_refs : list RefRecord;
  t_logs : list LogRecord;
  t_size : Z                      (* size of the file in bytes *)
}.

(** A file is the manifest or a lock (text), or a finished table; a
    table that is still being written is an empty text. *)
Inductive content : Type :=
  | Text (c : string)
  | TableData (t : table).

(** Modelled from the spec: the Reader contract, [name], [min_update_index],
    [max_update_index], [size] (byte size of the table file) and [close],
    which sets [r_closed]. *)
Record Reader : Type := mkReader {
  r_name : string;
  r_min : Z;
  r_max : Z;
  r_size : Z;
  r_refs : list RefRecord;
  r_logs : list LogRecord;
  r_closed : bool
}.

(** Modelled from the spec: the Writer contract, its limits
    ([wr.minUpdateIndex] is read by [add]) and what has been added to it.
    The file it writes to is fixed by [NewWriter] and kept by the caller. *)
Record Writer : Type := mkWriter {
  minUpdateIndex : Z;
  maxUpdateIndex : Z;
  w_refs : list RefRecord;
  w_logs : list LogRecord
}.

(** Modelled from the spec: the reader that [NewReader] opens on a
    table file. *)
Definition reader_of_table (name : string) (t : table) : Reader :=
  mkReader name (t_min t) (t_max t) (t_size t) (t_refs t) (t_logs t) false.

(** Modelled from the spec: [close] of a Reader. *)
Definition close_reader (r : Reader) : Reader :=
  mkReader (r_name r) (r_min r) (r_max r) (r_size r) (r_refs r) (r_logs r) true.

#[export] Instance Reader_inhabited : Inhabited Reader :=
  populate (mkReader EmptyString 0 0 0 [] [] true).
End Data.

(** Modelled from the spec: what the contracts of the Reader, the Writer
    and the Merged view leave open, the errors they may return, the size
    and the bytes of what the Writer wrote, and what a merged view
    yields. *)
Class Collaborators `{Records} : Type := {
  (* NewWriter(file, config) *)
  newWriterErr : Config -> option error;
  (* Writer.AddRef, Writer.AddLog: the writer's own checks *)
  addRefErr : Writer -> RefRecord -> option error;
  addLogErr : Writer -> LogRecord -> option error;
  (* Writer.Close: the writer's own checks, and the size of what it wrote *)
  writerCloseErr : Writer -> option error;
  encodedSize : Writer -> Z;
  (* the bytes of a table file, for whoever reads it as text *)
  rawBytes : table -> string;
  (* NewReader(blocksource, name) *)
  newReaderErr : table -> option error;
  (* NewMerged(tabs); Merged.SeekRef and Merged.SeekLog from the empty key *)
  newMergedErr : list Reader -> option error;
  seekRef : list Reader -> iter RefRecord + error;
  seekLog : list Reader -> iter LogRecord + error
}.

(** ** The state: file system, reader objects, the stack

    One process is modelled.  [files] is the file system; a file handle is
    the path it was opened at.  [heap] holds the [Reader] objects, and a
    [*Reader] is an index into it, so that a reader shared by two slices is
    one object.  [faults] decides, call by call, which of the system calls
    that could succeed fail instead; [rands] are the random strings of
    [ioutil.TempFile]; [retries] is the number of further iterations the
    deadline of [reload] leaves room for after the first. *)

Record CompactionStats : Type := mkStats {
  Bytes : Z;
  Attempts : Z;
  Failures : Z
}.

Section Model.
Context `{Collaborators}.

Record Stack : Type := mkStack {
  listFile : string;
  reftableDir : string;
  cfg : Config;
  stack : list nat;
  merged : option (list nat);
  Stats : CompactionStats
}.

Record State : Type := mkState {
  files : gmap string content;
  heap : list Reader;
  faults : list bool;
  rands : list string;
  retries : nat;
  st : Stack
}.

Definition set_files (f : gmap string content) (s : State) : State :=
  mkState f (heap s) (faults s) (rands s) (retries s) (st s).
Definition set_heap (h : list Reader) (s : State) : State :=
  mkState (files s) h (faults s) (rands s) (retries s) (st s).
Definition set_faults (b : list bool) (s : State) : State :=
  mkState (files s) (heap s) b (rands s) (retries s) (st s).
Definition set_rands (r : list string) (s : State) : State :=
  mkState (files s) (heap s) (faults s) r (retries s) (st s).
Definition set_st (t : Stack) (s : State) : State :=
  mkState (files s) (heap s) (faults s) (rands s) (retries s) t.

Definition set_stack (l : list nat) (t : Stack) : Stack :=
  mkStack (listFile t) (reftableDir t) (cfg t) l (merged t) (Stats t).
Definition set_merged (m : option (list nat)) (t : Stack) : Stack :=
  mkStack (listFile t) (reftableDir t) (cfg t) (stack t) m (Stats t).
Definition set_Stats (c : CompactionStats) (t : Stack) : Stack :=
  mkStack (listFile t) (reftableDir t) (cfg t) (stack t) (merged t) c.

(** *** The state monad *)

Definition M (A : Type) : Type := State -> A * State.

Definition ret {A : Type} (a : A) : M A := fun s => (a, s).

Definition bind {A B : Type} (m : M A) (k : A -> M B) : M B :=
  fun s => let '(a, s') := m s in k a s'.

Definition get : M State := fun s => (s, s).

Definition modify (f : State -> State) : M unit := fun s => (tt, f s).

Notation "'let*' p := m 'in' k" := (bind m (fun p => k))
  (at level 10, p pattern, m at level 100, k at level 200, only parsing).

(** *** System calls *)

Definition next_fault : M bool := fun s =>
  match faults s with
  | [] => (false, s)
  | b :: bs => (b, set_faults bs s)
  end.

(** [os.OpenFile(path, O_EXCL|O_CREATE|O_WRONLY, 0644)] *)
Definition os_OpenFile_excl (path : string) : M (option string * option error) :=
  fun s =>
    match files s !! path with
    | Some _ => ((None, Some ErrExist), s)
    | None =>
        let '(b, s) := next_fault s in
        if b then ((None, Some ErrIO), s)
        else ((Some path, None),
              set_files (<[path := Text EmptyString]> (files s)) s)
    end.

(** [File.Close]; a nil file gives [ErrInvalid]. *)
Definition file_Close (f : option string) : M (option error) :=
  match f with
  | None => ret (Some ErrInvalid)
  | Some _ => let* b := next_fault in ret (if b then Some ErrIO else None)
  end.

(** [File.Write]: appends to the file the handle was opened at;
    the bytes are lost when the file has been unlinked. *)
Definition file_Write (f : option string) (data : string) : M (option error) :=
  match f with
  | None => ret (Some ErrInvalid)
  | Some path =>
      let* b := next_fault in
      if b then ret (Some ErrIO)
      else fun s =>
        match files s !! path with
        | Some (Text c) =>
            (None, set_files (<[path := Text (c +:+ data)]> (files s)) s)
        | _ => (None, s)
        end
  end.

Definition file_Name (f : option string) : string :=
  match f with Some path => path | None => EmptyString end.

Definition os_Remove (path : string) : M (option error) := fun s =>
  match files s !! path with
  | None => (Some ErrNotExist, s)
  | Some _ =>
      let '(b, s) := next_fault s in
      if b then (Some ErrIO, s)
      else (None, set_files (delete path (files s)) s)
  end.

Definition os_Rename (oldpath newpath : string) : M (option error) := fun s =>
  match files s !! oldpath with
  | None => (Some ErrNotExist, s)
  | Some c =>
      let '(b, s) := next_fault s in
      if b then (Some ErrIO, s)
      else (None, set_files (<[newpath := c]> (delete oldpath (files s))) s)
  end.

Definition ioutil_ReadFile (path : string) : M (string + error) := fun s =>
  match files s !! path with
  | None => (inr ErrNotExist, s)
  | Some c =>
      let '(b, s) := next_fault s in
      if b then (inr ErrIO, s)
      else (inl (match c with Text c => c | TableData t => rawBytes t end), s)
  end.

(** The first of the candidate names that does not exist yet. *)
Fixpoint tempName (fs : gmap string content) (dir pre suf : string)
    (cands : list string) : option (string * list string) :=
  match cands with
  | [] => None
  | r :: rest =>
      let path := filepath_Join dir (pre +:+ r +:+ suf) in
      match fs !! path with
      | Some _ => tempName fs dir pre suf rest
      | None => Some (path, rest)
      end
  end.

(** [ioutil.TempFile(dir, pre + "*" + suf)] *)
Definition ioutil_TempFile (dir pre suf : string) : M (string + error) :=
  fun s =>
    match tempName (files s) dir pre suf (rands s) with
    | None => (inr ErrExist, set_rands [] s)
    | Some (path, rest) =>
        let '(b, s) := next_fault (set_rands rest s) in
        if b then (inr ErrIO, s)
        else (inl path, set_files (<[path := Text EmptyString]> (files s)) s)
    end.

(** *** Readers, writers and merged views *)

(** Modelled from the spec: [NewFileBlockSource(path)] opens the table
    file [path]. *)
Definition NewFileBlockSource (path : string) : M (content + error) := fun s =>
  match files s !! path with
  | None => (inr ErrNotExist, s)
  | Some c =>
      let '(b, s) := next_fault s in
      if b then (inr ErrIO, s) else (inl c, s)
  end.

(** Modelled from the spec: [NewReader(bs, name)], a new reader object
    over a table file; a text file is not a table. *)
Definition NewReader (bs : content) (name : string) : M (nat + error) :=
  match bs with
  | Text _ => ret (inr (ErrUser "not a reftable"))
  | TableData t =>
      match newReaderErr t with
      | Some e => ret (inr e)
      | None => fun s =>
          (inl (length (heap s)),
           set_heap (heap s ++ [reader_of_table name t]) s)
      end
  end.

Definition reader (s : State) (p : nat) : Reader := heap s !!! p.

(** Modelled from the spec: [Reader.Close]. *)
Definition Reader_Close (p : nat) : M unit :=
  modify (fun s => set_heap (alter close_reader p (heap s)) s).

Fixpoint closeAll (ps : list nat) : M unit :=
  match ps with
  | [] => ret tt
  | p :: ps' => let* _ := Reader_Close p in closeAll ps'
  end.

(** Modelled from the spec: [NewWriter(file, &st.cfg)]; the limits of a
    new writer are zero. *)
Definition NewWriter (f : string) (c : Config) : Writer + error :=
  match newWriterErr c with
  | Some e => inr e
  | None => inl (mkWriter 0 0 [] [])
  end.

(** Modelled from the spec: [Writer.SetLimits(min, max)]. *)
Definition Writer_SetLimits (wr : Writer) (min max : Z) : Writer :=
  mkWriter min max (w_refs wr) (w_logs wr).

(** Modelled from the spec: [Writer.AddRef] adds the record to the table
    unless the writer rejects it. *)
Definition Writer_AddRef (wr : Writer) (rec : RefRecord) : Writer * option error :=
  match addRefErr wr rec with
  | Some e => (wr, Some e)
  | None =>
      (mkWriter (minUpdateIndex wr) (maxUpdateIndex wr)
         (w_refs wr ++ [rec]) (w_logs wr), None)
  end.

(** Modelled from the spec: [Writer.AddLog], likewise. *)
Definition Writer_AddLog (wr : Writer) (rec : LogRecord) : Writer * option error :=
  match addLogErr wr rec with
  | Some e => (wr, Some e)
  | None =>
      (mkWriter (minUpdateIndex wr) (maxUpdateIndex wr)
         (w_refs wr) (w_logs wr ++ [rec]), None)
  end.

(** Modelled from the spec: the table that a writer finalises. *)
Definition table_of_writer (wr : Writer) : table :=
  mkTable (minUpdateIndex wr) (maxUpdateIndex wr) (w_refs wr) (w_logs wr)
    (encodedSize wr).

(** Modelled from the spec: [Writer.Close] of the writer over the file
    [f] finalises the file, which then holds the table. *)
Definition Writer_Close (f : string) (wr : Writer) : M (option error) :=
  match writerCloseErr wr with
  | Some e => ret (Some e)
  | None =>
      let* b := next_fault in
      if b then ret (Some ErrIO)
      else fun s =>
        match files s !! f with
        | Some _ =>
            (None, set_files (<[f := TableData (table_of_writer wr)]> (files s)) s)
        | None => (None, s)
        end
  end.

(** Modelled from the spec: [NewMerged(tabs)], a merged view over the
    readers [tabs]. *)
Definition NewMerged (tabs : list nat) : M (list nat + error) := fun s =>
  match newMergedErr (map (reader s) tabs) with
  | Some e => (inr e, s)
  | None => (inl tabs, s)
  end.

(** ** The stack manager *)

Definition readNames : M (list string + error) :=
  let* s := get in
  let* r := ioutil_ReadFile (listFile (st s)) in
  match r with
  | inr e =>
      if os_IsNotExist (Some e) then ret (inl [])
      else ret (inr e)
  | inl c => ret (inl (names_of_manifest c))
  end.

(** [Merged] returns the merged stack. *)
Definition Merged (s : State) : option (list nat) := merged (st s).

(** [Close] releases the readers of the stack. *)
Definition Close : M unit :=
  let* s := get in
  let* _ := closeAll (stack (st s)) in
  modify (fun s => set_st (set_stack [] (st s)) s).

(** The map [cur] of [reloadOnce]: reader name to reader. *)
Definition curReaders (s : State) : gmap string nat :=
  foldl (fun cur p => <[r_name (reader s p) := p]> cur) ∅ (stack (st s)).

(** The loop [for _, name := range names] of [reloadOnce]; it ends with
    the error it returns, if any. *)
Fixpoint reloadOnce_loop (names : list string) (cur : gmap string nat)
    (newTables : list nat) : M (gmap string nat * list nat * option error) :=
  match names with
  | [] => ret (cur, newTables, None)
  | name :: rest =>
      match cur !! name with
      | Some rd =>
          reloadOnce_loop rest (delete name cur) (newTables ++ [rd])
      | None =>
          let* s := get in
          let* bs := NewFileBlockSource (filepath_Join (reftableDir (st s)) name) in
          match bs with
          | inr e => ret (cur, newTables, Some e)
          | inl bs =>
              let* rd := NewReader bs name in
              match rd with
              | inr e => ret (cur, newTables, Some (ErrWrapped "NewReader"))
              | inl rd => reloadOnce_loop rest cur (newTables ++ [rd])
              end
          end
      end
  end.

Definition reloadOnce (names : list string) : M (option error) :=
  let* s := get in
  let* (cur, newTables, err) := reloadOnce_loop names (curReaders s) [] in
  match err with
  | Some e =>
      (* deferred: for _, t := range newTables { t.Close() } *)
      let* _ := closeAll newTables in
      ret (Some e)
  | None =>
      let* _ := modify (fun s => set_st (set_stack newTables (st s)) s) in
      let* _ := closeAll (map snd (map_to_list cur)) in
      ret None
  end.

(** The loop [for time.Now().Before(deadline)] of [reload], for [fuel]
    iterations within the deadline.  [Some e]: [reload] returns [e];
    [None]: the loop is left. *)
Fixpoint reload_loop (fuel : nat) : M (option error) :=
  match fuel with
  | O => ret None
  | S fuel' =>
      let* names := readNames in
      match names with
      | inr e => ret (Some e)
      | inl names =>
          let* err := reloadOnce names in
          match err with
          | None => ret None
          | Some e =>
              if negb (os_IsNotExist (Some e)) then ret (Some e)
              else
                let* after := readNames in
                match after with
                | inr e => ret (Some e)
                | inl after =>
                    if list_eqb after names then ret (Some ErrNotExist)
                    else reload_loop fuel'
                end
          end
      end
  end.

Definition reload : M (option error) :=
  let* s := get in
  let* err := reload_loop (S (retries s)) in
  match err with
  | Some e => ret (Some e)
  | None =>
      let* s := get in
      let* m := NewMerged (stack (st s)) in
      match m with
      | inr e => ret (Some e)
      | inl m =>
          let* _ := modify (fun s => set_st (set_merged (Some m) (st s)) s) in
          ret None
      end
  end.

(** [NewStack(dir, listFile, cfg)] in the world [w] (the [st] of [w] is
    not looked at). *)
Definition NewStack (dir lf : string) (c : Config) : M (option error) :=
  let* _ := modify (set_st (mkStack lf dir c [] None (mkStats 0 0 0))) in
  reload.

Definition stackNames (s : State) : list string :=
  map (fun p => r_name (reader s p)) (stack (st s)).

Definition UpToDate : M (bool * option error) :=
  let* names := readNames in
  match names with
  | inr e => ret (false, Some e)
  | inl names =>
      let* s := get in
      if negb (length names =? length (stack (st s)))%nat then ret (false, None)
      else ret (list_eqb (stackNames s) names, None)
  end.

Definition NextUpdateIndex (s : State) : Z :=
  match last (stack (st s)) with
  | Some p => wrap64 (r_max (reader s p) + 1)
  | None => 1
  end.

(** *** Transactional add *)

(** [add] from line 252 on: the temporary table [tab] exists.  The result
    comes with the final value of the variable [lockFile]. *)
Definition add_table (write : Writer -> Writer * option error)
    (f : option string) (tab : string) (names : list string) (next : Z)
    (fn : string) : M (option error * string) :=
  let* s := get in
  let lockFile := listFile (st s) +:+ ".lock" in
  match NewWriter tab (cfg (st s)) with
  | inr e => ret (Some e, lockFile)
  | inl wr =>
  let '(wr, err) := write wr in
  match err with Some e => ret (Some e, lockFile) | None =>
  let* err := Writer_Close tab wr in
  match err with Some e => ret (Some e, lockFile) | None =>
  let* err := file_Close (Some tab) in
  match err with Some e => ret (Some e, lockFile) | None =>
  if minUpdateIndex wr <? next then ret (Some ErrLockFailure, lockFile) else
  let dest := fn +:+ ".ref" in
  let names := names ++ [dest] in
  let dest := filepath_Join (reftableDir (st s)) dest in
  let* err := os_Rename tab dest in
  match err with Some e => ret (Some e, lockFile) | None =>
  let* err := file_Write f (strings_Join names) in
  match err with
  | Some e => let* _ := os_Remove dest in ret (Some e, lockFile)
  | None =>
  let* err := file_Close f in
  match err with
  | Some e => let* _ := os_Remove dest in ret (Some e, lockFile)
  | None =>
  let* err := os_Rename lockFile (listFile (st s)) in
  match err with
  | Some e => let* _ := os_Remove dest in ret (Some e, lockFile)
  | None =>
  let* err := reload in
  ret (err, EmptyString)
  end end end end end end end end.

(** [add] from line 233 on: the manifest lock [f] is held. *)
Definition add_locked (write : Writer -> Writer * option error)
    (f : option string) : M (option error * string) :=
  let* s := get in
  let lockFile := listFile (st s) +:+ ".lock" in
  let* (ok, err) := UpToDate in
  match err with Some e => ret (Some e, lockFile) | None =>
  if negb ok then ret (Some ErrLockFailure, lockFile) else
  let* s := get in
  let names := stackNames s in
  let next := NextUpdateIndex s in
  let fn := formatName next next in
  let* tab := ioutil_TempFile (reftableDir (st s)) fn ".ref" in
  match tab with
  | inr e => ret (Some e, lockFile)
  | inl tab =>
      (* defer os.Remove(f.Name()) *)
      let* r := add_table write f tab names next fn in
      let* _ := os_Remove (file_Name f) in
      ret r
  end end.

Definition add (write : Writer -> Writer * option error) : M (option error) :=
  let* s := get in
  let lockFile := listFile (st s) +:+ ".lock" in
  let* (f, err) := os_OpenFile_excl lockFile in
  if os_IsExist err then ret (Some ErrLockFailure) else
  match err with
  | Some e => ret (Some e)
  | None =>
      (* defer f.Close()
         defer func() { if lockFile is not empty { os.Remove(lockFile) } }() *)
      let* (res, lockFile) := add_locked write f in
      let* _ := (if String.eqb lockFile EmptyString then ret None else os_Remove lockFile) in
      let* _ := file_Close f in
      ret res
  end.

(** *** Compaction *)

(** [st.stack[i]] *)
Definition stackAt (s : State) (i : Z) : option Reader :=
  if i <? 0 then None else reader s <$> (stack (st s) !! Z.to_nat i).

Definition stackPtrAt (s : State) (i : Z) : option nat :=
  if i <? 0 then None else stack (st s) !! Z.to_nat i.

(** [for i := first; i <= last; i++ { subtabs = append(subtabs, st.stack[i]) }],
    with [n] iterations left. *)
Fixpoint subtabs_loop (s : State) (i : Z) (n : nat) (subtabs : list nat)
    : outcome (list nat) :=
  match n with
  | O => Returns subtabs
  | S n' =>
      match stackPtrAt s i with
      | None => Panics "index out of range"
      | Some p => subtabs_loop s (i + 1) n' (subtabs ++ [p])
      end
  end.

(** The first loop of [writeCompact], over the merged references. *)
Fixpoint writeRefs_loop (first : Z) (it : iter RefRecord) (wr : Writer)
    : Writer * option error :=
  match it with
  | IterErr e => (wr, Some e)
  | IterEnd => (wr, None)
  | IterNext rec rest =>
      if (first =? 0) && isDeletion rec then writeRefs_loop first rest wr
      else
        match Writer_AddRef wr rec with
        | (wr, Some e) => (wr, Some e)
        | (wr, None) => writeRefs_loop first rest wr
        end
  end.

(** The second loop of [writeCompact], over the merged log records. *)
Fixpoint writeLogs_loop (it : iter LogRecord) (wr : Writer)
    : Writer * option error :=
  match it with
  | IterErr e => (wr, Some e)
  | IterEnd => (wr, None)
  | IterNext rec rest =>
      match Writer_AddLog wr rec with
      | (wr, Some e) => (wr, Some e)
      | (wr, None) => writeLogs_loop rest wr
      end
  end.

(** [writeCompact] reads the stack and changes only the writer. *)
Definition writeCompact (s : State) (wr : Writer) (first last : Z)
    : outcome (Writer * option error) :=
  match stackAt s first with
  | None => Panics "index out of range"
  | Some rf =>
  match stackAt s last with
  | None => Panics "index out of range"
  | Some rl =>
  let wr := Writer_SetLimits wr (r_min rf) (r_max rl) in
  match subtabs_loop s first (Z.to_nat (last - first + 1)) [] with
  | Panics m => Panics m
  | Returns subtabs =>
  match newMergedErr (map (reader s) subtabs) with
  | Some e => Returns (wr, Some e)
  | None =>
  match seekRef (map (reader s) subtabs) with
  | inr e => Returns (wr, Some e)
  | inl it =>
  match writeRefs_loop first it wr with
  | (wr, Some e) => Returns (wr, Some e)
  | (wr, None) =>
  match seekLog (map (reader s) subtabs) with
  | inr e => Returns (wr, Some e)
  | inl it => Returns (writeLogs_loop it wr)
  end end end end end end end.

(** [compactLocked] from line 329 on: the temporary file exists.  The
    result comes with the final value of [rmName]. *)
Definition compactLocked_write (first last : Z) (tmpTable : string)
    : M (outcome (string + error) * string) :=
  let* s := get in
  match NewWriter tmpTable (cfg (st s)) with
  | inr e => ret (Returns (inr e), tmpTable)
  | inl wr =>
  match writeCompact s wr first last with
  | Panics m => ret (Panics m, tmpTable)
  | Returns (wr, Some e) => ret (Returns (inr e), tmpTable)
  | Returns (wr, None) =>
  let* err := Writer_Close tmpTable wr in
  match err with Some e => ret (Returns (inr e), tmpTable) | None =>
  let* err := file_Close (Some tmpTable) in
  match err with Some e => ret (Returns (inr e), tmpTable) | None =>
  ret (Returns (inl tmpTable), EmptyString)
  end end end end.

Definition compactLocked (first last : Z) : M (outcome (string + error)) :=
  let* s := get in
  match stackAt s first with
  | None => ret (Panics "index out of range")
  | Some rf =>
  match stackAt s last with
  | None => ret (Panics "index out of range")
  | Some rl =>
  let fn := formatName (r_min rf) (r_max rl) in
  let* tmpTable := ioutil_TempFile (reftableDir (st s)) (fn +:+ "_") ".ref" in
  match tmpTable with
  | inr e => ret (Returns (inr e))
  | inl tmpTable =>
      (* defer tmpTable.Close()
         rmName := tmpTable.Name()
         defer func() { if rmName is not empty { os.Remove(rmName) } }() *)
      let* (res, rmName) := compactLocked_write first last tmpTable in
      let* _ := (if String.eqb rmName EmptyString then ret None else os_Remove rmName) in
      let* _ := file_Close (Some tmpTable) in
      ret res
  end end end.

Fixpoint removeAll (paths : list string) : M unit :=
  match paths with
  | [] => ret tt
  | p :: ps => let* _ := os_Remove p in removeAll ps
  end.

(** The loop of [compactRange] that locks the tables [first..last], with
    [n] iterations left.  [Some r]: the function returns or panics with
    [r] from inside the loop. *)
Fixpoint subtableLocks_loop (i : Z) (n : nat)
    (subtableLocks deleteOnSuccess : list string)
    : M (option (outcome (bool * option error)) * list string * list string) :=
  match n with
  | O => ret (None, subtableLocks, deleteOnSuccess)
  | S n' =>
      let* s := get in
      match stackAt s i with
      | None =>
          ret (Some (Panics "index out of range"), subtableLocks, deleteOnSuccess)
      | Some r =>
          let subtab := filepath_Join (reftableDir (st s)) (r_name r) in
          let subtabLock := subtab +:+ ".lock" in
          let* (l, err) := os_OpenFile_excl subtabLock in
          if os_IsExist err
          then ret (Some (Returns (false, None)), subtableLocks, deleteOnSuccess)
          else
            match err with
            | Some e =>
                ret (Some (Returns (false, Some e)), subtableLocks, deleteOnSuccess)
            | None =>
                let* _ := file_Close l in
                subtableLocks_loop (i + 1) n' (subtableLocks ++ [subtabLock])
                  (deleteOnSuccess ++ [subtab])
            end
      end
  end.

(** [compactRange] from line 481 on: the compacted table is in
    [tmpTable] and the manifest lock [lockFile] is held again. *)
Definition compactRange_install (first last : Z) (tmpTable : string)
    (lockFile : option string) (deleteOnSuccess : list string)
    : M (outcome (bool * option error) * string) :=
  let* s := get in
  let lockFileName := listFile (st s) +:+ ".lock" in
  match stackAt s first with
  | None => ret (Panics "index out of range", lockFileName)
  | Some rf =>
  match stackAt s last with
  | None => ret (Panics "index out of range", lockFileName)
  | Some rl =>
  let fn := formatName (r_min rf) (r_max rl) +:+ ".ref" in
  let destTable := filepath_Join (reftableDir (st s)) fn in
  let* err := os_Rename tmpTable destTable in
  match err with Some e => ret (Returns (false, Some e), lockFileName) | None =>
  let names :=
    take (Z.to_nat first) (stackNames s) ++ [fn]
    ++ drop (Z.to_nat (last + 1)) (stackNames s) in
  let* err := file_Write lockFile (strings_Join names) in
  match err with
  | Some e =>
      let* _ := os_Remove destTable in ret (Returns (false, Some e), lockFileName)
  | None =>
  let* err := file_Close lockFile in
  let* _ := (match err with Some _ => os_Remove destTable | None => ret None end) in
  let* err := os_Rename lockFileName (listFile (st s)) in
  match err with
  | Some e =>
      let* _ := os_Remove destTable in ret (Returns (false, Some e), lockFileName)
  | None =>
  let* _ := removeAll deleteOnSuccess in
  let* err := reload in
  ret (Returns (true, err), EmptyString)
  end end end end end.

(** [compactRange] from line 440 on: the stack is up to date.  The
    result comes with the final values of [lockFileName] and
    [subtableLocks]. *)
Definition compactRange_tables (first last : Z)
    : M (outcome (bool * option error) * string * list string) :=
  let* s := get in
  let lockFileName := listFile (st s) +:+ ".lock" in
  let* (exit, subtableLocks, deleteOnSuccess) :=
    subtableLocks_loop first (Z.to_nat (last - first + 1)) [] [] in
  match exit with
  | Some r => ret (r, lockFileName, subtableLocks)
  | None =>
  let* err := os_Remove lockFileName in
  match err with
  | Some e => ret (Returns (false, Some e), lockFileName, subtableLocks)
  | None =>
  let* tmpTable := compactLocked first last in
  match tmpTable with
  | Panics m => ret (Panics m, EmptyString, subtableLocks)
  | Returns (inr e) => ret (Returns (false, Some e), EmptyString, subtableLocks)
  | Returns (inl tmpTable) =>
  let* (lockFile, err) := os_OpenFile_excl lockFileName in
  match err with
  | Some e => ret (Returns (false, Some e), lockFileName, subtableLocks)
  | None =>
      (* defer lockFile.Close() *)
      let* (res, lockFileName) :=
        compactRange_install first last tmpTable lockFile deleteOnSuccess in
      let* _ := file_Close lockFile in
      ret (res, lockFileName, subtableLocks)
  end end end end.

Definition compactRange (first last : Z) : M (outcome (bool * option error)) :=
  if first >=? last then ret (Returns (true, None)) else
  let* _ := modify (fun s =>
    set_st (set_Stats (mkStats (Bytes (Stats (st s))) (Attempts (Stats (st s)) + 1)
                         (Failures (Stats (st s)))) (st s)) s) in
  let* s := get in
  let lockFileName := listFile (st s) +:+ ".lock" in
  let* (lockFile, err) := os_OpenFile_excl lockFileName in
  if os_IsExist err then ret (Returns (false, None)) else
  let* _ := file_Close lockFile in
  (* defer func() { if lockFileName is not empty { os.Remove(lockFileName) } }() *)
  let* (ok, err) := UpToDate in
  let* (res, lockFileName) :=
    (if negb ok || bool_decide (is_Some err)
     then ret (Returns (false, err), lockFileName)
     else
       (* defer func() { for _, l := range subtableLocks { os.Remove(l) } }() *)
       let* (res, lockFileName, subtableLocks) := compactRange_tables first last in
       let* _ := removeAll subtableLocks in
       ret (res, lockFileName)) in
  let* _ := (if String.eqb lockFileName EmptyString then ret None else os_Remove lockFileName) in
  ret res.

Definition compactRangeStats (first last : Z) : M (outcome (bool * option error)) :=
  let* r := compactRange first last in
  match r with
  | Panics m => ret (Panics m)
  | Returns (ok, err) =>
      let* _ := (if ok then ret tt else modify (fun s =>
        set_st (set_Stats (mkStats (Bytes (Stats (st s))) (Attempts (Stats (st s)))
                             (Failures (Stats (st s)) + 1)) (st s)) s)) in
      ret (Returns (ok, err))
  end.

Definition tableSizesForCompaction (s : State) : list Z :=
  map (fun p => wrap64 (r_size (reader s p) - 91)) (stack (st s)).

Definition AutoCompact : M (outcome (option error)) :=
  let* s := get in
  match suggestCompactionSegment (tableSizesForCompaction s) with
  | Panics m => ret (Panics m)
  | Returns None => ret (Returns None)
  | Returns (Some seg) =>
      let* r := compactRangeStats (seg_start seg) (seg_end seg - 1) in
      match r with
      | Panics m => ret (Panics m)
      | Returns (_, err) => ret (Returns err)
      end
  end.

Definition CompactAll : M (outcome (option error)) :=
  let* s := get in
  let* r := compactRange 0 (Z.of_nat (length (stack (st s))) - 1) in
  match r with
  | Panics m => ret (Panics m)
  | Returns (_, err) => ret (Returns err)
  end.

Definition Add (write : Writer -> Writer * option error)
    : M (outcome (option error)) :=
  let* err := add write in
  match err with
  | Some e =>
      let* _ := (if is_ErrLockFailure e then reload else ret None) in
      ret (Returns (Some e))
  | None => AutoCompact
  end.
End Model.

Notation "'let*' p := m 'in' k" := (bind m (fun p => k))
  (at level 10, p pattern, m at level 100, k at level 200, only parsing).


(** ** A concrete set of collaborators

    Used to run the stack on concrete inputs.  A reference record is a
    name, an update index and a value, a deletion when it has no value.
    The writer rejects records outside its limits; the merged view yields
    one reference record per name, the one of the newest table, in name
    order, and the log records table by table. *)

Module Demo.
Record ref : Type := mkRef {
  RefName : string;
  UpdateIndex : Z;
  Value : option string
}.

Record log : Type := mkLog {
  LogName : string;
  LogIndex : Z;
  Message : string
}.

Definition records : Records := {|
  RefRecord := ref;
  LogRecord := log;
  Config := unit;
  isDeletion := fun r => match Value r with None => true | Some _ => false end
|}.
#[local] Existing Instance records.

Fixpoint insertRef (r : ref) (l : list ref) : list ref :=
  match l with
  | [] => [r]
  | x :: l' =>
      match String.compare (RefName r) (RefName x) with
      | Lt => r :: l
      | Eq => r :: l'
      | Gt => x :: insertRef r l'
      end
  end.

Definition mergeRefs (rs : list Reader) : list ref :=
  foldl (fun acc rd => foldl (fun acc r => insertRef r acc) acc (r_refs rd)) [] rs.

Fixpoint iter_of_list {A : Type} (l : list A) : iter A :=
  match l with
  | [] => IterEnd
  | a :: l' => IterNext a (iter_of_list l')
  end.

Definition outOfLimits (w : Writer) (i : Z) : bool :=
  (i <? minUpdateIndex w) || (maxUpdateIndex w <? i).

Definition collaborators : Collaborators := {|
  newWriterErr := fun _ => None;
  addRefErr := fun w r =>
    if outOfLimits w (UpdateIndex r) then Some (ErrUser "update index outside limits")
    else None;
  addLogErr := fun w r =>
    if outOfLimits w (LogIndex r) then Some (ErrUser "update index outside limits")
    else None;
  writerCloseErr := fun _ => None;
  encodedSize := fun w => 92 + 64 * Z.of_nat (length (w_refs w) + length (w_logs w));
  rawBytes := fun _ => "REFT"%string;
  newReaderErr := fun _ => None;
  newMergedErr := fun _ => None;
  seekRef := fun rs => inl (iter_of_list (mergeRefs rs));
  seekLog := fun rs => inl (iter_of_list (concat (map r_logs rs)))
|}.
#[local] Existing Instance collaborators.

Definition dir : string := "repo/reftable".
Definition manifest : string := "repo/reftable/tables.list".
Definition config : Config := tt.

(** An empty directory, no manifest, no injected failure. *)
Definition emptyWorld : State :=
  mkState ∅ [] [] ["371"; "372"; "373"; "374"; "375"; "376"]%string 0
    (mkStack EmptyString EmptyString tt [] None (mkStats 0 0 0)).

(** The state after [m]. *)
Definition after {A : Type} (m : M A) (s : State) : State := snd (m s).
Definition result {A : Type} (m : M A) (s : State) : A := fst (m s).

Definition newStack : State := after (NewStack dir manifest tt) emptyWorld.

(** A callback that covers [min, max] and writes the given references. *)
Fixpoint addRefs (wr : Writer) (rs : list ref) : Writer * option error :=
  match rs with
  | [] => (wr, None)
  | r :: rs' =>
      match Writer_AddRef wr r with
      | (wr, Some e) => (wr, Some e)
      | (wr, None) => addRefs wr rs'
      end
  end.

Definition writeRange (min max : Z) (rs : list ref) (wr : Writer)
    : Writer * option error :=
  addRefs (Writer_SetLimits wr min max) rs.

(** A callback that gives up. *)
Definition writeFails (wr : Writer) : Writer * option error :=
  (wr, Some (ErrUser "callback failed")).

(** What a state shows: the files with their kind, and the readers of
    the stack as (name, min, max, closed). *)
Definition fileList (s : State) : list (string * option (Z * Z)) :=
  map (fun '(p, c) =>
         (p, match c with
             | Text _ => None
             | TableData t => Some (t_min t, t_max t)
             end))
      (map_to_list (files s)).

Definition fileNames (s : State) : list string :=
  map fst (map_to_list (files s)).

Definition manifestText (s : State) : option string :=
  match files s !! listFile (st s) with
  | Some (Text c) => Some c
  | _ => None
  end.

Definition readers (s : State) : list (string * Z * Z * bool) :=
  map (fun p => let r := reader s p in (r_name r, r_min r, r_max r, r_closed r))
      (stack (st s)).
(** Sample inputs. *)
Definition main_v1 : ref := mkRef "refs/heads/main" 1 (Some "v1").
Definition topic_v2 : ref := mkRef "refs/heads/topic" 1 (Some "v2").
Definition dev_v3 : ref := mkRef "refs/heads/dev" 1 (Some "v3").
Definition main_deleted : ref := mkRef "refs/heads/main" 2 None.

(** A stack of one table: [Add] of a table covering [1, 1]. *)
Definition oneTable : State :=
  after (Add (writeRange 1 1 [main_v1; topic_v2; dev_v3])) newStack.

(** A stack of two tables, the second one deleting [refs/heads/main]. *)
Definition twoTables : State :=
  after (Add (writeRange 2 2 [main_deleted])) oneTable.

(** A stack of one table that covers [1, 2^64 - 1], and that stack after
    a second [Add], at the next update index, which is 0. *)
Definition main_v0 : ref := mkRef "refs/heads/main" 0 (Some "v0").

Definition fullRange : State :=
  after (Add (writeRange 1 (2 ^ 64 - 1) [main_v1; topic_v2; dev_v3])) newStack.

Definition wrappedStack : State :=
  after (Add (writeRange 0 0 [main_v0])) fullRange.

(** The new stack with the manifest lock held by someone else. *)
Definition lockedStack : State :=
  set_files (<[manifest +:+ ".lock" := Text EmptyString]> (files newStack)) newStack.

(** Three tables, added without compaction: [main -> v1], [main] deleted,
    [topic -> v2]. *)
Definition topic_v2_at_3 : ref := mkRef "refs/heads/topic" 3 (Some "v2").

Definition threeAdds : State :=
  after (add (writeRange 3 3 [topic_v2_at_3]))
    (after (add (writeRange 2 2 [main_deleted]))
       (after (add (writeRange 1 1 [main_v1])) newStack)).

(** A stack whose only table is a file of [size] bytes. *)
Definition tableOfSize (size : Z) : State :=
  mkState ∅ [mkReader "000000000001-000000000001.ref" 1 1 size [] [] false]
    [] [] 0
    (mkStack manifest dir tt [0%nat] None (mkStats 0 0 0)).

(** Fifteen system calls succeed and the sixteenth fails: in [CompactAll]
    on two tables that is the [Close] of the lock file that holds the new
    manifest. *)
Definition closeOfManifestFails : list bool := replicate 15 false ++ [true].
End Demo.

(** ** Vocabulary of the properties *)

(** The value of the hexadecimal digits that [s] starts with. *)
Definition digit_of (c : ascii) : option Z :=
  (if Ascii.eqb c "0" then Some 0 else if Ascii.eqb c "1" then Some 1
   else if Ascii.eqb c "2" then Some 2 else if Ascii.eqb c "3" then Some 3
   else if Ascii.eqb c "4" then Some 4 else if Ascii.eqb c "5" then Some 5
   else if Ascii.eqb c "6" then Some 6 else if Ascii.eqb c "7" then Some 7
   else if Ascii.eqb c "8" then Some 8 else if Ascii.eqb c "9" then Some 9
   else if Ascii.eqb c "a" then Some 10 else if Ascii.eqb c "b" then Some 11
   else if Ascii.eqb c "c" then Some 12 else if Ascii.eqb c "d" then Some 13
   else if Ascii.eqb c "e" then Some 14 else if Ascii.eqb c "f" then Some 15
   else None)%char.

Fixpoint hex_value (acc : Z) (s : string) : Z :=
  match s with
  | EmptyString => acc
  | String c s' =>
      match digit_of c with
      | Some d => hex_value (16 * acc + d) s'
      | None => acc
      end
  end.

(** [s] ends with [suf]. *)
Fixpoint has_suffix (suf s : string) : bool :=
  if String.eqb s suf then true
  else match s with
       | EmptyString => false
       | String _ s' => has_suffix suf s'
       end.

(** After the first index of a table name: what follows the dash. *)
Fixpoint after_dash (s : string) : string :=
  match s with
  | EmptyString => EmptyString
  | String c s' => if Ascii.eqb c "-" then s' else after_dash s'
  end.

(** *** Sizes and segments *)

(** The sum of a list of sizes. *)
Definition sum_sizes (l : list Z) : Z := foldr Z.add 0 l.

(** The sizes of the tables [lo, hi), added up. *)
Definition sizes_between (sizes : list Z) (lo hi : Z) : Z :=
  sum_sizes (take (Z.to_nat (hi - lo)) (drop (Z.to_nat lo) sizes)).

(** The segments [segs] cover [lo, hi) without gap or overlap, each one
    holding at least one table. *)
Fixpoint tiles (lo : Z) (segs : list segment) (hi : Z) : Prop :=
  match segs with
  | [] => lo = hi
  | sg :: rest => seg_start sg = lo /\ lo < seg_end sg /\ tiles (seg_end sg) rest hi
  end.

(** What [sizesToSegments] has built after the tables before [i]. *)
Definition segments_upto (sizes : list Z) (i : Z) (cur : segment)
    (res : list segment) : Prop :=
  tiles 0 res (seg_start cur) /\ seg_end cur = i
  /\ (seg_start cur < i \/ (i = 0 /\ cur = mkSegment 0 0 0 0 /\ res = []))
  /\ Forall (fun sg => seg_bytes sg
                       = wrap64 (sizes_between sizes (seg_start sg) (seg_end sg)))
       (res ++ [cur]).

(** Adjacent segments differ in [log]. *)
Fixpoint logs_alternate (segs : list segment) : Prop :=
  match segs with
  | a :: (b :: _) as rest => seg_log a <> seg_log b /\ logs_alternate rest
  | _ => True
  end.

(** The segments that [sizesToSegments] has built are runs of tables of
    one [log2], adjacent runs differing in it. *)
Definition runs_upto (sizes : list Z) (cur : segment) (res : list segment) : Prop :=
  Forall (fun sg => forall k sz, seg_start sg <= Z.of_nat k < seg_end sg ->
                      sizes !! k = Some sz -> Z.log2 sz = seg_log sg) (res ++ [cur])
  /\ logs_alternate (res ++ [cur]).

Section Vocabulary.
Context `{Collaborators}.

(** The reference records that a compaction with lower edge [first]
    keeps. *)
Definition kept (first : Z) (rec : RefRecord) : bool :=
  negb ((first =? 0) && isDeletion rec).


(** [s'] differs from [s] in the file system and the oracles at most. *)
Definition same_memory (s s' : State) : Prop :=
  heap s' = heap s /\ st s' = st s.

(** What a file reads as. *)
Definition text_of (c : content) : string :=
  match c with Text c => c | TableData t => rawBytes t end.

(** The names that [readNames] finds in the file system [fs]. *)
Definition manifest_names (fs : gmap string content) (lf : string) : list string :=
  match fs !! lf with
  | None => []
  | Some c => names_of_manifest (text_of c)
  end.

(** The maximum of the last reader, [lo] when there is none. *)
Definition top (lo : Z) (rs : list Reader) : Z :=
  match last rs with
  | Some r => r_max r
  | None => lo
  end.

(** The two indices in the name of a reader. *)
Definition first_index (r : Reader) : Z := hex_value 0 (r_name r).

Definition second_index (r : Reader) : Z := hex_value 0 (after_dash (r_name r)).

(** [s'] has the readers and the stack of [s]. *)
Definition same_stack (s s' : State) : Prop :=
  heap s' = heap s /\ stack (st s') = stack (st s)
  /\ listFile (st s') = listFile (st s)
  /\ reftableDir (st s') = reftableDir (st s)
  /\ cfg (st s') = cfg (st s).

(** The tables a compaction deletes are tables of the stack. *)
Definition stack_paths (s : State) (paths : list string) : Prop :=
  Forall (fun path => exists n, n ∈ stackNames s
                                /\ path = filepath_Join (reftableDir (st s)) n) paths.

(** The readers of the stack, bottom first. *)
Definition stackReaders (s : State) : list Reader :=
  map (reader s) (stack (st s)).

(** Two heaps hold the same readers, up to which of them are closed. *)
Definition readers_eq (h h' : list Reader) : Prop :=
  map close_reader h = map close_reader h'.

(** The reader [r] covers a well-formed interval that ends below
    [2^64 - 1]; its name is [formatName a b + ".ref"] for an [a] above
    [lo] and not above its interval, and a [b] not above its maximum. *)
Definition named (lo : Z) (r : Reader) : Prop :=
  exists a b,
    r_name r = formatName a b +:+ ".ref"
    /\ lo < a /\ a <= r_min r /\ 0 <= b <= r_max r
    /\ r_min r <= r_max r /\ r_max r < two64 - 1.

(** Each reader is [named] above the maximum of the one before. *)
Fixpoint chain (lo : Z) (rs : list Reader) : Prop :=
  match rs with
  | [] => True
  | r :: rs' => named lo r /\ chain (r_max r) rs'
  end.

(** The invariant of the stack over the directory [dir] with the
    manifest [lf]. *)
Definition stack_inv (dir lf : string) (s : State) : Prop :=
  listFile (st s) = lf /\ reftableDir (st s) = dir
  /\ has_suffix ".ref" lf = false
  /\ Forall (fun p => (p < length (heap s))%nat) (stack (st s))
  /\ chain 0 (stackReaders s).

(** The callback leaves the writer with a well-formed range
    [min <= max < 2^64 - 1] whenever it succeeds. *)
Definition covers_well (write : Writer -> Writer * option error) : Prop :=
  forall wr wr', write wr = (wr', None) ->
    minUpdateIndex wr' <= maxUpdateIndex wr' < two64 - 1.




(** [s'] has the configuration and the statistics of [s]. *)
Definition same_config (s s' : State) : Prop :=
  listFile (st s') = listFile (st s)
  /\ reftableDir (st s') = reftableDir (st s)
  /\ cfg (st s') = cfg (st s)
  /\ Stats (st s') = Stats (st s).

(** From [s] to [s'] only files whose path satisfies [P] have been
    created, changed or removed. *)
Definition touches (P : string -> Prop) (s s' : State) : Prop :=
  forall q, ~ P q -> files s' !! q = files s !! q.

(** The paths that [add] works on: the manifest lock, the manifest, and
    the files of the table directory named after the next update index. *)
Definition add_paths (s : State) (q : string) : Prop :=
  q = listFile (st s) +:+ ".lock" \/ q = listFile (st s)
  \/ exists x, q = filepath_Join (reftableDir (st s))
                     (formatName (NextUpdateIndex s) (NextUpdateIndex s) +:+ x +:+ ".ref").

(** The paths that [compactRange first last] works on: the manifest lock,
    the manifest, the tables [first..last] of the stack and their locks,
    and the files of the table directory named after the range. *)
Definition compact_paths (s : State) (first last : Z) (q : string) : Prop :=
  q = listFile (st s) +:+ ".lock" \/ q = listFile (st s)
  \/ (exists rf rl x,
        stackAt s first = Some rf /\ stackAt s last = Some rl
        /\ q = filepath_Join (reftableDir (st s))
                 (formatName (r_min rf) (r_max rl) +:+ x +:+ ".ref"))
  \/ (exists i r,
        first <= i <= last /\ stackAt s i = Some r
        /\ (q = filepath_Join (reftableDir (st s)) (r_name r)
            \/ q = filepath_Join (reftableDir (st s)) (r_name r) +:+ ".lock")).

(** The state after [compactRange] has counted an attempt. *)
Definition count_attempt (s : State) : State :=
  set_st (set_Stats (mkStats (Bytes (Stats (st s))) (Attempts (Stats (st s)) + 1)
                       (Failures (Stats (st s)))) (st s)) s.

(** The state after [compactRangeStats] has counted a failure. *)
Definition count_failure (s : State) : State :=
  set_st (set_Stats (mkStats (Bytes (Stats (st s))) (Attempts (Stats (st s)))
                       (Failures (Stats (st s)) + 1)) (st s)) s.
End Vocabulary.

(** * Properties *)

(** ** [log2] *)

Lemma log2_loop_zero fuel l : log2_loop fuel 0 l = l.
Proof. destruct fuel; reflexivity. Qed.

Lemma log2_half s : 2 <= s -> Z.log2 s = Z.log2 (s / 2) + 1.
Proof.
  intros Hs.
  replace (s / 2) with (Z.shiftr s 1) by (rewrite Z.shiftr_div_pow2; [reflexivity | lia]).
  rewrite Z.log2_shiftr by lia.
  assert (1 <= Z.log2 s) by (apply Z.log2_le_pow2; simpl; lia).
  lia.
Qed.

Lemma log2_loop_spec fuel : forall s l,
  0 < s < 2 ^ Z.of_nat fuel -> log2_loop fuel s l = l + Z.log2 s + 1.
Proof.
  induction fuel as [|fuel IH]; intros s l Hs.
  - simpl in Hs. lia.
  - cbn [log2_loop]. destruct (0 <? s) eqn:Hpos; [|lia].
    destruct (Z.eq_dec s 1) as [->|Hne].
    + change (1 / 2) with 0. rewrite log2_loop_zero. change (Z.log2 1) with 0. lia.
    + assert (2 <= s) by lia.
      rewrite IH.
      * rewrite (log2_half s) by lia. lia.
      * rewrite Nat2Z.inj_succ, Z.pow_succ_r in Hs by lia.
        split; [apply Z.div_str_pos; lia|].
        apply Z.div_lt_upper_bound; lia.
Qed.

(** The fuel of [log2] is enough: more fuel gives the same result. *)
Lemma log2_loop_fuel k s l :
  0 <= s < two64 -> log2_loop (64 + k) s l = log2_loop 64 s l.
Proof.
  intros Hs. destruct (Z.eq_dec s 0) as [->|Hne].
  - rewrite !log2_loop_zero. reflexivity.
  - rewrite !log2_loop_spec; [reflexivity | unfold two64 in Hs; lia |].
    split; [lia|]. apply Z.lt_le_trans with (2 ^ 64); [apply Hs|].
    apply Z.pow_le_mono_r; lia.
Qed.

Lemma halvings_spec fuel : forall s,
  0 < s < 2 ^ Z.of_nat fuel -> halvings fuel s = Z.log2 s + 1.
Proof.
  induction fuel as [|fuel IH]; intros s Hs.
  - simpl in Hs. lia.
  - cbn [halvings]. destruct (s =? 0) eqn:Hz; [lia|].
    destruct (Z.eq_dec s 1) as [->|Hne].
    + change (1 / 2) with 0. destruct fuel; reflexivity.
    + assert (2 <= s) by lia.
      rewrite IH.
      * rewrite (log2_half s) by lia. lia.
      * rewrite Nat2Z.inj_succ, Z.pow_succ_r in Hs by lia.
        split; [apply Z.div_str_pos; lia|].
        apply Z.div_lt_upper_bound; lia.
Qed.

Lemma log2_pos s : 0 < s < two64 -> log2 s = Returns (Z.log2 s).
Proof.
  intros Hs. unfold log2. destruct (s =? 0) eqn:Hz; [lia|].
  rewrite log2_loop_spec by (exact Hs). f_equal. lia.
Qed.

Lemma log2_nonzero s : s <> 0 -> exists l, log2 s = Returns l.
Proof.
  intros Hs. unfold log2. destruct (s =? 0) eqn:Hz; [lia|]. eauto.
Qed.

(** C8, as stated, fails: [log2 1024] is 10, the bit length of 1024 is 11. *)
Lemma log2_1024_is_not_the_bit_length :
  spec_bit_length 1024 = 11 /\ log2 1024 = Returns 10
  /\ log2 1024 <> Returns (spec_bit_length 1024).
Proof. vm_compute. repeat split; congruence. Qed.

(** C8 (amended): for every positive 64-bit size [s], [log2 s] returns the
    bit length of [s] minus one, that is the floor of the binary logarithm:
    [2 ^ log2 s <= s < 2 ^ (log2 s + 1)]. *)
Theorem log2_floor (s : Z) :
  0 < s < two64 ->
  log2 s = Returns (spec_bit_length s - 1)
  /\ log2 s = Returns (Z.log2 s)
  /\ 2 ^ Z.log2 s <= s < 2 ^ (Z.log2 s + 1).
Proof.
  intros Hs. unfold spec_bit_length.
  rewrite halvings_spec by (exact Hs).
  rewrite log2_pos by exact Hs.
  repeat split; try (f_equal; lia); apply Z.log2_spec; lia.
Qed.

Lemma log2_floor_witness :
  log2 1024 = Returns (spec_bit_length 1024 - 1)
  /\ log2 1024 = Returns (Z.log2 1024)
  /\ 2 ^ Z.log2 1024 <= 1024 < 2 ^ (Z.log2 1024 + 1).
Proof. apply (log2_floor 1024). unfold two64. lia. Defined.

(** ** Segment selection on the inputs of the specification *)

(** C6: for sizes [1024, 1024, 1024, 2^20, 2^20] the suggested segment is
    [0,3); for [2^20, 1024, 1024] it is [1,3), not extended to the left
    since [log2 2048 >= log2 (2^20)] is false; for [2^20] none is
    suggested. *)
Theorem suggest_segment_examples :
  (exists s, suggestCompactionSegment [1024; 1024; 1024; 2 ^ 20; 2 ^ 20] = Returns (Some s)
             /\ seg_start s = 0 /\ seg_end s = 3)
  /\ (exists s, suggestCompactionSegment [2 ^ 20; 1024; 1024] = Returns (Some s)
                /\ seg_start s = 1 /\ seg_end s = 3 /\ seg_bytes s = 2048)
  /\ (exists a b, log2 2048 = Returns a /\ log2 (2 ^ 20) = Returns b /\ (a >=? b) = false)
  /\ suggestCompactionSegment [2 ^ 20] = Returns None.
Proof.
  split; [|split; [|split]].
  - eexists. split; [vm_compute; reflexivity|]. split; reflexivity.
  - eexists. split; [vm_compute; reflexivity|]. repeat split; reflexivity.
  - exists 11, 20. repeat split; vm_compute; reflexivity.
  - vm_compute. reflexivity.
Qed.

(** ** The manifest text *)


Lemma bytes_Split_line n rest :
  no_newline n = true ->
  bytes_Split (n +:+ String newline rest) = n :: bytes_Split rest.
Proof.
  induction n as [|a n IH]; intros Hn; cbn [String.append bytes_Split].
  - rewrite Ascii.eqb_refl. reflexivity.
  - cbn [no_newline] in Hn. apply andb_true_iff in Hn as [Ha Hn].
    apply negb_true_iff in Ha. rewrite Ha, (IH Hn). reflexivity.
Qed.

Lemma bytes_Split_last n :
  no_newline n = true -> bytes_Split n = [n].
Proof.
  induction n as [|a n IH]; intros Hn; cbn [bytes_Split]; [reflexivity|].
  cbn [no_newline] in Hn. apply andb_true_iff in Hn as [Ha Hn].
  apply negb_true_iff in Ha. rewrite Ha, (IH Hn). reflexivity.
Qed.

Lemma bytes_Split_Join names :
  names <> [] -> Forall (fun n => no_newline n = true) names ->
  bytes_Split (strings_Join names) = names.
Proof.
  unfold strings_Join.
  induction names as [|n names IH]; intros Hne Hall; [congruence|].
  inversion Hall as [|? ? Hn Hrest]; subst.
  destruct names as [|n' names].
  - cbn [String.concat]. apply bytes_Split_last, Hn.
  - change (String.concat nl (n :: n' :: names))
      with (n +:+ String newline (String.concat nl (n' :: names))).
    rewrite bytes_Split_line by exact Hn.
    rewrite IH; [reflexivity | congruence | exact Hrest].
Qed.

Lemma legal_name_nonempty n : legal_name n = true -> nonempty n = true.
Proof. unfold legal_name. intros Hn. apply andb_true_iff in Hn. tauto. Qed.

Lemma legal_name_no_newline n : legal_name n = true -> no_newline n = true.
Proof. unfold legal_name. intros Hn. apply andb_true_iff in Hn. tauto. Qed.

Lemma filter_nonempty names :
  Forall (fun n => legal_name n = true) names -> List.filter nonempty names = names.
Proof.
  induction 1 as [|n names Hn _ IH]; cbn [List.filter]; [reflexivity|].
  rewrite (legal_name_nonempty _ Hn), IH. reflexivity.
Qed.

Lemma names_of_manifest_Join names :
  Forall (fun n => legal_name n = true) names ->
  names_of_manifest (strings_Join names) = names.
Proof.
  intros Hall. unfold names_of_manifest.
  destruct names as [|n names]; [reflexivity|].
  rewrite bytes_Split_Join.
  - apply filter_nonempty, Hall.
  - congruence.
  - eapply Forall_impl; [exact Hall|]. apply legal_name_no_newline.
Qed.

(** ** Strings, names and paths *)

Lemma append_assoc (a b c : string) : (a +:+ b) +:+ c = a +:+ (b +:+ c).
Proof. induction a as [|x a IH]; cbn; [reflexivity|]. rewrite IH. reflexivity. Qed.

Lemma append_cancel_l (a b c : string) : a +:+ b = a +:+ c -> b = c.
Proof. induction a as [|x a IH]; cbn; intros Heq; [exact Heq|]. inversion Heq. auto. Qed.

Lemma append_length (a b : string) :
  String.length (a +:+ b) = (String.length a + String.length b)%nat.
Proof. induction a as [|x a IH]; cbn; [reflexivity|]. rewrite IH. reflexivity. Qed.

Lemma append_neq_self (a b : string) : b <> EmptyString -> a +:+ b <> a.
Proof.
  intros Hb Heq. apply (f_equal String.length) in Heq.
  rewrite append_length in Heq. destruct b; [congruence|]. cbn in Heq. lia.
Qed.

Lemma has_suffix_append suf p : has_suffix suf (p +:+ suf) = true.
Proof.
  induction p as [|x p IH]; cbn [String.append].
  - destruct suf; cbn [has_suffix]; rewrite String.eqb_refl; reflexivity.
  - cbn [has_suffix].
    destruct (String.eqb (String x (p +:+ suf)) suf); [reflexivity|exact IH].
Qed.

Lemma has_suffix_length suf s :
  has_suffix suf s = true -> (String.length suf <= String.length s)%nat.
Proof.
  induction s as [|x s IH]; cbn [has_suffix].
  - destruct (String.eqb_spec EmptyString suf) as [<-|]; [cbn; lia|discriminate].
  - destruct (String.eqb_spec (String x s) suf) as [<-|]; [lia|].
    intros Hs. apply IH in Hs. cbn. lia.
Qed.

Lemma has_suffix_tail suf x s :
  has_suffix suf (String x s) = true ->
  (String.length suf <= String.length s)%nat -> has_suffix suf s = true.
Proof.
  cbn [has_suffix]. destruct (String.eqb_spec (String x s) suf) as [<-|]; [|auto].
  cbn. lia.
Qed.

(** Two strings with suffixes of the same length that differ are
    different. *)
Lemma has_suffix_inj suf1 suf2 s :
  String.length suf1 = String.length suf2 ->
  has_suffix suf1 s = true -> has_suffix suf2 s = true -> suf1 = suf2.
Proof.
  intros Hlen. induction s as [|x s IH]; intros H1 H2.
  - cbn [has_suffix] in H1, H2.
    destruct (String.eqb_spec EmptyString suf1); [|discriminate].
    destruct (String.eqb_spec EmptyString suf2); [|discriminate]. congruence.
  - cbn [has_suffix] in H1, H2.
    destruct (String.eqb_spec (String x s) suf1) as [E1|N1];
      destruct (String.eqb_spec (String x s) suf2) as [E2|N2].
    + congruence.
    + apply has_suffix_length in H2. subst suf1. cbn in Hlen. lia.
    + apply has_suffix_length in H1. subst suf2. cbn in Hlen. lia.
    + auto.
Qed.

Lemma has_suffix_prepend suf p s :
  has_suffix suf s = true -> has_suffix suf (p +:+ s) = true.
Proof.
  intros Hs. induction p as [|x p IH]; cbn [String.append]; [exact Hs|].
  cbn [has_suffix]. destruct (String.eqb _ suf); [reflexivity|exact IH].
Qed.

Lemma filepath_Join_suffix dir name suf :
  has_suffix suf name = true -> has_suffix suf (filepath_Join dir name) = true.
Proof.
  unfold filepath_Join. destruct (String.eqb dir EmptyString); [auto|].
  intros Hs. do 2 apply has_suffix_prepend. exact Hs.
Qed.

Lemma filepath_Join_inj dir a b : filepath_Join dir a = filepath_Join dir b -> a = b.
Proof.
  unfold filepath_Join. destruct (String.eqb dir EmptyString); [auto|].
  intros Heq. apply append_cancel_l in Heq. apply append_cancel_l in Heq. exact Heq.
Qed.

Lemma no_newline_append a b :
  no_newline (a +:+ b) = no_newline a && no_newline b.
Proof.
  induction a as [|x a IH]; cbn; [reflexivity|]. rewrite IH, andb_assoc. reflexivity.
Qed.

Lemma hex_digit_cases d :
  0 <= d < 16 ->
  digit_of (hex_digit d) = Some d /\ Ascii.eqb (hex_digit d) newline = false
  /\ Ascii.eqb (hex_digit d) "-" = false.
Proof.
  intros Hd.
  assert (d = 0 \/ d = 1 \/ d = 2 \/ d = 3 \/ d = 4 \/ d = 5 \/ d = 6 \/ d = 7
          \/ d = 8 \/ d = 9 \/ d = 10 \/ d = 11 \/ d = 12 \/ d = 13 \/ d = 14
          \/ d = 15) as Hcases by lia.
  repeat (destruct Hcases as [->|Hcases]; [repeat split; reflexivity|]).
  subst d. repeat split; reflexivity.
Qed.

Lemma no_newline_hex_digits n : forall z, no_newline (hex_digits n z) = true.
Proof.
  induction n as [|n IH]; intros z; cbn [hex_digits]; [reflexivity|].
  rewrite no_newline_append, IH. cbn.
  destruct (hex_digit_cases (z mod 16)) as (_ & -> & _); [|reflexivity].
  apply Z.mod_pos_bound. lia.
Qed.

Lemma hex_value_hex_digits n : forall z acc rest,
  0 <= z ->
  hex_value acc (hex_digits n z +:+ rest)
  = hex_value (acc * 16 ^ Z.of_nat n + z mod 16 ^ Z.of_nat n) rest.
Proof.
  induction n as [|n IH]; intros z acc rest Hz.
  - cbn. rewrite Z.mod_1_r. f_equal. lia.
  - cbn [hex_digits]. rewrite append_assoc, IH by (apply Z.div_pos; lia).
    cbn [String.append hex_value].
    destruct (hex_digit_cases (z mod 16)) as (-> & _ & _); [apply Z.mod_pos_bound; lia|].
    f_equal. rewrite Nat2Z.inj_succ, Z.pow_succ_r by lia.
    rewrite (Z.rem_mul_r z 16 (16 ^ Z.of_nat n)) by lia. lia.
Qed.

Lemma hex_width_bound z : 0 <= z -> z < 16 ^ Z.of_nat (Nat.max 12 (hex_width z)).
Proof.
  intros Hz. apply Z.lt_le_trans with (16 ^ Z.of_nat (hex_width z)).
  - unfold hex_width. destruct (z =? 0) eqn:H0; [cbn; lia|].
    assert (0 < z) as Hpos by lia.
    pose proof (Z.log2_nonneg z) as Hnn.
    destruct (Z.log2_spec z Hpos) as [_ Hlt].
    rewrite Z2Nat.id by (pose proof (Z.div_pos (Z.log2 z) 4 Hnn); lia).
    change 16 with (2 ^ 4). rewrite <- Z.pow_mul_r by
      (try lia; pose proof (Z.div_pos (Z.log2 z) 4 Hnn); lia).
    eapply Z.lt_le_trans; [exact Hlt|]. apply Z.pow_le_mono_r; [lia|].
    pose proof (Z.mod_pos_bound (Z.log2 z) 4) as Hm.
    pose proof (Z.div_mod (Z.log2 z) 4). lia.
  - apply Z.pow_le_mono_r; lia.
Qed.

(** The first index of a table name can be read back from the name. *)
Lemma hex_value_formatName a b rest :
  0 <= a -> hex_value 0 ((formatName a b +:+ rest)) = a.
Proof.
  intros Ha. unfold formatName, sprintf_012x.
  rewrite !append_assoc, hex_value_hex_digits by exact Ha.
  cbn [String.append hex_value]. change (digit_of "-") with (@None Z).
  rewrite Z.mod_small; [lia|]. split; [exact Ha|]. apply hex_width_bound, Ha.
Qed.

Lemma legal_formatName a b : legal_name (formatName a b +:+ ".ref") = true.
Proof.
  unfold legal_name. apply andb_true_iff. split.
  - unfold nonempty. apply negb_true_iff, String.eqb_neq. intros Heq.
    apply (f_equal String.length) in Heq. unfold formatName in Heq.
    rewrite !append_length in Heq. cbn in Heq. lia.
  - unfold formatName, sprintf_012x.
    rewrite !no_newline_append, !no_newline_hex_digits. reflexivity.
Qed.

Lemma after_dash_hex_digits n : forall z rest,
  after_dash (hex_digits n z +:+ rest) = after_dash rest.
Proof.
  induction n as [|n IH]; intros z rest; cbn [hex_digits]; [reflexivity|].
  rewrite append_assoc, IH. cbn [String.append after_dash].
  destruct (hex_digit_cases (z mod 16)) as (_ & _ & ->); [|reflexivity].
  apply Z.mod_pos_bound. lia.
Qed.

(** The second index of a table name can be read back from the name. *)
Lemma hex_value_after_dash a b :
  0 <= b -> hex_value 0 (after_dash (formatName a b +:+ ".ref")) = b.
Proof.
  intros Hb. unfold formatName. rewrite append_assoc.
  unfold sprintf_012x at 1. rewrite after_dash_hex_digits.
  cbn [String.append after_dash]. rewrite Ascii.eqb_refl.
  unfold sprintf_012x. rewrite hex_value_hex_digits by exact Hb.
  cbn [hex_value]. change (digit_of ".") with (@None Z).
  rewrite Z.mod_small; [lia|]. split; [exact Hb|]. apply hex_width_bound, Hb.
Qed.

Lemma table_path_suffix dir n :
  has_suffix ".ref" (filepath_Join dir (n +:+ ".ref")) = true.
Proof. apply filepath_Join_suffix, has_suffix_append. Qed.

Lemma table_path_not_lock dir n lf :
  filepath_Join dir (n +:+ ".ref") <> lf +:+ ".lock".
Proof.
  intros Heq. pose proof (table_path_suffix dir n) as Href. rewrite Heq in Href.
  assert (has_suffix "lock" (lf +:+ ".lock") = true) as Hlock.
  { change (lf +:+ ".lock") with (lf +:+ ("." +:+ "lock")).
    rewrite <- append_assoc. apply has_suffix_append. }
  pose proof (has_suffix_inj ".ref" "lock" _ eq_refl Href Hlock). discriminate.
Qed.

Lemma table_path_not_manifest dir n lf :
  has_suffix ".ref" lf = false -> filepath_Join dir (n +:+ ".ref") <> lf.
Proof.
  intros Hlf Heq. rewrite <- Heq, table_path_suffix in Hlf. discriminate.
Qed.

Lemma list_eqb_refl l : list_eqb l l = true.
Proof. induction l as [|x l IH]; cbn; [reflexivity|]. rewrite String.eqb_refl. exact IH. Qed.

Lemma list_eqb_eq a : forall b, list_eqb a b = true -> a = b.
Proof.
  induction a as [|x a IH]; intros [|y b]; cbn; try discriminate; [reflexivity|].
  intros Heq. apply andb_true_iff in Heq as [Hx Hr].
  apply String.eqb_eq in Hx. f_equal; auto.
Qed.

Section Facts.
Context `{Collaborators}.

Lemma readNames_missing s :
  files s !! listFile (st s) = None -> readNames s = (inl [], s).
Proof.
  intros Hf. unfold readNames, bind, get, ioutil_ReadFile. rewrite Hf.
  reflexivity.
Qed.

Lemma readNames_text s c :
  files s !! listFile (st s) = Some (Text c) -> hd false (faults s) = false ->
  fst (readNames s) = inl (names_of_manifest c).
Proof.
  intros Hf Hfault. unfold readNames, bind, get, ioutil_ReadFile, next_fault.
  rewrite Hf. destruct (faults s) as [|b bs]; [reflexivity|].
  simpl in Hfault. subst b. reflexivity.
Qed.

(** C9: for every legal name sequence (each name non-empty, no newline),
    the names joined by newlines, as the content of the manifest, are
    read back by [readNames] as the same sequence; and [readNames] on a
    missing manifest returns the empty sequence and no error. *)
Theorem manifest_round_trip (s : State) (names : list string) :
  Forall (fun n => legal_name n = true) names ->
  names_of_manifest (strings_Join names) = names
  /\ (files s !! listFile (st s) = Some (Text (strings_Join names)) ->
      hd false (faults s) = false ->
      fst (readNames s) = inl names)
  /\ (files s !! listFile (st s) = None -> readNames s = (inl [], s)).
Proof.
  intros Hall. split; [apply names_of_manifest_Join, Hall|]. split.
  - intros Hf Hfault. rewrite (readNames_text _ _ Hf Hfault).
    f_equal. apply names_of_manifest_Join, Hall.
  - apply readNames_missing.
Qed.

(** ** Tombstones in [writeCompact] *)


Lemma writeRefs_loop_ok first it : forall wr wr',
  writeRefs_loop first it wr = (wr', None) ->
  w_refs wr' = w_refs wr ++ List.filter (kept first) (iter_records it)
  /\ w_logs wr' = w_logs wr
  /\ minUpdateIndex wr' = minUpdateIndex wr
  /\ maxUpdateIndex wr' = maxUpdateIndex wr
  /\ iter_error it = None.
Proof.
  induction it as [|e|rec rest IH]; intros wr wr' Hrun; cbn in Hrun.
  - inversion Hrun; subst. cbn. rewrite app_nil_r. auto.
  - discriminate.
  - cbn [iter_records iter_error List.filter]. unfold kept at 1.
    destruct ((first =? 0) && isDeletion rec) eqn:Hdrop; cbn [negb].
    + apply IH, Hrun.
    + unfold Writer_AddRef in Hrun.
      destruct (addRefErr wr rec); [discriminate|].
      apply IH in Hrun as (Hrefs & Hlogs & Hmin & Hmax & Herr).
      cbn in Hrefs, Hlogs, Hmin, Hmax.
      rewrite Hrefs, <- app_assoc. auto.
Qed.

Lemma writeLogs_loop_ok it : forall wr wr',
  writeLogs_loop it wr = (wr', None) ->
  w_logs wr' = w_logs wr ++ iter_records it
  /\ w_refs wr' = w_refs wr
  /\ minUpdateIndex wr' = minUpdateIndex wr
  /\ maxUpdateIndex wr' = maxUpdateIndex wr
  /\ iter_error it = None.
Proof.
  induction it as [|e|rec rest IH]; intros wr wr' Hrun; cbn in Hrun.
  - inversion Hrun; subst. cbn. rewrite app_nil_r. auto.
  - discriminate.
  - cbn [iter_records iter_error]. unfold Writer_AddLog in Hrun.
    destruct (addLogErr wr rec); [discriminate|].
    apply IH in Hrun as (Hlogs & Hrefs & Hmin & Hmax & Herr).
    cbn in Hrefs, Hlogs, Hmin, Hmax.
    rewrite Hlogs, <- app_assoc. auto.
Qed.



(** ** Table sizes and [AutoCompact] *)

Lemma sizesToSegments_loop_zero sizes : forall i cur res,
  In 0 sizes -> exists m, sizesToSegments_loop sizes i cur res = Panics m.
Proof.
  induction sizes as [|sz sizes IH]; intros i cur res Hin; [destruct Hin|].
  cbn [sizesToSegments_loop]. destruct (Z.eq_dec sz 0) as [->|Hne].
  - cbn. eauto.
  - destruct Hin as [Hz|Hin]; [congruence|].
    destruct (log2_nonzero sz Hne) as [l ->].
    destruct (negb (seg_log cur =? l) && (0 <? seg_bytes cur)); apply IH, Hin.
Qed.

Lemma suggestCompactionSegment_zero sizes :
  In 0 sizes -> exists m, suggestCompactionSegment sizes = Panics m.
Proof.
  intros Hin. unfold suggestCompactionSegment, sizesToSegments.
  destruct (sizesToSegments_loop_zero sizes 0 (mkSegment 0 0 0 0) [] Hin) as [m ->].
  eauto.
Qed.

(** C10 (amended): the size that [AutoCompact] feeds to segment selection
    for a table is its file size minus 91 in unsigned 64-bit arithmetic.
    A stack that holds a table of exactly 91 bytes makes [AutoCompact]
    panic ([log2] of 0).  A table of fewer than 91 bytes gets the size
    [size + 2^64 - 91], on which [log2] returns 63 and does not panic. *)
Theorem AutoCompact_table_sizes (s : State) (p : nat) :
  In p (stack (st s)) ->
  tableSizesForCompaction s
    = map (fun q => (r_size (reader s q) - 91) mod 2 ^ 64) (stack (st s))
  /\ (r_size (reader s p) = 91 -> exists m, AutoCompact s = (Panics m, s))
  /\ (0 <= r_size (reader s p) < 91 ->
      In (r_size (reader s p) + 2 ^ 64 - 91) (tableSizesForCompaction s)
      /\ log2 (r_size (reader s p) + 2 ^ 64 - 91) = Returns 63).
Proof.
  intros Hin. split; [reflexivity|]. split.
  - intros Hsize.
    assert (In 0 (tableSizesForCompaction s)) as Hz.
    { unfold tableSizesForCompaction. apply in_map_iff. exists p.
      split; [|exact Hin]. rewrite Hsize. reflexivity. }
    destruct (suggestCompactionSegment_zero _ Hz) as [m Hm].
    exists m. unfold AutoCompact, bind, get. rewrite Hm. reflexivity.
  - intros Hsize. split.
    + unfold tableSizesForCompaction. apply in_map_iff. exists p.
      split; [|exact Hin]. unfold wrap64, two64.
      replace (r_size (reader s p) - 91)
        with (r_size (reader s p) + 2 ^ 64 - 91 + (-1) * 2 ^ 64) by lia.
      rewrite Z.mod_add by lia. apply Z.mod_small. lia.
    + rewrite log2_pos by (unfold two64; lia). f_equal.
      apply Z.log2_unique; lia.
Qed.
End Facts.

(** ** What the system calls do *)

Section Calls.
Context `{Collaborators}.

Lemma same_memory_refl s : same_memory s s.
Proof. split; reflexivity. Qed.

Lemma same_memory_trans s1 s2 s3 :
  same_memory s1 s2 -> same_memory s2 s3 -> same_memory s1 s3.
Proof. intros [? ?] [? ?]. split; congruence. Qed.

Lemma bind_eq {A B} (m : M A) (k : A -> M B) s :
  bind m k s = let '(a, s') := m s in k a s'.
Proof. reflexivity. Qed.

Lemma next_fault_inv s b s' :
  next_fault s = (b, s') -> files s' = files s /\ same_memory s s'.
Proof.
  unfold next_fault. destruct (faults s); intros Heq; inversion Heq; subst;
    repeat split; reflexivity.
Qed.

Lemma os_OpenFile_excl_inv path s f e s' :
  os_OpenFile_excl path s = ((f, e), s') ->
  same_memory s s'
  /\ ((e = None /\ f = Some path /\ files s !! path = None
       /\ files s' = <[path := Text EmptyString]> (files s))
      \/ (e <> None /\ f = None /\ files s' = files s)).
Proof.
  unfold os_OpenFile_excl. destruct (files s !! path) eqn:Hp.
  - intros Heq; inversion Heq; subst. split; [apply same_memory_refl|].
    right. repeat split; congruence.
  - destruct (next_fault s) as [b s1] eqn:Hf.
    apply next_fault_inv in Hf as [Hfiles Hmem].
    destruct b; intros Heq; inversion Heq; subst; cbn.
    + split; [exact Hmem|]. right. repeat split; congruence.
    + split; [exact Hmem|]. left. rewrite Hfiles. auto.
Qed.

Lemma file_Close_inv f s e s' :
  file_Close f s = (e, s') -> files s' = files s /\ same_memory s s'.
Proof.
  unfold file_Close. destruct f.
  - rewrite bind_eq. destruct (next_fault s) as [b s1] eqn:Hf.
    apply next_fault_inv in Hf. intros Heq; inversion Heq; subst. exact Hf.
  - intros Heq; inversion Heq; subst. split; [reflexivity|apply same_memory_refl].
Qed.

Lemma file_Write_inv path data s e s' :
  file_Write (Some path) data s = (e, s') ->
  same_memory s s'
  /\ ((e = None
       /\ files s' = match files s !! path with
                     | Some (Text c) => <[path := Text (c +:+ data)]> (files s)
                     | _ => files s
                     end)
      \/ (e <> None /\ files s' = files s)).
Proof.
  unfold file_Write. rewrite bind_eq.
  destruct (next_fault s) as [b s1] eqn:Hf.
  apply next_fault_inv in Hf as [Hfiles Hmem]. destruct b.
  - intros Heq; inversion Heq; subst. split; [exact Hmem|]. right. split; congruence.
  - rewrite Hfiles. destruct (files s !! path) as [[c|t]|];
      intros Heq; inversion Heq; subst; (split; [exact Hmem|]); left; auto.
Qed.

Lemma os_Remove_inv path s e s' :
  os_Remove path s = (e, s') ->
  same_memory s s'
  /\ ((e = None /\ files s' = delete path (files s))
      \/ (e <> None /\ files s' = files s)).
Proof.
  unfold os_Remove. destruct (files s !! path) eqn:Hp.
  - destruct (next_fault s) as [b s1] eqn:Hf.
    apply next_fault_inv in Hf as [Hfiles Hmem].
    destruct b; intros Heq; inversion Heq; subst; cbn; (split; [exact Hmem|]).
    + right. split; congruence.
    + left. rewrite Hfiles. auto.
  - intros Heq; inversion Heq; subst. split; [apply same_memory_refl|].
    right. split; congruence.
Qed.

Lemma os_Rename_inv old new s e s' :
  os_Rename old new s = (e, s') ->
  same_memory s s'
  /\ ((e = None /\ exists c, files s !! old = Some c
                             /\ files s' = <[new := c]> (delete old (files s)))
      \/ (e <> None /\ files s' = files s)).
Proof.
  unfold os_Rename. destruct (files s !! old) as [c|] eqn:Hp.
  - destruct (next_fault s) as [b s1] eqn:Hf.
    apply next_fault_inv in Hf as [Hfiles Hmem].
    destruct b; intros Heq; inversion Heq; subst; cbn; (split; [exact Hmem|]).
    + right. split; congruence.
    + left. rewrite Hfiles. eauto.
  - intros Heq; inversion Heq; subst. split; [apply same_memory_refl|].
    right. split; congruence.
Qed.

Lemma ioutil_ReadFile_inv path s r s' :
  ioutil_ReadFile path s = (r, s') ->
  files s' = files s /\ same_memory s s'
  /\ match r with
     | inl c => exists f, files s !! path = Some f /\ c = text_of f
     | inr e => (files s !! path = None /\ e = ErrNotExist) \/ e = ErrIO
     end.
Proof.
  unfold ioutil_ReadFile. destruct (files s !! path) as [c|] eqn:Hp.
  - destruct (next_fault s) as [b s1] eqn:Hf.
    apply next_fault_inv in Hf as [Hfiles Hmem].
    destruct b; intros Heq; inversion Heq; subst; cbn;
      (split; [exact Hfiles|]); (split; [exact Hmem|]).
    + right. reflexivity.
    + eauto.
  - intros Heq; inversion Heq; subst.
    split; [reflexivity|]. split; [apply same_memory_refl|]. left. auto.
Qed.

Lemma tempName_fresh fs dir pre suf cands path rest :
  tempName fs dir pre suf cands = Some (path, rest) -> fs !! path = None.
Proof.
  induction cands as [|r cands IH]; cbn; [discriminate|].
  destruct (fs !! filepath_Join dir (pre +:+ r +:+ suf)) eqn:Hp; [exact IH|].
  intros Heq; inversion Heq; subst. exact Hp.
Qed.

Lemma ioutil_TempFile_inv dir pre suf s r s' :
  ioutil_TempFile dir pre suf s = (r, s') ->
  same_memory s s'
  /\ match r with
     | inl path => files s !! path = None
                   /\ files s' = <[path := Text EmptyString]> (files s)
     | inr _ => files s' = files s
     end.
Proof.
  unfold ioutil_TempFile.
  destruct (tempName (files s) dir pre suf (rands s)) as [[path rest]|] eqn:Ht.
  - apply tempName_fresh in Ht.
    destruct (next_fault (set_rands rest s)) as [b s1] eqn:Hf.
    apply next_fault_inv in Hf as [Hfiles Hmem]. cbn in Hfiles.
    destruct b; intros Heq; inversion Heq; subst; cbn; (split; [exact Hmem|]).
    + exact Hfiles.
    + rewrite Hfiles. auto.
  - intros Heq; inversion Heq; subst. split; [split; reflexivity|]. reflexivity.
Qed.

Lemma Writer_Close_inv f wr s e s' :
  Writer_Close f wr s = (e, s') ->
  same_memory s s'
  /\ ((e = None
       /\ files s' = match files s !! f with
                     | Some _ => <[f := TableData (table_of_writer wr)]> (files s)
                     | None => files s
                     end)
      \/ (e <> None /\ files s' = files s)).
Proof.
  unfold Writer_Close. destruct (writerCloseErr wr).
  - intros Heq; inversion Heq; subst. split; [apply same_memory_refl|].
    right. split; congruence.
  - rewrite bind_eq. destruct (next_fault s) as [b s1] eqn:Hf.
    apply next_fault_inv in Hf as [Hfiles Hmem]. destruct b.
    + intros Heq; inversion Heq; subst. split; [exact Hmem|]. right. split; congruence.
    + rewrite Hfiles. destruct (files s !! f);
        intros Heq; inversion Heq; subst; (split; [exact Hmem|]); left; auto.
Qed.

Lemma NewFileBlockSource_inv path s r s' :
  NewFileBlockSource path s = (r, s') ->
  files s' = files s /\ same_memory s s'
  /\ match r with
     | inl c => files s !! path = Some c
     | inr e => (files s !! path = None /\ e = ErrNotExist) \/ e = ErrIO
     end.
Proof.
  unfold NewFileBlockSource. destruct (files s !! path) as [c|] eqn:Hp.
  - destruct (next_fault s) as [b s1] eqn:Hf.
    apply next_fault_inv in Hf as [Hfiles Hmem].
    destruct b; intros Heq; inversion Heq; subst; cbn;
      (split; [exact Hfiles|]); (split; [exact Hmem|]).
    + right. reflexivity.
    + reflexivity.
  - intros Heq; inversion Heq; subst.
    split; [reflexivity|]. split; [apply same_memory_refl|]. left. auto.
Qed.

Lemma NewReader_inv bs name s r s' :
  NewReader bs name s = (r, s') ->
  files s' = files s /\ st s' = st s
  /\ match r with
     | inl p => exists t, bs = TableData t /\ p = length (heap s)
                          /\ heap s' = heap s ++ [reader_of_table name t]
     | inr _ => heap s' = heap s
     end.
Proof.
  unfold NewReader. destruct bs as [c|t].
  - intros Heq; inversion Heq; subst. auto.
  - destruct (newReaderErr t); intros Heq; inversion Heq; subst; cbn; eauto 6.
Qed.

(** Closing readers changes nothing but their [r_closed]. *)
Lemma close_reader_idem r : close_reader (close_reader r) = close_reader r.
Proof. reflexivity. Qed.

Lemma readers_eq_refl h : readers_eq h h.
Proof. reflexivity. Qed.

Lemma readers_eq_trans h1 h2 h3 :
  readers_eq h1 h2 -> readers_eq h2 h3 -> readers_eq h1 h3.
Proof. unfold readers_eq. congruence. Qed.

Lemma readers_eq_alter p h : readers_eq h (alter close_reader p h).
Proof.
  unfold readers_eq. revert p. induction h as [|r h IH]; intros [|p]; cbn;
    try reflexivity.
  f_equal. apply IH.
Qed.

Lemma readers_eq_length h h' : readers_eq h h' -> length h = length h'.
Proof.
  unfold readers_eq. intros Heq. apply (f_equal length) in Heq.
  rewrite !length_map in Heq. exact Heq.
Qed.

Lemma readers_eq_lookup h h' p :
  readers_eq h h' -> close_reader (h !!! p) = close_reader (h' !!! p).
Proof.
  unfold readers_eq. revert h' p. induction h as [|r h IH]; intros [|r' h'] p Heq;
    try discriminate; [reflexivity|].
  cbn [map] in Heq. apply (f_equal head) in Heq as Hr. cbn in Hr.
  apply (f_equal tail) in Heq as Hh. cbn in Hh. destruct p as [|p]; cbn.
  - congruence.
  - apply IH. exact Hh.
Qed.

Lemma closeAll_inv ps : forall s u s',
  closeAll ps s = (u, s') ->
  files s' = files s /\ st s' = st s /\ readers_eq (heap s) (heap s').
Proof.
  induction ps as [|p ps IH]; intros s u s'; cbn [closeAll].
  - intros Heq; inversion Heq; subst. repeat split; reflexivity.
  - unfold bind, Reader_Close, modify. intros Hrun.
    apply IH in Hrun as (Hf & Hst & Hh). cbn in Hf, Hst, Hh.
    repeat split; try assumption.
    eapply readers_eq_trans; [apply readers_eq_alter|exact Hh].
Qed.

(** ** Reload *)

Lemma readNames_inv s r s' :
  readNames s = (r, s') ->
  files s' = files s /\ same_memory s s'
  /\ (forall names, r = inl names -> names = manifest_names (files s) (listFile (st s))).
Proof.
  unfold readNames, bind, get.
  destruct (ioutil_ReadFile (listFile (st s)) s) as [c s1] eqn:Hread.
  apply ioutil_ReadFile_inv in Hread as (Hfiles & Hmem & Hr).
  unfold manifest_names. destruct c as [c|e].
  - destruct Hr as (f & Hf & ->). intros Heq; inversion Heq; subst.
    repeat split; try assumption; try apply Hmem.
    intros names Hn. inversion Hn. rewrite Hf. reflexivity.
  - destruct Hr as [[Hnone ->]| ->]; cbn; intros Heq; inversion Heq; subst;
      (repeat split; try assumption; try apply Hmem); intros names Hn;
      inversion Hn. rewrite Hnone. reflexivity.
Qed.

Lemma foldl_insert_notin (nm : nat -> string) ps : forall (m : gmap string nat) n,
  n ∉ map nm ps ->
  foldl (fun cur p => <[nm p := p]> cur) m ps !! n = m !! n.
Proof.
  induction ps as [|q ps IH]; intros m n Hn; cbn; [reflexivity|].
  cbn in Hn. apply not_elem_of_cons in Hn as [Hne Hn].
  rewrite IH by exact Hn. apply lookup_insert_ne. congruence.
Qed.

Lemma foldl_insert_in (nm : nat -> string) ps : forall (m : gmap string nat) p,
  NoDup (map nm ps) -> p ∈ ps ->
  foldl (fun cur p => <[nm p := p]> cur) m ps !! nm p = Some p.
Proof.
  induction ps as [|q ps IH]; intros m p Hnd Hp; [inversion Hp|].
  cbn in Hnd. apply NoDup_cons in Hnd as [Hq Hnd]. cbn.
  apply elem_of_cons in Hp as [->|Hp].
  - rewrite foldl_insert_notin by exact Hq. apply lookup_insert_eq.
  - apply IH; assumption.
Qed.

Lemma Forall2_delete (cur : gmap string nat) n ns ps :
  Forall2 (fun n p => cur !! n = Some p) ns ps -> n ∉ ns ->
  Forall2 (fun n' p => delete n cur !! n' = Some p) ns ps.
Proof.
  induction 1 as [|n' p' ns' ps' Hn' _ IH]; intros Hnotin; constructor.
  - apply not_elem_of_cons in Hnotin as [Hne _].
    rewrite lookup_delete_ne by congruence. exact Hn'.
  - apply IH. apply not_elem_of_cons in Hnotin. tauto.
Qed.

Lemma reloadOnce_loop_reuse ns : forall ps (cur : gmap string nat) rest acc s,
  Forall2 (fun n p => cur !! n = Some p) ns ps -> NoDup ns ->
  reloadOnce_loop (ns ++ rest) cur acc s
  = reloadOnce_loop rest (foldl (fun m n => delete n m) cur ns) (acc ++ ps) s.
Proof.
  induction ns as [|n ns IH]; intros ps cur rest acc s Hall Hnd.
  - inversion Hall; subst. cbn. rewrite app_nil_r. reflexivity.
  - inversion Hall as [|? p ? ps' Hn Hall']; subst.
    apply NoDup_cons in Hnd as [Hnotin Hnd].
    cbn [app reloadOnce_loop foldl]. rewrite Hn.
    rewrite (IH ps'); [rewrite <- app_assoc; reflexivity| |exact Hnd].
    apply Forall2_delete; assumption.
Qed.

Lemma foldl_delete_lookup ns : forall (cur : gmap string nat) n,
  n ∉ ns -> foldl (fun m n => delete n m) cur ns !! n = cur !! n.
Proof.
  induction ns as [|x ns IH]; intros cur n Hn; cbn; [reflexivity|].
  apply not_elem_of_cons in Hn as [Hne Hn].
  rewrite IH by exact Hn. apply lookup_delete_ne. congruence.
Qed.

(** A reload whose target names are those of the readers [pre] and
    [post] of the stack with the new name [new] in between. *)
Lemma reloadOnce_loop_splice s pre post new (cur : gmap string nat) r s' :
  let name := fun p => r_name (reader s p) in
  (forall p, p ∈ pre ++ post -> cur !! name p = Some p) ->
  NoDup (map name (pre ++ post)) ->
  cur !! new = None ->
  reloadOnce_loop (map name pre ++ new :: map name post) cur [] s = (r, s') ->
  files s' = files s /\ st s' = st s
  /\ match r with
     | (_, _, Some _) => True
     | (_, newTables, None) =>
         exists t, files s !! filepath_Join (reftableDir (st s)) new = Some (TableData t)
                   /\ newTables = pre ++ length (heap s) :: post
                   /\ heap s' = heap s ++ [reader_of_table new t]
     end.
Proof.
  intros name Hcur Hnd Hnew.
  rewrite map_app in Hnd. apply NoDup_app in Hnd as (Hnd1 & Hdisj & Hnd2).
  rewrite (reloadOnce_loop_reuse _ pre).
  2:{ apply Forall2_fmap_l, Forall_Forall2_diag, Forall_forall.
      intros p Hp. apply Hcur, elem_of_app. auto. }
  2:{ exact Hnd1. }
  cbn [app reloadOnce_loop].
  set (cur1 := foldl (fun m n => delete n m) cur (map name pre)).
  assert (cur1 !! new = None) as Hnew1.
  { destruct (decide (new ∈ map name pre)) as [Hin|Hout].
    - apply list_elem_of_fmap in Hin as (p & -> & Hp).
      rewrite Hcur in Hnew by (apply elem_of_app; auto). discriminate.
    - unfold cur1. rewrite foldl_delete_lookup by exact Hout. exact Hnew. }
  rewrite Hnew1. unfold bind at 1, get.
  rewrite bind_eq.
  destruct (NewFileBlockSource _ s) as [bs s1] eqn:Hbs.
  apply NewFileBlockSource_inv in Hbs as (Hf1 & [Hh1 Hst1] & Hbs).
  destruct bs as [c|e].
  2:{ intros Heq; inversion Heq; subst. auto. }
  rewrite bind_eq. destruct (NewReader c new s1) as [rd s2] eqn:Hrd.
  apply NewReader_inv in Hrd as (Hf2 & Hst2 & Hrd).
  destruct rd as [p|e].
  2:{ intros Heq; inversion Heq; subst. split; [congruence|]. split; [congruence|]. exact I. }
  destruct Hrd as (t & -> & -> & Hh2).
  rewrite <- (app_nil_r (map name post)).
  rewrite (reloadOnce_loop_reuse _ post).
  2:{ apply Forall2_fmap_l, Forall_Forall2_diag, Forall_forall.
      intros q Hq. change (cur1 !! name q = Some q).
      unfold cur1. rewrite foldl_delete_lookup.
      - apply Hcur, elem_of_app. auto.
      - intros Hin. apply (Hdisj (name q)); [exact Hin|].
        apply list_elem_of_fmap. eauto. }
  2:{ exact Hnd2. }
  cbn [reloadOnce_loop]. intros Heq; inversion Heq; subst.
  split; [congruence|]. split; [congruence|].
  exists t. split; [exact Hbs|]. split; [|congruence].
  cbn [app]. rewrite <- app_assoc. cbn. congruence.
Qed.

Lemma reloadOnce_loop_inv names : forall (cur : gmap string nat) acc s r s',
  reloadOnce_loop names cur acc s = (r, s') ->
  files s' = files s /\ st s' = st s.
Proof.
  induction names as [|n names IH]; intros cur acc s r s'; cbn [reloadOnce_loop].
  - intros Heq; inversion Heq; subst. auto.
  - destruct (cur !! n); [apply IH|].
    unfold bind at 1, get. rewrite bind_eq.
    destruct (NewFileBlockSource _ s) as [bs s1] eqn:Hbs.
    apply NewFileBlockSource_inv in Hbs as (Hf1 & [Hh1 Hst1] & _).
    destruct bs as [c|e]; [|intros Heq; inversion Heq; subst; auto].
    rewrite bind_eq. destruct (NewReader c n s1) as [rd s2] eqn:Hrd.
    apply NewReader_inv in Hrd as (Hf2 & Hst2 & _).
    destruct rd as [p|e].
    + intros Hrun. apply IH in Hrun as [Hf3 Hst3]. split; congruence.
    + intros Heq; inversion Heq; subst. split; congruence.
Qed.

Lemma reloadOnce_inv names s r s' :
  reloadOnce names s = (r, s') ->
  files s' = files s /\ listFile (st s') = listFile (st s)
  /\ reftableDir (st s') = reftableDir (st s).
Proof.
  unfold reloadOnce, bind, get.
  destruct (reloadOnce_loop names (curReaders s) [] s) as [[[cur nt] err] s1] eqn:Hloop.
  apply reloadOnce_loop_inv in Hloop as [Hf Hst].
  destruct err as [e|].
  - destruct (closeAll nt s1) as [u s2] eqn:Hclose.
    apply closeAll_inv in Hclose as (Hf2 & Hst2 & _).
    intros Heq; inversion Heq; subst. repeat split; congruence.
  - unfold modify.
    destruct (closeAll _ _) as [u s2] eqn:Hclose.
    apply closeAll_inv in Hclose as (Hf2 & Hst2 & _). cbn in Hf2, Hst2.
    intros Heq; inversion Heq; subst. rewrite Hst2, Hf2. cbn.
    repeat split; congruence.
Qed.

Lemma reloadOnce_splice s pre mid post new r s' :
  let name := fun p => r_name (reader s p) in
  stack (st s) = pre ++ mid ++ post ->
  NoDup (stackNames s) ->
  new ∉ stackNames s ->
  reloadOnce (map name pre ++ new :: map name post) s = (r, s') ->
  r = None ->
  exists t,
    files s !! filepath_Join (reftableDir (st s)) new = Some (TableData t)
    /\ stack (st s') = pre ++ length (heap s) :: post
    /\ readers_eq (heap s ++ [reader_of_table new t]) (heap s').
Proof.
  intros name Hstack Hnd Hnew. unfold stackNames in Hnd, Hnew.
  fold name in Hnd, Hnew. rewrite Hstack in Hnd, Hnew.
  unfold reloadOnce, bind, get.
  destruct (reloadOnce_loop _ (curReaders s) [] s) as [[[cur nt] err] s1] eqn:Hloop.
  apply reloadOnce_loop_splice in Hloop.
  - destruct Hloop as (Hf & Hst & Hres). destruct err as [e|].
    + destruct (closeAll nt s1) as [u s2]. intros Heq; inversion Heq; subst.
      discriminate.
    + destruct Hres as (t & Ht & -> & Hheap). unfold modify.
      destruct (closeAll _ _) as [u s2] eqn:Hclose.
      apply closeAll_inv in Hclose as (Hf2 & Hst2 & Hh2). cbn in Hf2, Hst2, Hh2.
      intros Heq; inversion Heq; subst. intros _.
      exists t. split; [exact Ht|]. split; [rewrite Hst2; reflexivity|].
      rewrite <- Hheap. exact Hh2.
  - intros p Hp. unfold curReaders. rewrite Hstack.
    apply (foldl_insert_in name); [exact Hnd|].
    apply elem_of_app in Hp as [Hp|Hp]; rewrite !elem_of_app; auto.
  - rewrite !map_app in Hnd. apply NoDup_app in Hnd as (Hnd1 & Hdisj & Hnd2).
    apply NoDup_app in Hnd2 as (_ & _ & Hnd3).
    rewrite map_app. apply NoDup_app. repeat split; try assumption.
    intros x Hx Hx'. apply (Hdisj x Hx). apply elem_of_app. auto.
  - unfold curReaders. rewrite Hstack.
    rewrite (foldl_insert_notin name) by exact Hnew. apply lookup_empty.
Qed.

(** A reload that returns no error has read the names of the manifest and
    reloaded them in one attempt. *)
Lemma reload_inv s s' :
  reload s = (None, s') ->
  exists s0 s1,
    files s0 = files s /\ same_memory s s0
    /\ reloadOnce (manifest_names (files s) (listFile (st s))) s0 = (None, s1)
    /\ files s' = files s1 /\ heap s' = heap s1
    /\ stack (st s') = stack (st s1)
    /\ listFile (st s') = listFile (st s1)
    /\ reftableDir (st s') = reftableDir (st s1).
Proof.
  unfold reload. unfold bind at 1, get. rewrite bind_eq.
  cbn [reload_loop]. rewrite bind_eq.
  destruct (readNames s) as [names s0] eqn:Hnames.
  apply readNames_inv in Hnames as (Hf0 & Hm0 & Hn0).
  destruct names as [names|e]; [|discriminate].
  specialize (Hn0 names eq_refl). subst names.
  rewrite bind_eq.
  destruct (reloadOnce _ s0) as [err s1] eqn:Honce.
  destruct err as [e|].
  - intros Hrun. exfalso. apply reloadOnce_inv in Honce as (Hf1 & Hl1 & _).
    destruct (negb (os_IsNotExist (Some e))); [discriminate|].
    rewrite bind_eq in Hrun.
    destruct (readNames s1) as [after s2] eqn:Hafter.
    apply readNames_inv in Hafter as (_ & _ & Hn1).
    destruct after as [after|e']; [|discriminate].
    specialize (Hn1 after eq_refl). subst after.
    destruct Hm0 as [_ Hst0].
    rewrite Hf1, Hl1, Hf0, Hst0, list_eqb_refl in Hrun. discriminate.
  - unfold bind, get, ret, modify, NewMerged.
    destruct (newMergedErr _); [discriminate|].
    intros Heq; inversion Heq; subst. cbn.
    exists s0, s1. repeat split; try assumption; apply Hm0.
Qed.
End Calls.

(** ** Chains of readers *)

Section Chains.
Context `{Collaborators}.

Lemma named_indices lo r :
  0 <= lo -> named lo r ->
  lo < first_index r <= r_min r /\ 0 <= second_index r <= r_max r
  /\ r_min r <= r_max r /\ r_max r < two64 - 1
  /\ legal_name (r_name r) = true.
Proof.
  intros Hlo (a & b & Hname & Ha & Hmin & Hb & Hle & Hmax).
  unfold first_index, second_index. rewrite Hname.
  rewrite hex_value_formatName by lia. rewrite hex_value_after_dash by lia.
  rewrite legal_formatName. repeat split; lia.
Qed.

Lemma named_mono lo lo' r : lo' <= lo -> named lo r -> named lo' r.
Proof.
  intros Hle (a & b & Hname & Ha & Hrest). exists a, b.
  split; [exact Hname|]. split; [lia|exact Hrest].
Qed.

Lemma named_close lo r r' :
  close_reader r = close_reader r' -> named lo r -> named lo r'.
Proof.
  intros Heq. unfold named.
  change (r_name r) with (r_name (close_reader r)).
  change (r_min r) with (r_min (close_reader r)).
  change (r_max r) with (r_max (close_reader r)).
  rewrite Heq. auto.
Qed.

Lemma chain_close rs : forall lo rs',
  Forall2 (fun r r' => close_reader r = close_reader r') rs rs' ->
  chain lo rs -> chain lo rs'.
Proof.
  induction rs as [|r rs IH]; intros lo rs' Hall Hchain;
    inversion Hall as [|? r' ? rs'' Hr Hrest]; subst; [exact I|].
  destruct Hchain as [Hn Hc]. split; [eapply named_close; eauto|].
  change (r_max r') with (r_max (close_reader r')). rewrite <- Hr.
  apply IH; assumption.
Qed.

Lemma top_cons lo r rs : top lo (r :: rs) = top (r_max r) rs.
Proof.
  unfold top. destruct rs as [|r' rs]; [reflexivity|].
  change (last (r :: r' :: rs)) with (last (r' :: rs)).
  destruct (last (r' :: rs)) eqn:Hlast; [reflexivity|].
  apply last_None in Hlast. discriminate.
Qed.

Lemma top_snoc lo rs r : top lo (rs ++ [r]) = r_max r.
Proof. unfold top. rewrite last_snoc. reflexivity. Qed.

Lemma chain_top lo rs : 0 <= lo -> chain lo rs -> lo <= top lo rs.
Proof.
  revert lo. induction rs as [|r rs IH]; intros lo Hlo Hchain; [cbn; lia|].
  destruct Hchain as [Hn Hc]. rewrite top_cons.
  apply (named_indices lo r Hlo) in Hn. apply IH in Hc; lia.
Qed.

Lemma chain_app lo xs ys :
  chain lo (xs ++ ys) <-> chain lo xs /\ chain (top lo xs) ys.
Proof.
  revert lo. induction xs as [|x xs IH]; intros lo; cbn [app chain].
  - unfold top. cbn. tauto.
  - rewrite top_cons, IH. tauto.
Qed.

Lemma chain_mono lo lo' rs : lo' <= lo -> chain lo rs -> chain lo' rs.
Proof.
  destruct rs as [|r rs]; [auto|]. intros Hle [Hn Hc].
  split; [eapply named_mono; eauto|exact Hc].
Qed.

(** In a chain the first indices lie above [lo], and the maxima do not
    exceed the top. *)
Lemma chain_elem lo rs r :
  0 <= lo -> chain lo rs -> r ∈ rs ->
  lo < first_index r /\ first_index r <= r_max r /\ r_max r <= top lo rs
  /\ legal_name (r_name r) = true.
Proof.
  revert lo. induction rs as [|x rs IH]; intros lo Hlo Hchain Hr; [inversion Hr|].
  destruct Hchain as [Hn Hc]. rewrite top_cons.
  pose proof (named_indices lo x Hlo Hn) as Hx.
  assert (0 <= r_max x) as Hmax by lia.
  pose proof (chain_top _ _ Hmax Hc) as Htop.
  apply elem_of_cons in Hr as [->|Hr].
  - repeat split; try lia. apply Hx.
  - destruct (IH _ Hmax Hc Hr) as (H1 & H2 & H3 & H4). repeat split; try lia. exact H4.
Qed.

Lemma chain_NoDup lo rs : 0 <= lo -> chain lo rs -> NoDup (map r_name rs).
Proof.
  revert lo. induction rs as [|x rs IH]; intros lo Hlo Hchain; cbn [map].
  - constructor.
  - destruct Hchain as [Hn Hc].
    pose proof (named_indices lo x Hlo Hn) as Hx.
    assert (0 <= r_max x) as Hmax by lia.
    apply NoDup_cons. split; [|eapply IH; eauto].
    intros Hin. apply list_elem_of_fmap in Hin as (r & Hname & Hr).
    destruct (chain_elem _ _ _ Hmax Hc Hr) as (H1 & _).
    unfold first_index in *. rewrite <- Hname in H1. lia.
Qed.

Lemma chain_legal lo rs :
  0 <= lo -> chain lo rs -> Forall (fun n => legal_name n = true) (map r_name rs).
Proof.
  intros Hlo Hchain. apply Forall_forall. intros n Hn.
  apply list_elem_of_fmap in Hn as (r & -> & Hr).
  eapply chain_elem; eauto.
Qed.



Lemma chain_top_bound lo rs :
  0 <= lo -> lo < two64 - 1 -> chain lo rs -> top lo rs < two64 - 1.
Proof.
  intros Hlo Hlt Hchain. unfold top. destruct (last rs) as [r|] eqn:Hlast; [|exact Hlt].
  apply last_Some_elem_of in Hlast.
  revert lo Hlo Hlt Hchain Hlast.
  induction rs as [|x rs IH]; intros lo Hlo Hlt Hchain Hr; [inversion Hr|].
  destruct Hchain as [Hn Hc].
  pose proof (named_indices lo x Hlo Hn) as Hx.
  apply elem_of_cons in Hr as [->|Hr]; [lia|].
  eapply (IH (r_max x)); eauto; lia.
Qed.

(** The name of a compacted table is not the name of a table of the
    stack it was compacted from. *)
Lemma chain_compact_fresh lo P x M y Q :
  0 <= lo -> chain lo (P ++ x :: M ++ y :: Q) ->
  formatName (r_min x) (r_max y) +:+ ".ref" ∉ map r_name (P ++ x :: M ++ y :: Q).
Proof.
  intros Hlo Hchain Hin.
  apply chain_app in Hchain as [HP [Hx Hrest]].
  pose proof (chain_top lo P Hlo HP) as HtopP.
  pose proof (named_indices (top lo P) x ltac:(lia) Hx) as Hix.
  assert (0 <= r_max x) as Hmx by lia.
  assert (y ∈ M ++ y :: Q) as Hy by (apply elem_of_app; right; left).
  pose proof (chain_elem _ _ y Hmx Hrest Hy) as (Hy1 & Hy2 & _).
  apply list_elem_of_fmap in Hin as (r & Hname & Hr).
  assert (first_index r = r_min x) as Hfirst.
  { unfold first_index. rewrite <- Hname. apply hex_value_formatName. lia. }
  assert (second_index r = r_max y) as Hsecond.
  { unfold second_index. rewrite <- Hname. apply hex_value_after_dash. lia. }
  apply elem_of_app in Hr as [Hr|Hr].
  - pose proof (chain_elem _ _ r Hlo HP Hr) as (_ & H1 & H2 & _). lia.
  - apply elem_of_cons in Hr as [->|Hr]; [lia|].
    pose proof (chain_elem _ _ r Hmx Hrest Hr) as (H1 & _). lia.
Qed.


Lemma chain_suffix lo rs r :
  chain lo rs -> r ∈ rs -> has_suffix ".ref" (r_name r) = true.
Proof.
  revert lo. induction rs as [|x rs IH]; intros lo Hchain Hr; [inversion Hr|].
  destruct Hchain as [(a & b & Hname & _) Hc].
  apply elem_of_cons in Hr as [->|Hr]; [|eapply IH; eauto].
  rewrite Hname. apply has_suffix_append.
Qed.
End Chains.

(** ** Transactional add, step by step *)

Section Transitions.
Context `{Collaborators}.

Lemma stackNames_readers s : stackNames s = map r_name (stackReaders s).
Proof. unfold stackNames, stackReaders. rewrite map_map. reflexivity. Qed.

Lemma bind_get {A} (k : State -> M A) s : bind get k s = k s s.
Proof. reflexivity. Qed.

(** The successful path of [add] from line 252 on: the table and the new
    manifest are in place when [reload] is called. *)
Lemma add_table_inv write lock tab names next fn s lk s' :
  add_table write (Some lock) tab names next fn s = ((None, lk), s') ->
  lock = listFile (st s) +:+ ".lock" ->
  files s !! lock = Some (Text EmptyString) ->
  is_Some (files s !! tab) -> tab <> lock ->
  has_suffix ".ref" (listFile (st s)) = false ->
  exists wr0 wr sr,
    write wr0 = (wr, None) /\ next <= minUpdateIndex wr
    /\ same_memory s sr
    /\ files sr !! listFile (st s)
       = Some (Text (strings_Join (names ++ [fn +:+ ".ref"])))
    /\ files sr !! filepath_Join (reftableDir (st s)) (fn +:+ ".ref")
       = Some (TableData (table_of_writer wr))
    /\ reload sr = (None, s').
Proof.
  intros Hrun Hlock Hlockfile [c0 Htab] Hne Hsuffix.
  unfold add_table in Hrun. rewrite bind_get in Hrun.
  destruct (NewWriter tab (cfg (st s))) as [wr0|e]; [|discriminate].
  destruct (write wr0) as [wr err] eqn:Hwrite.
  destruct err as [e|]; [discriminate|].
  rewrite bind_eq in Hrun.
  destruct (Writer_Close tab wr s) as [e1 s1] eqn:E1.
  apply Writer_Close_inv in E1 as (M1 & [[-> F1]|[N1 _]]);
    [|destruct e1; [discriminate|congruence]].
  rewrite Htab in F1.
  rewrite bind_eq in Hrun.
  destruct (file_Close (Some tab) s1) as [e2 s2] eqn:E2.
  apply file_Close_inv in E2 as (F2 & M2).
  destruct e2 as [e|]; [discriminate|].
  destruct (minUpdateIndex wr <? next) eqn:Hnext; [discriminate|].
  rewrite bind_eq in Hrun.
  set (dest := filepath_Join (reftableDir (st s)) (fn +:+ ".ref")) in *.
  destruct (os_Rename tab dest s2) as [e3 s3] eqn:E3.
  apply os_Rename_inv in E3 as (M3 & [(-> & c & Hc & F3)|[N3 _]]);
    [|destruct e3; [discriminate|congruence]].
  rewrite F2, F1, lookup_insert_eq in Hc. inversion Hc; subst c. clear Hc.
  assert (dest <> lock) as Hdl by (subst lock; apply table_path_not_lock).
  assert (dest <> listFile (st s)) as Hdm
    by (apply table_path_not_manifest, Hsuffix).
  assert (files s3 !! lock = Some (Text EmptyString)) as Hl3.
  { rewrite F3, F2, F1. rewrite lookup_insert_ne by congruence.
    rewrite lookup_delete_ne by congruence.
    rewrite lookup_insert_ne by congruence. exact Hlockfile. }
  rewrite bind_eq in Hrun.
  destruct (file_Write (Some lock) _ s3) as [e4 s4] eqn:E4.
  apply file_Write_inv in E4 as (M4 & [[-> F4]|[N4 _]]).
  2:{ destruct e4; [|congruence]. rewrite bind_eq in Hrun.
      destruct (os_Remove dest s4). discriminate. }
  rewrite Hl3 in F4. cbn [String.append] in F4.
  rewrite bind_eq in Hrun.
  destruct (file_Close (Some lock) s4) as [e5 s5] eqn:E5.
  apply file_Close_inv in E5 as (F5 & M5).
  destruct e5 as [e|].
  { rewrite bind_eq in Hrun. destruct (os_Remove dest s5). discriminate. }
  rewrite bind_eq in Hrun. subst lock.
  destruct (os_Rename _ (listFile (st s)) s5) as [e6 s6] eqn:E6.
  apply os_Rename_inv in E6 as (M6 & [(-> & c & Hc & F6)|[N6 _]]).
  2:{ destruct e6; [|congruence]. rewrite bind_eq in Hrun.
      destruct (os_Remove dest s6). discriminate. }
  rewrite F5, F4, lookup_insert_eq in Hc. inversion Hc; subst c. clear Hc.
  rewrite bind_eq in Hrun. destruct (reload s6) as [err s7] eqn:E7.
  inversion Hrun; subst err lk s7. clear Hrun.
  exists wr0, wr, s6. split; [exact Hwrite|]. split; [lia|].
  split.
  { repeat (eapply same_memory_trans; [eassumption|]). apply same_memory_refl. }
  split; [rewrite F6; apply lookup_insert_eq|].
  split; [|exact E7].
  rewrite F6, lookup_insert_ne by congruence.
  rewrite lookup_delete_ne by congruence.
  rewrite F5, F4, lookup_insert_ne by congruence.
  rewrite F3. apply lookup_insert_eq.
Qed.

Lemma stackNames_same s s' : same_memory s s' -> stackNames s' = stackNames s.
Proof. intros [Hh Hst]. unfold stackNames, reader. rewrite Hh, Hst. reflexivity. Qed.

Lemma stackReaders_same s s' : same_memory s s' -> stackReaders s' = stackReaders s.
Proof. intros [Hh Hst]. unfold stackReaders, reader. rewrite Hh, Hst. reflexivity. Qed.

Lemma NextUpdateIndex_same s s' :
  same_memory s s' -> NextUpdateIndex s' = NextUpdateIndex s.
Proof. intros [Hh Hst]. unfold NextUpdateIndex, reader. rewrite Hh, Hst. reflexivity. Qed.

Lemma stackAt_same s s' i : same_memory s s' -> stackAt s' i = stackAt s i.
Proof. intros [Hh Hst]. unfold stackAt, reader. rewrite Hh, Hst. reflexivity. Qed.

Lemma UpToDate_inv s ok err s' :
  UpToDate s = ((ok, err), s') ->
  files s' = files s /\ same_memory s s'
  /\ (ok = true -> manifest_names (files s) (listFile (st s)) = stackNames s).
Proof.
  unfold UpToDate. rewrite bind_eq.
  destruct (readNames s) as [names s0] eqn:Hnames.
  apply readNames_inv in Hnames as (Hf & Hm & Hn).
  destruct names as [names|e].
  - rewrite bind_get. specialize (Hn names eq_refl).
    destruct (negb _); intros Heq; inversion Heq; subst ok err s';
      (split; [exact Hf|]); (split; [exact Hm|]); [discriminate|].
    intros Heqb. apply list_eqb_eq in Heqb.
    rewrite <- Hn, <- Heqb. apply stackNames_same, Hm.
  - intros Heq; inversion Heq; subst. split; [exact Hf|]. split; [exact Hm|].
    discriminate.
Qed.

(** The successful path of [add]: what [reload] is called on, and that
    the memory is left as [reload] leaves it. *)
Lemma add_inv write s s' :
  add write s = (None, s') ->
  has_suffix ".ref" (listFile (st s)) = false ->
  let new := formatName (NextUpdateIndex s) (NextUpdateIndex s) +:+ ".ref" in
  exists wr0 wr sr se,
    write wr0 = (wr, None) /\ NextUpdateIndex s <= minUpdateIndex wr
    /\ same_memory s sr
    /\ files sr !! listFile (st s) = Some (Text (strings_Join (stackNames s ++ [new])))
    /\ files sr !! filepath_Join (reftableDir (st s)) new
       = Some (TableData (table_of_writer wr))
    /\ reload sr = (None, se)
    /\ same_memory se s'.
Proof.
  intros Hrun Hsuffix new. unfold add in Hrun. rewrite bind_get, bind_eq in Hrun.
  set (lock := listFile (st s) +:+ ".lock") in *.
  destruct (os_OpenFile_excl lock s) as [[f e] s1] eqn:E1.
  apply os_OpenFile_excl_inv in E1 as (M1 & [(-> & -> & Hfresh & F1)|(N1 & _)]).
  2:{ destruct e as [e|]; [|congruence].
      destruct (os_IsExist (Some e)); discriminate. }
  cbn [os_IsExist] in Hrun. rewrite bind_eq in Hrun.
  destruct (add_locked write (Some lock) s1) as [[res lk] s2] eqn:E2.
  rewrite bind_eq in Hrun.
  destruct ((if String.eqb lk EmptyString then ret None else os_Remove lk) s2) as [u3 s3] eqn:E3.
  rewrite bind_eq in Hrun.
  destruct (file_Close (Some lock) s3) as [u4 s4] eqn:E4.
  inversion Hrun; subst res s4. clear Hrun.
  assert (same_memory s2 s') as Mend.
  { apply file_Close_inv in E4 as (_ & M4).
    eapply same_memory_trans; [|exact M4].
    destruct (String.eqb lk EmptyString); [inversion E3; subst; apply same_memory_refl|].
    apply os_Remove_inv in E3. apply E3. }
  clear E3 E4.
  unfold add_locked in E2. rewrite bind_get, bind_eq in E2.
  destruct (UpToDate s1) as [[ok err] s5] eqn:E5.
  apply UpToDate_inv in E5 as (F5 & M5 & _).
  destruct err as [e|]; [discriminate|].
  destruct ok; [|discriminate]. cbn [negb] in E2.
  rewrite bind_get, bind_eq in E2.
  assert (same_memory s s5) as M05 by (eapply same_memory_trans; eauto).
  rewrite (stackNames_same _ _ M05), (NextUpdateIndex_same _ _ M05) in E2.
  destruct M05 as [Hh05 Hst05]. rewrite Hst05 in E2.
  destruct (ioutil_TempFile _ _ _ s5) as [tab s6] eqn:E6.
  apply ioutil_TempFile_inv in E6 as (M6 & Htab).
  destruct tab as [tab|e]; [|discriminate].
  destruct Htab as [Htabfresh F6].
  rewrite bind_eq in E2.
  destruct (add_table write (Some lock) tab _ _ _ s6) as [[res' lk'] s7] eqn:E7.
  rewrite bind_eq in E2.
  destruct (os_Remove (file_Name (Some lock)) s7) as [u8 s8] eqn:E8.
  inversion E2; subst res' lk' s8. clear E2.
  apply os_Remove_inv in E8 as (M8 & _).
  assert (st s6 = st s) as Hst6.
  { destruct M6 as [_ Hst6]. congruence. }
  assert (files s5 !! lock = Some (Text EmptyString)) as Hlock5.
  { rewrite F5, F1. apply lookup_insert_eq. }
  assert (tab <> lock) as Htl by congruence.
  apply add_table_inv in E7.
  - destruct E7 as (wr0 & wr & sr & Hw & Hnext & Msr & Hman & Htable & Hreload).
    rewrite Hst6 in Hman, Htable.
    exists wr0, wr, sr, s7. repeat split; try assumption.
    + destruct M1, M5, M6, Msr. congruence.
    + destruct M1, M5, M6, Msr. congruence.
    + destruct M8, Mend. congruence.
    + destruct M8, Mend. congruence.
  - rewrite Hst6. reflexivity.
  - rewrite F6, lookup_insert_ne by congruence. exact Hlock5.
  - rewrite F6, lookup_insert_eq. eauto.
  - exact Htl.
  - rewrite Hst6. exact Hsuffix.
Qed.

Lemma NextUpdateIndex_top s :
  chain 0 (stackReaders s) -> NextUpdateIndex s = top 0 (stackReaders s) + 1.
Proof.
  intros Hchain.
  pose proof (chain_top 0 _ (Z.le_refl 0) Hchain) as Hlo.
  assert (top 0 (stackReaders s) < two64 - 1) as Hhi
    by (apply chain_top_bound; [lia|unfold two64; lia|exact Hchain]).
  unfold NextUpdateIndex, top, stackReaders in *. rewrite fmap_last in *.
  destruct (last (stack (st s))) as [p|]; cbn in *; [|reflexivity].
  unfold wrap64. apply Z.mod_small. lia.
Qed.

(** The stack after a reload that spliced the new reader [rnew] between
    [pre] and [post]. *)
Lemma splice_inv s s' pre mid post rnew :
  stack (st s) = pre ++ mid ++ post ->
  Forall (fun p => (p < length (heap s))%nat) (stack (st s)) ->
  stack (st s') = pre ++ length (heap s) :: post ->
  readers_eq (heap s ++ [rnew]) (heap s') ->
  chain 0 (map (reader s) pre ++ rnew :: map (reader s) post) ->
  Forall (fun p => (p < length (heap s'))%nat) (stack (st s'))
  /\ chain 0 (stackReaders s').
Proof.
  intros Hstack Hvalid Hstack' Heq Hchain.
  pose proof (readers_eq_length _ _ Heq) as Hlen. rewrite length_app in Hlen.
  cbn in Hlen.
  rewrite Hstack in Hvalid. apply Forall_app in Hvalid as [Hpre Hvalid].
  apply Forall_app in Hvalid as [_ Hpost].
  assert (forall p, (p < length (heap s))%nat ->
            close_reader (reader s p) = close_reader (reader s' p)) as Hold.
  { intros p Hp. unfold reader.
    rewrite <- (readers_eq_lookup _ _ p Heq).
    rewrite lookup_total_app_l by exact Hp. reflexivity. }
  assert (close_reader rnew = close_reader (reader s' (length (heap s)))) as Hnew.
  { unfold reader. rewrite <- (readers_eq_lookup _ _ _ Heq).
    rewrite list_lookup_total_middle by reflexivity. reflexivity. }
  split.
  - rewrite Hstack'. apply Forall_app. split; [|apply Forall_cons; split].
    + eapply Forall_impl; [exact Hpre|]. cbn. intros. lia.
    + lia.
    + eapply Forall_impl; [exact Hpost|]. cbn. intros. lia.
  - eapply chain_close; [|exact Hchain].
    unfold stackReaders. rewrite Hstack', map_app. cbn [map].
    apply Forall2_app; [|apply Forall2_cons; split; [exact Hnew|]].
    + apply Forall2_fmap, Forall_Forall2_diag.
      eapply Forall_impl; [exact Hpre|]. cbn. intros p Hp. apply Hold, Hp.
    + apply Forall2_fmap, Forall_Forall2_diag.
      eapply Forall_impl; [exact Hpost|]. cbn. intros p Hp. apply Hold, Hp.
Qed.

Lemma reloadOnce_target s pre post new :
  map (fun p => r_name (reader s p)) pre ++ new :: map (fun p => r_name (reader s p)) post
  = map r_name (map (reader s) pre) ++ new :: map r_name (map (reader s) post).
Proof. rewrite !map_map. reflexivity. Qed.

(** [add] keeps the invariant. *)
Lemma add_preserves_inv dir lf write s s' :
  stack_inv dir lf s -> covers_well write ->
  add write s = (None, s') -> stack_inv dir lf s'.
Proof.
  intros (Hlf & Hdir & Hsuffix & Hvalid & Hchain) Hcovers Hrun.
  apply add_inv in Hrun; [|rewrite Hlf; exact Hsuffix].
  destruct Hrun as (wr0 & wr & sr & se & Hwrite & Hnext & Msr & Hman & Htable
                    & Hreload & Mend).
  set (next := NextUpdateIndex s) in *.
  set (new := formatName next next +:+ ".ref") in *.
  apply Hcovers in Hwrite as Hrange.
  apply reload_inv in Hreload
    as (s0 & s1 & F0 & M0 & Honce & F1 & Hh1 & Hs1 & Hl1 & Hd1).
  assert (same_memory s s0) as Ms0 by (eapply same_memory_trans; eauto).
  assert (listFile (st sr) = listFile (st s)) as Hlsr by (destruct Msr; congruence).
  pose proof (NextUpdateIndex_top s Hchain) as Htop. fold next in Htop.
  pose proof (chain_top 0 _ (Z.le_refl 0) Hchain) as Htop0.
  assert (manifest_names (files sr) (listFile (st sr)) = stackNames s0 ++ [new]) as Hnames.
  { unfold manifest_names. rewrite Hlsr, Hman. cbn [text_of].
    rewrite (stackNames_same _ _ Ms0).
    apply names_of_manifest_Join. apply Forall_app. split.
    - rewrite stackNames_readers. eapply chain_legal; [|exact Hchain]. lia.
    - repeat constructor. apply legal_formatName. }
  rewrite Hnames in Honce.
  pose proof (reloadOnce_inv _ _ _ _ Honce) as (_ & Hlo & Hdo).
  assert (stackReaders s0 = stackReaders s) as Hrs0 by (apply stackReaders_same, Ms0).
  eapply (reloadOnce_splice s0 (stack (st s0)) [] []) in Honce;
    [| rewrite !app_nil_r; reflexivity
     | rewrite stackNames_readers, Hrs0; eapply chain_NoDup; [|exact Hchain]; lia
     |
     | reflexivity ].
  2:{ rewrite stackNames_readers, Hrs0. intros Hin.
      apply list_elem_of_fmap in Hin as (r & Hname & Hr).
      destruct (chain_elem 0 _ r (Z.le_refl 0) Hchain Hr) as (_ & H1 & H2 & _).
      unfold first_index in H1. rewrite <- Hname in H1. unfold new in H1.
      rewrite hex_value_formatName in H1 by lia. lia. }
  destruct Honce as (t & Ht & Hstack1 & Hheap1).
  destruct Ms0 as [Hh0 Hst0]. destruct Mend as [Hhe Hste].
  rewrite F0, Hst0, Htable in Ht. inversion Ht; subst t. clear Ht.
  assert (listFile (st s') = lf /\ reftableDir (st s') = dir) as [Hlf' Hdir'].
  { rewrite Hste, Hl1, Hd1, Hlo, Hdo, Hst0. auto. }
  split; [exact Hlf'|]. split; [exact Hdir'|]. split; [exact Hsuffix|].
  apply (splice_inv s s' (stack (st s)) [] []
           (reader_of_table new (table_of_writer wr))).
  - rewrite !app_nil_r. reflexivity.
  - exact Hvalid.
  - rewrite Hste, Hs1, Hstack1, Hst0, Hh0. reflexivity.
  - rewrite Hhe, Hh1, <- Hh0. exact Hheap1.
  - cbn [map]. apply chain_app. split; [exact Hchain|]. split; [|exact I].
    exists next, next. cbn. unfold stackReaders in *.
    repeat split; try reflexivity; lia.
Qed.

(** ** Range compaction, step by step *)

Lemma same_memory_stack s s' : same_memory s s' -> same_stack s s'.
Proof. intros [Hh Hst]. unfold same_stack. rewrite Hh, Hst. auto. Qed.

Lemma same_stack_trans s1 s2 s3 :
  same_stack s1 s2 -> same_stack s2 s3 -> same_stack s1 s3.
Proof.
  intros (? & ? & ? & ? & ?) (? & ? & ? & ? & ?). unfold same_stack.
  repeat split; congruence.
Qed.

Lemma stack_inv_same dir lf s s' :
  same_stack s s' -> stack_inv dir lf s -> stack_inv dir lf s'.
Proof.
  intros (Hh & Hs & Hl & Hd & _) (Hlf & Hdir & Hsuffix & Hvalid & Hchain).
  unfold stack_inv, stackReaders, reader in *. rewrite Hh, Hs, Hl, Hd. auto.
Qed.

Lemma removeAll_inv paths : forall s u s',
  removeAll paths s = (u, s') ->
  same_memory s s'
  /\ (forall q, q ∉ paths -> files s' !! q = files s !! q).
Proof.
  induction paths as [|p paths IH]; intros s u s'; cbn [removeAll].
  - intros Heq; inversion Heq; subst. split; [apply same_memory_refl|auto].
  - rewrite bind_eq. destruct (os_Remove p s) as [e s1] eqn:E1.
    apply os_Remove_inv in E1 as (M1 & F1). intros Hrun.
    apply IH in Hrun as (M2 & F2).
    split; [eapply same_memory_trans; eauto|].
    intros q Hq. apply not_elem_of_cons in Hq as [Hne Hq].
    rewrite F2 by exact Hq.
    destruct F1 as [[_ ->]|[_ ->]]; [|reflexivity].
    apply lookup_delete_ne. congruence.
Qed.

Lemma stackAt_name s i r : stackAt s i = Some r -> r_name r ∈ stackNames s.
Proof.
  unfold stackAt, stackNames. destruct (i <? 0); [discriminate|].
  destruct (stack (st s) !! Z.to_nat i) as [p|] eqn:Hp; [|discriminate].
  cbn. intros Heq; inversion Heq; subst.
  apply list_elem_of_fmap. exists p. split; [reflexivity|].
  eapply list_elem_of_lookup_2, Hp.
Qed.

Lemma subtableLocks_loop_inv n : forall i sl ds s exit sl' ds' s',
  subtableLocks_loop i n sl ds s = ((exit, sl', ds'), s') ->
  stack_paths s ds ->
  same_memory s s' /\ stack_paths s ds'.
Proof.
  induction n as [|n IH]; intros i sl ds s exit sl' ds' s'; cbn [subtableLocks_loop].
  - intros Heq; inversion Heq; subst. split; [apply same_memory_refl|assumption].
  - rewrite bind_get. destruct (stackAt s i) as [r|] eqn:Hr.
    2:{ intros Heq; inversion Heq; subst. split; [apply same_memory_refl|assumption]. }
    rewrite bind_eq.
    destruct (os_OpenFile_excl _ s) as [[l e] s1] eqn:E1.
    apply os_OpenFile_excl_inv in E1 as (M1 & _).
    destruct (os_IsExist e).
    { intros Heq; inversion Heq; subst. split; assumption. }
    destruct e as [e|].
    { intros Heq; inversion Heq; subst. split; assumption. }
    rewrite bind_eq. destruct (file_Close l s1) as [e2 s2] eqn:E2.
    apply file_Close_inv in E2 as (_ & M2).
    intros Hrun Hds.
    assert (same_memory s s2) as M02 by (eapply same_memory_trans; eauto).
    assert (forall paths, stack_paths s paths <-> stack_paths s2 paths) as Hsp.
    { intros paths. unfold stack_paths.
      rewrite (stackNames_same _ _ M02). destruct M02 as [_ ->]. reflexivity. }
    apply IH in Hrun.
    + destruct Hrun as [M3 Hds']. split; [eapply same_memory_trans; eauto|].
      apply Hsp, Hds'.
    + apply Hsp. apply Forall_app. split; [exact Hds|].
      repeat constructor. exists (r_name r). split; [|reflexivity].
      eapply stackAt_name, Hr.
Qed.

Lemma writeCompact_limits s wr first last wr' :
  writeCompact s wr first last = Returns (wr', None) ->
  exists rf rl,
    stackAt s first = Some rf /\ stackAt s last = Some rl
    /\ minUpdateIndex wr' = r_min rf /\ maxUpdateIndex wr' = r_max rl.
Proof.
  unfold writeCompact. intros Hrun.
  destruct (stackAt s first) as [rf|]; [|discriminate].
  destruct (stackAt s last) as [rl|]; [|discriminate].
  destruct (subtabs_loop _ _ _ _) as [subtabs|]; [|discriminate].
  destruct (newMergedErr _); [discriminate|].
  destruct (seekRef _) as [refs|]; [|discriminate].
  destruct (writeRefs_loop first refs _) as [wr1 [e|]] eqn:Hrefs; [discriminate|].
  destruct (seekLog _) as [logs|]; [|discriminate].
  inversion Hrun as [Hlogs]. clear Hrun.
  apply writeRefs_loop_ok in Hrefs as (_ & _ & Hmin1 & Hmax1 & _).
  apply writeLogs_loop_ok in Hlogs as (_ & _ & Hmin2 & Hmax2 & _).
  cbn in Hmin1, Hmax1. exists rf, rl. repeat split; congruence.
Qed.

Lemma subtabs_loop_same s s' n : forall i acc,
  same_memory s s' -> subtabs_loop s' i n acc = subtabs_loop s i n acc.
Proof.
  induction n as [|n IH]; intros i acc [Hh Hst]; cbn; [reflexivity|].
  unfold stackPtrAt. rewrite Hst. destruct (i <? 0); [reflexivity|].
  destruct (stack (st s) !! Z.to_nat i); [apply IH; split; assumption|reflexivity].
Qed.

Lemma writeCompact_same s s' wr first last :
  same_memory s s' -> writeCompact s' wr first last = writeCompact s wr first last.
Proof.
  intros Hm. unfold writeCompact. rewrite (subtabs_loop_same _ _ _ _ _ Hm).
  destruct Hm as [Hh Hst]. unfold stackAt, reader. rewrite Hh, Hst. reflexivity.
Qed.


Lemma split_range {A} (l : list A) (f k : nat) (x y : A) :
  l !! f = Some x -> l !! k = Some y -> (f < k)%nat ->
  exists M, l = take f l ++ x :: M ++ y :: drop (S k) l.
Proof.
  intros Hx Hy Hlt.
  exists (take (k - S f) (drop (S f) l)).
  assert (drop (S f) l !! (k - S f)%nat = Some y) as Hy'.
  { rewrite lookup_drop. replace (S f + (k - S f))%nat with k by lia. exact Hy. }
  apply take_drop_middle in Hy'. rewrite drop_drop in Hy'.
  replace (S f + S (k - S f))%nat with (S k) in Hy' by lia.
  rewrite Hy'. symmetry. apply take_drop_middle, Hx.
Qed.

(** The successful path of [compactRange] from line 481 on: the new
    manifest is in place when [reload] is called, and the compacted
    table is at its final name unless it has been removed again. *)
Lemma compactRange_install_inv first last tmp lock ds s ok lk s' t rf rl :
  compactRange_install first last tmp (Some lock) ds s = ((Returns (ok, None), lk), s') ->
  stackAt s first = Some rf -> stackAt s last = Some rl ->
  lock = listFile (st s) +:+ ".lock" ->
  files s !! lock = Some (Text EmptyString) ->
  files s !! tmp = Some (TableData t) ->
  has_suffix ".ref" (listFile (st s)) = false ->
  let fn := formatName (r_min rf) (r_max rl) +:+ ".ref" in
  let dest := filepath_Join (reftableDir (st s)) fn in
  dest ∉ ds -> listFile (st s) ∉ ds ->
  exists sr,
    same_memory s sr
    /\ files sr !! listFile (st s)
       = Some (Text (strings_Join
                       (take (Z.to_nat first) (stackNames s) ++ [fn]
                        ++ drop (Z.to_nat (last + 1)) (stackNames s))))
    /\ (files sr !! dest = Some (TableData t) \/ files sr !! dest = None)
    /\ reload sr = (None, s').
Proof.
  intros Hrun Hrf Hrl Hlock Hlockfile Htmp Hsuffix fn dest Hdest Hman.
  unfold compactRange_install in Hrun. rewrite bind_get, Hrf, Hrl in Hrun.
  fold fn in Hrun. fold dest in Hrun. rewrite bind_eq in Hrun.
  assert (tmp <> lock) as Htl by congruence.
  assert (dest <> lock) as Hdl by (subst lock; apply table_path_not_lock).
  assert (dest <> listFile (st s)) as Hdm by (apply table_path_not_manifest, Hsuffix).
  destruct (os_Rename tmp dest s) as [e1 s1] eqn:E1.
  apply os_Rename_inv in E1 as (M1 & [(-> & c & Hc & F1)|[N1 _]]);
    [|destruct e1; [discriminate|congruence]].
  rewrite Htmp in Hc. inversion Hc; subst c. clear Hc.
  rewrite bind_eq in Hrun.
  destruct (file_Write (Some lock) _ s1) as [e2 s2] eqn:E2.
  apply file_Write_inv in E2 as (M2 & [[-> F2]|[N2 _]]).
  2:{ destruct e2; [|congruence]. rewrite bind_eq in Hrun.
      destruct (os_Remove dest s2). discriminate. }
  assert (files s1 !! lock = Some (Text EmptyString)) as Hl1.
  { rewrite F1, lookup_insert_ne by congruence.
    rewrite lookup_delete_ne by congruence. exact Hlockfile. }
  rewrite Hl1 in F2. cbn [String.append] in F2.
  rewrite bind_eq in Hrun.
  destruct (file_Close (Some lock) s2) as [e3 s3] eqn:E3.
  apply file_Close_inv in E3 as (F3 & M3).
  rewrite bind_eq in Hrun.
  destruct ((match e3 with Some _ => os_Remove dest | None => ret None end) s3)
    as [u4 s4] eqn:E4.
  assert (same_memory s3 s4
          /\ (files s4 = files s3 \/ files s4 = delete dest (files s3))) as [M4 F4].
  { destruct e3.
    - apply os_Remove_inv in E4 as (M4 & [[_ F4]|[_ F4]]); auto.
    - inversion E4; subst. split; [apply same_memory_refl|auto]. }
  clear E4. rewrite bind_eq in Hrun. subst lock.
  destruct (os_Rename _ (listFile (st s)) s4) as [e5 s5] eqn:E5.
  apply os_Rename_inv in E5 as (M5 & [(-> & c & Hc & F5)|[N5 _]]).
  2:{ destruct e5; [|congruence]. rewrite bind_eq in Hrun.
      destruct (os_Remove dest s5). discriminate. }
  assert (files s4 !! (listFile (st s) +:+ ".lock")
          = Some (Text (strings_Join
                          (take (Z.to_nat first) (stackNames s) ++ [fn]
                           ++ drop (Z.to_nat (last + 1)) (stackNames s))))) as Hl4.
  { destruct F4 as [->| ->]; [|rewrite lookup_delete_ne by congruence];
      rewrite F3, F2; apply lookup_insert_eq. }
  rewrite Hl4 in Hc. inversion Hc; subst c. clear Hc.
  rewrite bind_eq in Hrun.
  destruct (removeAll ds s5) as [u6 s6] eqn:E6.
  apply removeAll_inv in E6 as (M6 & F6).
  rewrite bind_eq in Hrun.
  destruct (reload s6) as [err s7] eqn:E7.
  inversion Hrun; subst ok err lk s7. clear Hrun.
  exists s6. split.
  { repeat (eapply same_memory_trans; [eassumption|]). apply same_memory_refl. }
  split; [rewrite F6, F5 by exact Hman; apply lookup_insert_eq|].
  split; [|exact E7].
  rewrite F6, F5 by exact Hdest.
  rewrite lookup_insert_ne by congruence.
  rewrite lookup_delete_ne by congruence.
  destruct F4 as [->| ->]; [left|right; apply lookup_delete_eq].
  rewrite F3, F2, lookup_insert_ne by congruence.
  rewrite F1. apply lookup_insert_eq.
Qed.

Lemma stackAt_lookup s i r :
  stackAt s i = Some r ->
  0 <= i /\ exists p, stack (st s) !! Z.to_nat i = Some p /\ r = reader s p.
Proof.
  unfold stackAt. destruct (i <? 0) eqn:Hneg; [discriminate|].
  destruct (stack (st s) !! Z.to_nat i) as [p|]; [|discriminate].
  cbn. intros Heq; inversion Heq; subst. split; [lia|eauto].
Qed.


Lemma compact_name_fresh dir lf s first last rf rl :
  stack_inv dir lf s -> first < last ->
  stackAt s first = Some rf -> stackAt s last = Some rl ->
  formatName (r_min rf) (r_max rl) +:+ ".ref" ∉ stackNames s.
Proof.
  intros (_ & _ & _ & _ & Hchain) Hlt Hrf Hrl.
  apply stackAt_lookup in Hrf as (Hf0 & pf & Hpf & ->).
  apply stackAt_lookup in Hrl as (Hl0 & pl & Hpl & ->).
  destruct (split_range (stack (st s)) (Z.to_nat first) (Z.to_nat last) pf pl)
    as [M Hsplit]; [assumption|assumption|lia|].
  assert (stackReaders s
          = map (reader s) (take (Z.to_nat first) (stack (st s)))
            ++ reader s pf :: map (reader s) M
            ++ reader s pl :: map (reader s) (drop (S (Z.to_nat last)) (stack (st s))))
    as Hreaders.
  { unfold stackReaders. rewrite Hsplit at 1. rewrite map_app. cbn [map].
    rewrite map_app. reflexivity. }
  rewrite stackNames_readers. rewrite Hreaders in Hchain |- *.
  apply (chain_compact_fresh 0); [lia|exact Hchain].
Qed.

Lemma stack_paths_same s s' paths :
  same_memory s s' -> stack_paths s paths -> stack_paths s' paths.
Proof.
  intros Hm. unfold stack_paths. rewrite (stackNames_same _ _ Hm).
  destruct Hm as [_ ->]. auto.
Qed.







Lemma NewStack_inv dir lf c w s :
  has_suffix ".ref" lf = false -> files w !! lf = None ->
  NewStack dir lf c w = (None, s) -> stack_inv dir lf s.
Proof.
  intros Hsuffix Hfile Hrun. unfold NewStack in Hrun.
  rewrite bind_eq in Hrun. unfold modify at 1 in Hrun.
  apply reload_inv in Hrun
    as (s0 & s1 & F0 & [Hh0 Hst0] & Honce & F1 & Hh1 & Hs1 & Hl1 & Hd1).
  cbn in F0, Hh0, Hst0.
  match type of Honce with
  | reloadOnce ?n _ = _ =>
      assert (n = []) as Hn
        by (unfold manifest_names; cbn; rewrite Hfile; reflexivity);
      rewrite Hn in Honce
  end.
  unfold reloadOnce in Honce. rewrite bind_get in Honce.
  unfold curReaders in Honce. rewrite Hst0 in Honce.
  cbn [stack foldl reloadOnce_loop] in Honce.
  rewrite bind_eq in Honce. unfold ret at 1 in Honce.
  rewrite bind_eq in Honce. unfold modify at 1 in Honce.
  rewrite map_to_list_empty in Honce. cbn [map closeAll] in Honce.
  rewrite bind_eq in Honce. unfold ret in Honce.
  inversion Honce; subst s1. clear Honce.
  unfold stack_inv, stackReaders.
  rewrite Hl1, Hd1, Hs1. cbn. rewrite Hst0. cbn. auto.
Qed.


End Transitions.

(** ** Segment selection in general *)

Lemma tiles_snoc lo segs mid c :
  tiles lo segs mid -> seg_start c = mid -> mid < seg_end c ->
  tiles lo (segs ++ [c]) (seg_end c).
Proof.
  revert lo. induction segs as [|sg segs IH]; intros lo Ht Hs Hlt; cbn in *.
  - subst. auto.
  - destruct Ht as (H1 & H2 & H3). auto.
Qed.

Lemma tiles_le lo segs hi : tiles lo segs hi -> lo <= hi.
Proof.
  revert lo. induction segs as [|sg segs IH]; intros lo Ht; cbn in *; [lia|].
  destruct Ht as (H1 & H2 & H3). apply IH in H3. lia.
Qed.

Lemma tiles_elem lo segs hi sg :
  tiles lo segs hi -> sg ∈ segs -> lo <= seg_start sg /\ seg_start sg < seg_end sg <= hi.
Proof.
  revert lo. induction segs as [|x segs IH]; intros lo Ht Hin; [inversion Hin|].
  cbn in Ht. destruct Ht as (H1 & H2 & H3).
  pose proof (tiles_le _ _ _ H3).
  apply elem_of_cons in Hin as [->|Hin]; [lia|].
  destruct (IH _ H3 Hin). lia.
Qed.

Lemma sum_sizes_app a b : sum_sizes (a ++ b) = sum_sizes a + sum_sizes b.
Proof. unfold sum_sizes. induction a as [|x a IH]; cbn; [reflexivity|]. rewrite IH. lia. Qed.

Lemma sizes_between_empty sizes i : sizes_between sizes i i = 0.
Proof. unfold sizes_between. rewrite Z.sub_diag. reflexivity. Qed.

Lemma sizes_between_snoc sizes lo i sz :
  0 <= lo <= Z.of_nat i -> sizes !! i = Some sz ->
  sizes_between sizes lo (Z.of_nat i + 1) = sizes_between sizes lo (Z.of_nat i) + sz.
Proof.
  intros Hlo Hsz. unfold sizes_between.
  replace (Z.to_nat (Z.of_nat i + 1 - lo)) with (S (Z.to_nat (Z.of_nat i - lo))) by lia.
  assert (drop (Z.to_nat lo) sizes !! Z.to_nat (Z.of_nat i - lo) = Some sz) as Hd.
  { rewrite lookup_drop. rewrite <- Hsz. f_equal. lia. }
  rewrite (take_S_r _ _ _ Hd), sum_sizes_app. cbn. lia.
Qed.

Lemma sizes_between_cons sizes lo hi sz :
  0 <= lo < hi -> sizes !! Z.to_nat lo = Some sz ->
  sizes_between sizes lo hi = sz + sizes_between sizes (lo + 1) hi.
Proof.
  intros Hlo Hsz. unfold sizes_between.
  replace (Z.to_nat (hi - lo)) with (S (Z.to_nat (hi - (lo + 1)))) by lia.
  rewrite (drop_S _ _ _ Hsz). cbn.
  replace (Z.to_nat (lo + 1)) with (S (Z.to_nat lo)) by lia. reflexivity.
Qed.

Lemma wrap64_add_l a b : wrap64 (wrap64 a + b) = wrap64 (a + b).
Proof. unfold wrap64. apply Zplus_mod_idemp_l. Qed.

Lemma sizesToSegments_loop_tiles all rest : forall done i cur res,
  all = done ++ rest -> i = Z.of_nat (length done) ->
  Forall (fun sz => sz <> 0) rest ->
  segments_upto all i cur res ->
  exists cur' res',
    sizesToSegments_loop rest i cur res = Returns (cur', res')
    /\ segments_upto all (Z.of_nat (length all)) cur' res'.
Proof.
  induction rest as [|sz rest IH]; intros done i cur res Hall Hi Hnz Hinv.
  - cbn. exists cur, res. split; [reflexivity|]. subst all. rewrite app_nil_r in *. rewrite <- Hi. exact Hinv.
  - apply Forall_cons in Hnz as [Hsz Hrest].
    cbn [sizesToSegments_loop].
    destruct (log2_nonzero sz Hsz) as [l ->].
    assert (all !! length done = Some sz) as Hlook.
    { rewrite Hall. apply list_lookup_middle. reflexivity. }
    destruct Hinv as (Ht & He & Hs & Hb).
    apply Forall_app in Hb as [Hbres Hbcur].
    apply Forall_cons in Hbcur as [Hbcur _].
    pose proof (tiles_le _ _ _ Ht) as Hstart.
    destruct (negb (seg_log cur =? l) && (0 <? seg_bytes cur)) eqn:Hcond.
    + apply andb_true_iff in Hcond as [_ Hpos]. apply Z.ltb_lt in Hpos.
      destruct Hs as [Hs|(_ & -> & _)]; [|cbn in Hpos; lia].
      apply (IH (done ++ [sz])).
      * rewrite <- app_assoc. exact Hall.
      * rewrite length_app. cbn. lia.
      * exact Hrest.
      * unfold segments_upto. cbn [seg_start seg_end seg_bytes]. split; [|split; [reflexivity|split; [left; lia|]]].
        { rewrite <- He. apply (tiles_snoc _ _ (seg_start cur)); [exact Ht|reflexivity|lia]. }
        apply Forall_app. split; [apply Forall_app; split; [exact Hbres|]|].
        { apply Forall_cons. split; [exact Hbcur|constructor]. }
        apply Forall_cons. split; [|constructor]. cbn [seg_start seg_end seg_bytes].
        rewrite Hi, (sizes_between_snoc _ _ _ sz) by (try lia; exact Hlook).
        rewrite sizes_between_empty. reflexivity.
    + apply (IH (done ++ [sz])).
      * rewrite <- app_assoc. exact Hall.
      * rewrite length_app. cbn. lia.
      * exact Hrest.
      * unfold segments_upto. cbn [seg_start seg_end seg_bytes]. split; [exact Ht|].
        split; [reflexivity|]. split; [left; destruct Hs as [?|(? & -> & ?)]; cbn; lia|].
        apply Forall_app. split; [exact Hbres|].
        apply Forall_cons. split; [|constructor]. cbn [seg_start seg_end seg_bytes].
        rewrite Hbcur, wrap64_add_l, He, Hi.
        rewrite (sizes_between_snoc _ _ _ sz); [reflexivity| |exact Hlook].
        destruct Hs as [?|(? & -> & ?)]; cbn; lia.
Qed.

Lemma sizesToSegments_cover (sizes : list Z) :
  Forall (fun sz => sz <> 0) sizes ->
  exists segs,
    sizesToSegments sizes = Returns segs
    /\ (sizes = [] -> segs = [mkSegment 0 0 0 0])
    /\ (sizes <> [] -> tiles 0 segs (Z.of_nat (length sizes)))
    /\ Forall (fun sg => seg_bytes sg
                         = wrap64 (sizes_between sizes (seg_start sg) (seg_end sg))) segs.
Proof.
  intros Hnz. unfold sizesToSegments.
  destruct (sizesToSegments_loop_tiles sizes sizes [] 0 (mkSegment 0 0 0 0) [])
    as (cur & res & -> & Ht & He & Hs & Hb); try reflexivity; try exact Hnz.
  { split; [reflexivity|]. split; [reflexivity|]. split; [right; auto|].
    repeat constructor. }
  exists (res ++ [cur]). split; [reflexivity|].
  split; [|split; [|exact Hb]].
  - intros ->. cbn in He, Hs. destruct Hs as [Hs|(_ & -> & ->)]; [|reflexivity].
    pose proof (tiles_le _ _ _ Ht). lia.
  - intros Hne. rewrite <- He. apply (tiles_snoc _ _ (seg_start cur)); [exact Ht|reflexivity|].
    destruct Hs as [Hs|(Hz & _)]; [lia|]. destruct sizes; [congruence|cbn in Hz; lia].
Qed.


Lemma logs_alternate_snoc segs cur c :
  logs_alternate (segs ++ [cur]) -> seg_log cur <> seg_log c ->
  logs_alternate ((segs ++ [cur]) ++ [c]).
Proof.
  induction segs as [|a segs IH]; intros Halt Hne; [cbn; auto|].
  destruct segs as [|b segs]; cbn in *; [tauto|].
  destruct Halt as [H1 H2]. split; [exact H1|]. apply IH; assumption.
Qed.

Lemma logs_alternate_last segs cur cur' :
  logs_alternate (segs ++ [cur]) -> seg_log cur' = seg_log cur ->
  logs_alternate (segs ++ [cur']).
Proof.
  induction segs as [|a segs IH]; intros Halt Heq; [cbn; auto|].
  destruct segs as [|b segs]; cbn in *; [rewrite Heq; tauto|].
  destruct Halt as [H1 H2]. split; [exact H1|]. apply IH; assumption.
Qed.

Lemma logs_alternate_lookup segs : forall j a b,
  logs_alternate segs -> segs !! j = Some a -> segs !! S j = Some b ->
  seg_log a <> seg_log b.
Proof.
  induction segs as [|x segs IH]; intros j a b Halt Ha Hb; [discriminate|].
  destruct segs as [|y segs]; [discriminate|].
  destruct Halt as [H1 H2]. destruct j as [|j].
  - cbn in Ha, Hb. congruence.
  - apply (IH j a b H2); assumption.
Qed.

Lemma sum_sizes_nonneg l : Forall (fun sz => 0 < sz) l -> 0 <= sum_sizes l.
Proof. unfold sum_sizes. induction 1 as [|x l Hx _ IH]; cbn; lia. Qed.

Lemma sum_sizes_take_drop l n :
  sum_sizes l = sum_sizes (take n l) + sum_sizes (drop n l).
Proof. rewrite <- sum_sizes_app, take_drop. reflexivity. Qed.

Lemma sizes_between_bounds sizes lo hi :
  Forall (fun sz => 0 < sz) sizes ->
  0 <= lo < hi -> hi <= Z.of_nat (length sizes) ->
  0 < sizes_between sizes lo hi <= sum_sizes sizes.
Proof.
  intros Hpos Hlo Hhi. unfold sizes_between.
  rewrite (sum_sizes_take_drop sizes (Z.to_nat lo)).
  rewrite (sum_sizes_take_drop (drop (Z.to_nat lo) sizes) (Z.to_nat (hi - lo))).
  pose proof (sum_sizes_nonneg (take (Z.to_nat lo) sizes)
                ltac:(apply Forall_take, Hpos)).
  pose proof (sum_sizes_nonneg (drop (Z.to_nat (hi - lo)) (drop (Z.to_nat lo) sizes))
                ltac:(do 2 apply Forall_drop; exact Hpos)).
  split; [|lia].
  destruct (drop (Z.to_nat lo) sizes) as [|x l] eqn:Hd.
  - apply (f_equal length) in Hd. rewrite length_drop in Hd. cbn in Hd. lia.
  - assert (Forall (fun sz => 0 < sz) (x :: l)) as Hxl
      by (rewrite <- Hd; apply Forall_drop, Hpos).
    apply Forall_cons in Hxl as [Hx Hl].
    replace (Z.to_nat (hi - lo)) with (S (Z.to_nat (hi - lo - 1))) by lia.
    cbn. pose proof (sum_sizes_nonneg (take (Z.to_nat (hi - lo - 1)) l)
                       ltac:(apply Forall_take, Hl)).
    unfold sum_sizes in *. lia.
Qed.

Lemma wrap64_small z : 0 <= z < two64 -> wrap64 z = z.
Proof. intros Hz. apply Z.mod_small. exact Hz. Qed.

Lemma sizesToSegments_loop_runs all rest : forall done i cur res cur' res',
  all = done ++ rest -> i = Z.of_nat (length done) ->
  Forall (fun sz => 0 < sz) all -> sum_sizes all < two64 ->
  segments_upto all i cur res -> runs_upto all cur res ->
  sizesToSegments_loop rest i cur res = Returns (cur', res') ->
  runs_upto all cur' res'.
Proof.
  induction rest as [|sz rest IH]; intros done i cur res cur' res' Hall Hi Hpos Hsum Hinv Hruns Hrun.
  - cbn in Hrun. inversion Hrun; subst. exact Hruns.
  - assert (all !! length done = Some sz) as Hlook.
    { rewrite Hall. apply list_lookup_middle. reflexivity. }
    assert (0 < sz) as Hsz.
    { eapply Forall_lookup_1 in Hpos; [|exact Hlook]. exact Hpos. }
    assert (sz < two64) as Hsz2.
    { pose proof (sizes_between_bounds all i (i + 1) Hpos) as Hb.
      rewrite Hi, (sizes_between_snoc _ _ _ sz), sizes_between_empty in Hb by (try lia; exact Hlook).
      assert (Z.of_nat (length done) + 1 <= Z.of_nat (length all)).
      { rewrite Hall, length_app. cbn. lia. }
      lia. }
    cbn [sizesToSegments_loop] in Hrun. rewrite (log2_pos sz) in Hrun by lia.
    destruct Hinv as (Ht & He & Hs & Hb).
    apply Forall_app in Hb as [Hbres Hbcur].
    apply Forall_cons in Hbcur as [Hbcur _].
    pose proof (tiles_le _ _ _ Ht) as Hstart.
    destruct Hruns as [Hlogs Halt].
    assert (i + 1 <= Z.of_nat (length all)) as Hlen.
    { rewrite Hall, length_app. cbn. lia. }
    destruct (negb (seg_log cur =? Z.log2 sz) && (0 <? seg_bytes cur)) eqn:Hcond.
    + apply andb_true_iff in Hcond as [Hne Hposb].
      apply negb_true_iff, Z.eqb_neq in Hne. apply Z.ltb_lt in Hposb.
      destruct Hs as [Hs|(_ & -> & _)]; [|cbn in Hposb; lia].
      apply (IH (done ++ [sz])) in Hrun; try assumption.
      * rewrite <- app_assoc. exact Hall.
      * rewrite length_app. cbn. lia.
      * unfold segments_upto. cbn [seg_start seg_end seg_bytes].
        split; [|split; [reflexivity|split; [left; lia|]]].
        { rewrite <- He. apply (tiles_snoc _ _ (seg_start cur)); [exact Ht|reflexivity|lia]. }
        apply Forall_app. split; [apply Forall_app; split; [exact Hbres|]|].
        { apply Forall_cons. split; [exact Hbcur|constructor]. }
        apply Forall_cons. split; [|constructor]. cbn [seg_start seg_end seg_bytes].
        rewrite Hi, (sizes_between_snoc _ _ _ sz) by (try lia; exact Hlook).
        rewrite sizes_between_empty. reflexivity.
      * split.
        { apply Forall_app. split; [exact Hlogs|]. apply Forall_cons. split; [|constructor].
          cbn [seg_start seg_end seg_log]. intros k sz' Hk Hsz'.
          assert (k = length done) as -> by lia. congruence. }
        apply logs_alternate_snoc; [exact Halt|]. cbn. exact Hne.
    + assert (seg_start cur < i -> seg_log cur = Z.log2 sz) as Hsame.
      { intros Hlt. apply andb_false_iff in Hcond as [Hc|Hc].
        - apply negb_false_iff, Z.eqb_eq in Hc. exact Hc.
        - apply Z.ltb_ge in Hc.
          pose proof (sizes_between_bounds all (seg_start cur) (seg_end cur) Hpos) as Hbb.
          rewrite Hbcur, wrap64_small in Hc by lia. lia. }
      apply (IH (done ++ [sz])) in Hrun; try assumption.
      * rewrite <- app_assoc. exact Hall.
      * rewrite length_app. cbn. lia.
      * unfold segments_upto. cbn [seg_start seg_end seg_bytes]. split; [exact Ht|].
        split; [reflexivity|]. split; [left; destruct Hs as [?|(? & -> & ?)]; cbn; lia|].
        apply Forall_app. split; [exact Hbres|].
        apply Forall_cons. split; [|constructor]. cbn [seg_start seg_end seg_bytes].
        rewrite Hbcur, wrap64_add_l, He, Hi.
        rewrite (sizes_between_snoc _ _ _ sz); [reflexivity| |exact Hlook].
        destruct Hs as [?|(? & -> & ?)]; cbn; lia.
      * apply Forall_app in Hlogs as [Hlres Hlcur].
        apply Forall_cons in Hlcur as [Hlcur _].
        split.
        { apply Forall_app. split; [exact Hlres|]. apply Forall_cons. split; [|constructor].
          cbn [seg_start seg_end seg_log]. intros k sz' Hk Hsz'.
          destruct (decide (k = length done)) as [->|Hnk]; [congruence|].
          rewrite <- Hsame by lia. apply (Hlcur k sz'); [lia|exact Hsz']. }
        destruct Hs as [Hs|(_ & -> & ->)]; [|exact I].
        eapply logs_alternate_last; [exact Halt|]. cbn. symmetry. apply Hsame, Hs.
Qed.

Lemma sizesToSegments_runs_of (sizes : list Z) (segs : list segment) :
  Forall (fun sz => 0 < sz) sizes -> sum_sizes sizes < two64 ->
  sizesToSegments sizes = Returns segs ->
  (forall sg k sz, sg ∈ segs -> seg_start sg <= Z.of_nat k < seg_end sg ->
     sizes !! k = Some sz -> Z.log2 sz = seg_log sg)
  /\ (forall j a b, segs !! j = Some a -> segs !! S j = Some b ->
        seg_log a <> seg_log b)
  /\ (forall sg, sg ∈ segs ->
        seg_bytes sg = sizes_between sizes (seg_start sg) (seg_end sg)).
Proof.
  intros Hpos Hsum Hrun.
  assert (Forall (fun sz => sz <> 0) sizes) as Hnz
    by (eapply Forall_impl; [exact Hpos|]; cbn; lia).
  destruct (sizesToSegments_cover sizes Hnz) as (segs' & Hrun' & Hempty & Htiles & Hbytes).
  rewrite Hrun in Hrun'. inversion Hrun'; subst segs'. clear Hrun'.
  unfold sizesToSegments in Hrun.
  destruct (sizesToSegments_loop sizes 0 (mkSegment 0 0 0 0) []) as [[cur res]|] eqn:Hloop;
    [|discriminate].
  inversion Hrun; subst segs. clear Hrun.
  apply (sizesToSegments_loop_runs sizes sizes []) in Hloop; try reflexivity; try assumption.
  2:{ split; [reflexivity|]. split; [reflexivity|]. split; [right; auto|]. repeat constructor. }
  2:{ split; [|exact I]. repeat constructor. cbn. intros. lia. }
  destruct Hloop as [Hlogs Halt].
  split; [|split].
  - intros sg k sz Hsg. rewrite Forall_forall in Hlogs. apply Hlogs, Hsg.
  - intros j a b. apply logs_alternate_lookup, Halt.
  - intros sg Hsg. rewrite Forall_forall in Hbytes. rewrite (Hbytes sg Hsg).
    destruct sizes as [|x sizes].
    + rewrite Hempty in Hsg by reflexivity. apply list_elem_of_singleton in Hsg. subst sg.
      reflexivity.
    + apply wrap64_small.
      pose proof (tiles_elem _ _ _ sg (Htiles ltac:(congruence)) Hsg) as Hb.
      pose proof (sizes_between_bounds (x :: sizes) (seg_start sg) (seg_end sg) Hpos) as Hbb.
      lia.
Qed.

Lemma minSegment_loop_spec segs : forall m,
  let r := minSegment_loop segs m in
  (r = m \/ (r ∈ segs /\ segment_size r <> 1 /\ seg_log r < seg_log m))
  /\ (forall sg, sg ∈ segs -> segment_size sg <> 1 -> seg_log r <= seg_log sg)
  /\ seg_log r <= seg_log m.
Proof.
  induction segs as [|x segs IH]; intros m; cbn [minSegment_loop].
  - split; [left; reflexivity|]. split; [|lia]. intros sg Hsg. inversion Hsg.
  - destruct (segment_size x =? 1) eqn:Hone.
    + destruct (IH m) as (H1 & H2 & H3). split; [|split; [|exact H3]].
      * destruct H1 as [H1|(Hin & Hs & Hl)]; [left; exact H1|right].
        split; [apply elem_of_cons; auto|auto].
      * intros sg Hsg Hsz. apply elem_of_cons in Hsg as [->|Hsg]; [lia|auto].
    + destruct (seg_log x <? seg_log m) eqn:Hlt.
      * destruct (IH x) as (H1 & H2 & H3). split; [|split; [|lia]].
        { right. destruct H1 as [->|(Hin & Hs & Hl)].
          - split; [apply elem_of_cons; auto|]. split; lia.
          - split; [apply elem_of_cons; auto|]. split; lia. }
        intros sg Hsg Hsz. apply elem_of_cons in Hsg as [->|Hsg]; [lia|auto].
      * destruct (IH m) as (H1 & H2 & H3). split; [|split; [|exact H3]].
        { destruct H1 as [H1|(Hin & Hs & Hl)]; [left; exact H1|right].
          split; [apply elem_of_cons; auto|auto]. }
        intros sg Hsg Hsz. apply elem_of_cons in Hsg as [->|Hsg]; [lia|auto].
Qed.

Lemma log2_returns s l : 0 <= s < two64 -> log2 s = Returns l -> 0 < s /\ l = Z.log2 s.
Proof.
  intros Hs Hl. destruct (Z.eq_dec s 0) as [->|Hne]; [discriminate|].
  rewrite log2_pos in Hl by lia. inversion Hl. lia.
Qed.

Lemma wrap64_range z : 0 <= wrap64 z < two64.
Proof. apply Z.mod_pos_bound. reflexivity. Qed.

Lemma extendLeft_loop_spec sizes : forall start m r,
  Forall (fun sz => 0 < sz < two64) sizes ->
  extendLeft_loop sizes start m = Returns r ->
  seg_start m = Z.of_nat start -> seg_start m < seg_end m ->
  seg_bytes m = wrap64 (sizes_between sizes (seg_start m) (seg_end m)) ->
  seg_end r = seg_end m /\ seg_log r = seg_log m
  /\ 0 <= seg_start r <= seg_start m
  /\ seg_bytes r = wrap64 (sizes_between sizes (seg_start r) (seg_end r))
  /\ (seg_start r = 0
      \/ exists sp, sizes !! Z.to_nat (seg_start r - 1) = Some sp
                    /\ Z.log2 (seg_bytes r) < Z.log2 sp)
  /\ (forall k, seg_start r <= Z.of_nat k < seg_start m ->
        exists sp, sizes !! k = Some sp
                   /\ Z.log2 sp
                      <= Z.log2 (wrap64 (sizes_between sizes (Z.of_nat k + 1) (seg_end m)))).
Proof.
  induction start as [|prev IH]; intros m r Hvalid Hrun Hstart Hlt Hbytes.
  - cbn in Hrun. inversion Hrun; subst r.
    repeat split; try lia; try assumption.
  - cbn [extendLeft_loop] in Hrun.
    destruct (log2 (seg_bytes m)) as [lb|] eqn:Hlb; [|discriminate].
    apply log2_returns in Hlb as [Hbpos ->]; [|rewrite Hbytes; apply wrap64_range].
    destruct (sizes !! prev) as [sp|] eqn:Hsp; [|discriminate].
    assert (0 < sp < two64) as Hspv.
    { eapply Forall_lookup_1 in Hvalid; [|exact Hsp]. exact Hvalid. }
    rewrite (log2_pos sp Hspv) in Hrun.
    destruct (Z.log2 (seg_bytes m) <? Z.log2 sp) eqn:Hcmp.
    + inversion Hrun; subst r. apply Z.ltb_lt in Hcmp.
      repeat split; try lia; try assumption.
      right. exists sp. split; [|exact Hcmp]. rewrite <- Hsp. f_equal. lia.
    + apply Z.ltb_ge in Hcmp.
      assert (wrap64 (seg_bytes m + sp)
              = wrap64 (sizes_between sizes (Z.of_nat prev) (seg_end m))) as Hb'.
      { rewrite Hbytes, wrap64_add_l, Hstart.
        rewrite (sizes_between_cons sizes (Z.of_nat prev) _ sp).
        - f_equal. replace (Z.of_nat prev + 1) with (Z.of_nat (S prev)) by lia. lia.
        - lia.
        - rewrite Nat2Z.id. exact Hsp. }
      apply IH in Hrun; try assumption; cbn [seg_start seg_end seg_log seg_bytes] in *;
        try lia; try reflexivity.
      destruct Hrun as (H1 & H2 & H3 & H4 & H5 & H6).
      repeat split; try lia; try assumption.
      intros k Hk. destruct (decide (k = prev)) as [->|Hne].
      * exists sp. split; [exact Hsp|].
        replace (Z.of_nat prev + 1) with (seg_start m) by lia.
        rewrite <- Hbytes. exact Hcmp.
      * apply H6. lia.
Qed.

Lemma extendLeft_loop_returns sizes : forall start m,
  Forall (fun sz => 0 < sz) sizes -> sum_sizes sizes < two64 ->
  seg_start m = Z.of_nat start -> seg_start m < seg_end m ->
  seg_end m <= Z.of_nat (length sizes) ->
  seg_bytes m = wrap64 (sizes_between sizes (seg_start m) (seg_end m)) ->
  exists r, extendLeft_loop sizes start m = Returns r.
Proof.
  induction start as [|prev IH]; intros m Hpos Hsum Hstart Hlt Hend Hbytes; [cbn; eauto|].
  cbn [extendLeft_loop].
  pose proof (sizes_between_bounds sizes (seg_start m) (seg_end m) Hpos) as Hbb.
  rewrite wrap64_small in Hbytes by lia.
  rewrite (log2_pos (seg_bytes m)) by lia.
  destruct (lookup_lt_is_Some_2 sizes prev) as [sp Hsp]; [lia|]. rewrite Hsp.
  assert (0 < sp) as Hsp0.
  { eapply Forall_lookup_1 in Hpos; [|exact Hsp]. exact Hpos. }
  pose proof (sizes_between_bounds sizes (Z.of_nat prev) (seg_end m) Hpos) as Hbb'.
  rewrite (sizes_between_cons sizes (Z.of_nat prev) _ sp) in Hbb'
    by (try lia; rewrite Nat2Z.id; exact Hsp).
  pose proof (sizes_between_bounds sizes (Z.of_nat prev + 1) (seg_end m) Hpos) as Hbb''.
  rewrite (log2_pos sp) by lia.
  destruct (Z.log2 (seg_bytes m) <? Z.log2 sp); [eauto|].
  apply IH; try assumption; cbn [seg_start seg_end seg_log seg_bytes]; try lia.
  rewrite Hbytes, Hstart.
  rewrite (sizes_between_cons sizes (Z.of_nat prev) _ sp)
    by (try lia; rewrite Nat2Z.id; exact Hsp).
  f_equal. replace (Z.of_nat prev + 1) with (Z.of_nat (S prev)) by lia. lia.
Qed.

Lemma positive_nonzero sizes :
  Forall (fun sz => 0 < sz < two64) sizes -> Forall (fun sz => sz <> 0) sizes.
Proof. intros Hv. eapply Forall_impl; [exact Hv|]. cbn. lia. Qed.

(** The segment that the first loop of [suggestCompactionSegment] picks. *)
Lemma minSegment_picked sizes segs :
  Forall (fun sz => sz <> 0) sizes ->
  sizesToSegments sizes = Returns segs ->
  let m := minSegment_loop segs (mkSegment 0 0 64 0) in
  segment_size m <> 0 ->
  m ∈ segs /\ 0 <= seg_start m /\ seg_start m + 2 <= seg_end m <= Z.of_nat (length sizes)
  /\ seg_bytes m = wrap64 (sizes_between sizes (seg_start m) (seg_end m))
  /\ (forall sg, sg ∈ segs -> segment_size sg <> 1 -> seg_log m <= seg_log sg).
Proof.
  intros Hnz Hsegs m Hsize.
  destruct (sizesToSegments_cover sizes Hnz) as (segs' & Hrun' & Hempty & Htiles & Hbytes).
  rewrite Hsegs in Hrun'. inversion Hrun'; subst segs'. clear Hrun'.
  destruct (minSegment_loop_spec segs (mkSegment 0 0 64 0)) as (Hm & Hleast & _).
  fold m in Hm, Hleast.
  destruct Hm as [Hm|(Hin & Hne1 & _)];
    [unfold segment_size in Hsize; rewrite Hm in Hsize; cbn in Hsize; lia|].
  destruct sizes as [|x sizes].
  { rewrite Hempty in Hin by reflexivity. apply list_elem_of_singleton in Hin.
    unfold segment_size in Hsize. rewrite Hin in Hsize. cbn in Hsize. lia. }
  pose proof (tiles_elem _ _ _ m (Htiles ltac:(congruence)) Hin) as Hb.
  rewrite Forall_forall in Hbytes. unfold segment_size in *.
  split; [exact Hin|]. split; [lia|]. split; [lia|]. split; [apply Hbytes, Hin|exact Hleast].
Qed.

Lemma suggestCompactionSegment_range (sizes : list Z) (seg : segment) :
  Forall (fun sz => 0 < sz < two64) sizes ->
  suggestCompactionSegment sizes = Returns (Some seg) ->
  0 <= seg_start seg
  /\ seg_start seg + 2 <= seg_end seg <= Z.of_nat (length sizes)
  /\ seg_bytes seg = wrap64 (sizes_between sizes (seg_start seg) (seg_end seg))
  /\ (seg_start seg = 0
      \/ exists sp, sizes !! Z.to_nat (seg_start seg - 1) = Some sp
                    /\ Z.log2 (seg_bytes seg) < Z.log2 sp).
Proof.
  intros Hvalid Hrun. unfold suggestCompactionSegment in Hrun.
  destruct (sizesToSegments sizes) as [segs|] eqn:Hsegs; [|discriminate].
  destruct (segment_size _ =? 0) eqn:Hz; [discriminate|]. apply Z.eqb_neq in Hz.
  destruct (minSegment_picked sizes segs (positive_nonzero _ Hvalid) Hsegs Hz)
    as (_ & H0 & Hb & Hbytes & _).
  destruct (extendLeft_loop _ _ _) as [r|] eqn:Hext; [|discriminate].
  inversion Hrun; subst r. clear Hrun.
  apply extendLeft_loop_spec in Hext; try assumption; try lia.
  destruct Hext as (He & _ & Hs & Hby & Hstop & _).
  repeat split; try lia; assumption.
Qed.

(** X8: the suggested segment ends where a segment of [sizesToSegments]
    of at least two tables ends, one whose [log] is least among the
    segments that do not hold exactly one table, and has its [log]; every
    table it takes in on the left has a [log2] not above that of the sum
    of what lies to its right in the segment. *)
Theorem suggestCompactionSegment_least_log (sizes : list Z) (segs : list segment)
    (seg : segment) :
  Forall (fun sz => 0 < sz < two64) sizes ->
  sizesToSegments sizes = Returns segs ->
  suggestCompactionSegment sizes = Returns (Some seg) ->
  exists run,
    run ∈ segs /\ 2 <= segment_size run
    /\ seg_end seg = seg_end run /\ seg_log seg = seg_log run
    /\ seg_start seg <= seg_start run
    /\ (forall other, other ∈ segs -> segment_size other <> 1 ->
          seg_log run <= seg_log other)
    /\ (forall k, seg_start seg <= Z.of_nat k < seg_start run ->
          exists sp, sizes !! k = Some sp
                     /\ Z.log2 sp
                        <= Z.log2 (wrap64 (sizes_between sizes (Z.of_nat k + 1) (seg_end run)))).
Proof.
  intros Hvalid Hsegs Hrun. unfold suggestCompactionSegment in Hrun.
  rewrite Hsegs in Hrun.
  destruct (segment_size _ =? 0) eqn:Hz; [discriminate|]. apply Z.eqb_neq in Hz.
  destruct (minSegment_picked sizes segs (positive_nonzero _ Hvalid) Hsegs Hz)
    as (Hin & H0 & Hb & Hbytes & Hleast).
  destruct (extendLeft_loop _ _ _) as [r|] eqn:Hext; [|discriminate].
  inversion Hrun; subst r. clear Hrun.
  apply extendLeft_loop_spec in Hext; try assumption; try lia.
  destruct Hext as (He & Hl & Hs & _ & _ & Habs).
  eexists. split; [exact Hin|]. unfold segment_size.
  repeat split; try lia; try assumption.
Qed.

Lemma tiles_unit segs : forall lo hi j,
  tiles lo segs hi -> Forall (fun sg => segment_size sg = 1) segs ->
  lo + Z.of_nat j < hi ->
  exists sg, segs !! j = Some sg /\ seg_start sg = lo + Z.of_nat j
             /\ seg_end sg = lo + Z.of_nat j + 1.
Proof.
  induction segs as [|x segs IH]; intros lo hi j Ht Hone Hj; cbn in Ht; [lia|].
  destruct Ht as (H1 & H2 & H3). apply Forall_cons in Hone as [Hx Hone].
  unfold segment_size in Hx. destruct j as [|j].
  - exists x. split; [reflexivity|]. lia.
  - destruct (IH (seg_end x) hi j H3 Hone) as (sg & Hsg & Hs & He); [lia|].
    exists sg. split; [exact Hsg|]. lia.
Qed.

Lemma sum_sizes_elem sizes k sz :
  Forall (fun sz => 0 < sz) sizes -> sizes !! k = Some sz -> 0 < sz <= sum_sizes sizes.
Proof.
  intros Hpos Hk.
  pose proof (sizes_between_bounds sizes (Z.of_nat k) (Z.of_nat k + 1) Hpos) as Hb.
  rewrite (sizes_between_snoc _ _ _ sz), sizes_between_empty in Hb by (try lia; exact Hk).
  apply lookup_lt_Some in Hk. lia.
Qed.

Lemma suggestCompactionSegment_balanced (sizes : list Z) :
  Forall (fun sz => 0 < sz) sizes -> sum_sizes sizes < two64 ->
  exists r,
    suggestCompactionSegment sizes = Returns r
    /\ (is_Some r <->
        exists i a b, sizes !! i = Some a /\ sizes !! S i = Some b
                      /\ Z.log2 a = Z.log2 b).
Proof.
  intros Hpos Hsum.
  assert (Forall (fun sz => sz <> 0) sizes) as Hnz
    by (eapply Forall_impl; [exact Hpos|]; cbn; lia).
  destruct (sizesToSegments_cover sizes Hnz) as (segs & Hsegs & Hempty & Htiles & Hbytes).
  destruct (sizesToSegments_runs_of sizes segs Hpos Hsum Hsegs) as (Hlogs & Halt & _).
  unfold suggestCompactionSegment. rewrite Hsegs.
  set (m := minSegment_loop segs (mkSegment 0 0 64 0)).
  destruct (segment_size m =? 0) eqn:Hz.
  - apply Z.eqb_eq in Hz. exists None. split; [reflexivity|].
    split; [intros [x Hx]; discriminate|].
    intros (i & a & b & Ha & Hb & Hab). exfalso.
    assert (sizes <> []) as Hne by (intros ->; discriminate).
    specialize (Htiles Hne).
    destruct (minSegment_loop_spec segs (mkSegment 0 0 64 0)) as (Hm & Hleast & _).
    fold m in Hm, Hleast.
    destruct Hm as [Hm|(Hin & _)].
    2:{ pose proof (tiles_elem _ _ _ m Htiles Hin). unfold segment_size in Hz. lia. }
    rewrite Hm in Hleast. cbn [seg_log] in Hleast.
    assert (Forall (fun sg => segment_size sg = 1) segs) as Hone.
    { apply Forall_forall. intros sg Hsg.
      destruct (Z.eq_dec (segment_size sg) 1) as [|Hn1]; [assumption|]. exfalso.
      specialize (Hleast sg Hsg Hn1).
      pose proof (tiles_elem _ _ _ sg Htiles Hsg) as Hb'.
      destruct (lookup_lt_is_Some_2 sizes (Z.to_nat (seg_start sg))) as [sz Hsz]; [lia|].
      rewrite <- (Hlogs sg (Z.to_nat (seg_start sg)) sz Hsg) in Hleast by (try lia; exact Hsz).
      pose proof (sum_sizes_elem _ _ _ Hpos Hsz) as Hszb.
      assert (Z.log2 sz < 64) by (apply Z.log2_lt_pow2; unfold two64 in *; lia). lia. }
    pose proof (lookup_lt_Some _ _ _ Hb) as Hlen.
    destruct (tiles_unit segs 0 _ i Htiles Hone) as (sa & Hsa & Hsa1 & Hsa2); [lia|].
    destruct (tiles_unit segs 0 _ (S i) Htiles Hone) as (sb & Hsb & Hsb1 & Hsb2); [lia|].
    apply (Halt i sa sb Hsa Hsb).
    rewrite <- (Hlogs sa i a) by (try lia; try assumption; eapply list_elem_of_lookup_2; eauto).
    rewrite <- (Hlogs sb (S i) b) by (try lia; try assumption; eapply list_elem_of_lookup_2; eauto).
    exact Hab.
  - apply Z.eqb_neq in Hz.
    destruct (minSegment_picked sizes segs Hnz Hsegs Hz) as (Hin & H0 & Hb & Hby & _).
    fold m in Hin, H0, Hb, Hby.
    destruct (extendLeft_loop_returns sizes (Z.to_nat (seg_start m)) m) as [r Hr];
      try assumption; try lia.
    rewrite Hr. exists (Some r). split; [reflexivity|]. split; [|eauto].
    intros _.
    destruct (lookup_lt_is_Some_2 sizes (Z.to_nat (seg_start m))) as [a Ha]; [lia|].
    destruct (lookup_lt_is_Some_2 sizes (S (Z.to_nat (seg_start m)))) as [b Hb']; [lia|].
    exists (Z.to_nat (seg_start m)), a, b. split; [exact Ha|]. split; [exact Hb'|].
    rewrite (Hlogs m (Z.to_nat (seg_start m)) a Hin) by (try lia; exact Ha).
    rewrite (Hlogs m (S (Z.to_nat (seg_start m))) b Hin) by (try lia; exact Hb'). reflexivity.
Qed.


(** X5: on sizes that are all non-zero [sizesToSegments] returns (it
    panics on a zero, in [log2]).  The segments it returns cover the
    tables [0, n) in order, without gap or overlap, each one holding at
    least one table, and the [bytes] of a segment is the sum of its
    sizes in 64-bit arithmetic.  For no sizes at all it returns one empty
    segment. *)
Theorem sizesToSegments_tiles (sizes : list Z) :
  Forall (fun sz => sz <> 0) sizes ->
  exists segs,
    sizesToSegments sizes = Returns segs
    /\ (sizes = [] -> segs = [mkSegment 0 0 0 0])
    /\ (sizes <> [] -> tiles 0 segs (Z.of_nat (length sizes)))
    /\ Forall (fun sg => seg_bytes sg
                         = wrap64 (sizes_between sizes (seg_start sg) (seg_end sg))) segs.
Proof. exact (sizesToSegments_cover sizes). Qed.

(** X6: when the sizes are positive and their sum fits in 64 bits, every
    table of a segment has the [log2] that is the [log] of the segment,
    adjacent segments differ in [log], and [bytes] is the plain sum of the
    sizes of the segment: the segments are the maximal runs of tables of
    one [log2]. *)
Theorem sizesToSegments_runs (sizes : list Z) (segs : list segment) :
  Forall (fun sz => 0 < sz) sizes -> sum_sizes sizes < two64 ->
  sizesToSegments sizes = Returns segs ->
  (forall sg k sz, sg ∈ segs -> seg_start sg <= Z.of_nat k < seg_end sg ->
     sizes !! k = Some sz -> Z.log2 sz = seg_log sg)
  /\ (forall j a b, segs !! j = Some a -> segs !! S j = Some b ->
        seg_log a <> seg_log b)
  /\ (forall sg, sg ∈ segs ->
        seg_bytes sg = sizes_between sizes (seg_start sg) (seg_end sg)).
Proof. exact (sizesToSegments_runs_of sizes segs). Qed.

(** X7: a segment that [suggestCompactionSegment] suggests lies within
    the tables and holds at least two of them, so that [AutoCompact]
    calls [compactRangeStats] with [0 <= first < last < n]; its [bytes]
    is the sum of its sizes in 64-bit arithmetic; and it starts at table
    0 or right after a table whose [log2] exceeds that of its [bytes]. *)
Theorem suggestCompactionSegment_bounds (sizes : list Z) (seg : segment) :
  Forall (fun sz => 0 < sz < two64) sizes ->
  suggestCompactionSegment sizes = Returns (Some seg) ->
  0 <= seg_start seg
  /\ seg_start seg + 2 <= seg_end seg <= Z.of_nat (length sizes)
  /\ seg_bytes seg = wrap64 (sizes_between sizes (seg_start seg) (seg_end seg))
  /\ (seg_start seg = 0
      \/ exists sp, sizes !! Z.to_nat (seg_start seg - 1) = Some sp
                    /\ Z.log2 (seg_bytes seg) < Z.log2 sp).
Proof. exact (suggestCompactionSegment_range sizes seg). Qed.

(** X9: when the sizes are positive and their sum fits in 64 bits,
    [suggestCompactionSegment] returns, and it suggests a segment exactly
    when two adjacent tables have the same [log2]. *)
Theorem suggestCompactionSegment_some_iff (sizes : list Z) :
  Forall (fun sz => 0 < sz) sizes -> sum_sizes sizes < two64 ->
  exists r,
    suggestCompactionSegment sizes = Returns r
    /\ (is_Some r <->
        exists i a b, sizes !! i = Some a /\ sizes !! S i = Some b
                      /\ Z.log2 a = Z.log2 b).
Proof. exact (suggestCompactionSegment_balanced sizes). Qed.

(** ** Table names in general *)

Lemma append_nil_r (a : string) : a +:+ EmptyString = a.
Proof. induction a as [|x a IH]; cbn; [reflexivity|]. rewrite IH. reflexivity. Qed.

Lemma hex_digits_length n : forall z, String.length (hex_digits n z) = n.
Proof.
  induction n as [|n IH]; intros z; cbn [hex_digits]; [reflexivity|].
  rewrite append_length, IH. cbn. lia.
Qed.

Lemma hex_width_small z : 0 <= z < 2 ^ 48 -> (hex_width z <= 12)%nat.
Proof.
  intros Hz. unfold hex_width. destruct (z =? 0) eqn:H0; [lia|].
  assert (Z.log2 z < 48) as Hl by (apply Z.log2_lt_pow2; lia).
  pose proof (Z.log2_nonneg z).
  assert (Z.log2 z / 4 < 12) by (apply Z.div_lt_upper_bound; lia).
  pose proof (Z.div_pos (Z.log2 z) 4). lia.
Qed.

Lemma hex_width_u64 z : 0 <= z < two64 -> (hex_width z <= 16)%nat.
Proof.
  intros Hz. unfold hex_width. destruct (z =? 0) eqn:H0; [lia|].
  assert (Z.log2 z < 64) as Hl by (apply Z.log2_lt_pow2; unfold two64 in Hz; lia).
  pose proof (Z.log2_nonneg z).
  assert (Z.log2 z / 4 < 16) by (apply Z.div_lt_upper_bound; lia).
  pose proof (Z.div_pos (Z.log2 z) 4). lia.
Qed.

(** X1: [formatName] is injective on non-negative indices: two names are
    equal only if both indices are. *)
Theorem formatName_injective (a b a' b' : Z) :
  0 <= a -> 0 <= b -> 0 <= a' -> 0 <= b' ->
  formatName a b = formatName a' b' -> a = a' /\ b = b'.
Proof.
  intros Ha Hb Ha' Hb' Heq. split.
  - rewrite <- (hex_value_formatName a b EmptyString Ha).
    rewrite <- (hex_value_formatName a' b' EmptyString Ha').
    rewrite Heq. reflexivity.
  - rewrite <- (hex_value_after_dash a b Hb).
    rewrite <- (hex_value_after_dash a' b' Hb').
    rewrite Heq. reflexivity.
Qed.

(** X2: for 64-bit indices the name that [formatName] builds has between
    25 and 33 characters, never fewer than twelve digits per index, and
    exactly 25 when both indices are below [2^48]: the verb pads but does
    not cut. *)
Theorem formatName_length (a b : Z) :
  0 <= a < two64 -> 0 <= b < two64 ->
  (25 <= String.length (formatName a b) <= 33)%nat
  /\ (a < 2 ^ 48 -> b < 2 ^ 48 -> String.length (formatName a b) = 25%nat).
Proof.
  intros Ha Hb. unfold formatName, sprintf_012x.
  rewrite !append_length, !hex_digits_length. cbn [String.length].
  pose proof (hex_width_u64 a Ha). pose proof (hex_width_u64 b Hb).
  split; [lia|]. intros Ha' Hb'.
  pose proof (hex_width_small a ltac:(lia)). pose proof (hex_width_small b ltac:(lia)). lia.
Qed.

(** ** Manifest text in general *)

Lemma bytes_Split_no_newline c : Forall (fun l => no_newline l = true) (bytes_Split c).
Proof.
  induction c as [|a c IH]; cbn [bytes_Split]; [repeat constructor|].
  destruct (Ascii.eqb a newline) eqn:Ha; [constructor; [reflexivity|exact IH]|].
  destruct (bytes_Split c) as [|l ls]; [repeat constructor; cbn; rewrite Ha; reflexivity|].
  apply Forall_cons in IH as [Hl Hls]. constructor; [|exact Hls].
  cbn. rewrite Ha, Hl. reflexivity.
Qed.

Lemma names_of_manifest_all_legal c :
  Forall (fun n => legal_name n = true) (names_of_manifest c).
Proof.
  unfold names_of_manifest. apply Forall_forall. intros n Hn.
  apply list_elem_of_In, filter_In in Hn as [Hin Hne].
  unfold legal_name. rewrite Hne. cbn.
  pose proof (bytes_Split_no_newline c) as Hall. rewrite Forall_forall in Hall.
  apply Hall, list_elem_of_In, Hin.
Qed.





(** ** Reload in general *)

Section Reloading.
Context `{Collaborators}.

Lemma same_config_refl s : same_config s s.
Proof. repeat split. Qed.

Lemma same_config_trans s1 s2 s3 :
  same_config s1 s2 -> same_config s2 s3 -> same_config s1 s3.
Proof. intros (? & ? & ? & ?) (? & ? & ? & ?). repeat split; congruence. Qed.

Lemma same_memory_config s s' : same_memory s s' -> same_config s s'.
Proof. intros [_ Hst]. unfold same_config. rewrite Hst. auto. Qed.

Lemma reloadOnce_frame names s r s' :
  reloadOnce names s = (r, s') ->
  files s' = files s /\ same_config s s' /\ merged (st s') = merged (st s).
Proof.
  unfold reloadOnce, bind, get.
  destruct (reloadOnce_loop names (curReaders s) [] s) as [[[cur nt] err] s1] eqn:Hloop.
  apply reloadOnce_loop_inv in Hloop as [Hf Hst].
  destruct err as [e|].
  - destruct (closeAll nt s1) as [u s2] eqn:Hclose.
    apply closeAll_inv in Hclose as (Hf2 & Hst2 & _).
    intros Heq; inversion Heq; subst. unfold same_config. rewrite Hst2, Hst.
    repeat split; congruence.
  - unfold modify.
    destruct (closeAll _ _) as [u s2] eqn:Hclose.
    apply closeAll_inv in Hclose as (Hf2 & Hst2 & _). cbn in Hf2, Hst2.
    intros Heq; inversion Heq; subst. unfold same_config. rewrite Hst2, Hf2. cbn.
    rewrite Hst. repeat split; congruence.
Qed.

Lemma reload_loop_frame fuel : forall s r s',
  reload_loop fuel s = (r, s') ->
  files s' = files s /\ same_config s s' /\ merged (st s') = merged (st s).
Proof.
  induction fuel as [|fuel IH]; intros s r s'; cbn [reload_loop].
  - intros Heq; inversion Heq; subst. split; [reflexivity|]. split; [apply same_config_refl|reflexivity].
  - rewrite bind_eq. destruct (readNames s) as [names s0] eqn:Hnames.
    apply readNames_inv in Hnames as (Hf0 & Hm0 & _).
    pose proof (same_memory_config _ _ Hm0) as Hc0.
    assert (merged (st s0) = merged (st s)) as Hg0 by (destruct Hm0 as [_ ->]; reflexivity).
    destruct names as [names|e].
    2:{ intros Heq; inversion Heq; subst. auto. }
    rewrite bind_eq. destruct (reloadOnce names s0) as [err s1] eqn:Honce.
    apply reloadOnce_frame in Honce as (Hf1 & Hc1 & Hg1).
    assert (files s1 = files s /\ same_config s s1 /\ merged (st s1) = merged (st s))
      as H1.
    { split; [congruence|]. split; [eapply same_config_trans; eauto|congruence]. }
    destruct err as [e|].
    2:{ intros Heq; inversion Heq; subst. exact H1. }
    destruct (negb (os_IsNotExist (Some e))).
    { intros Heq; inversion Heq; subst. exact H1. }
    rewrite bind_eq. destruct (readNames s1) as [after s2] eqn:Hafter.
    apply readNames_inv in Hafter as (Hf2 & Hm2 & _).
    pose proof (same_memory_config _ _ Hm2) as Hc2.
    assert (merged (st s2) = merged (st s1)) as Hg2 by (destruct Hm2 as [_ ->]; reflexivity).
    destruct H1 as (H1f & H1c & H1g).
    assert (files s2 = files s /\ same_config s s2 /\ merged (st s2) = merged (st s))
      as H2.
    { split; [congruence|]. split; [eapply same_config_trans; eauto|congruence]. }
    destruct after as [after|e'].
    2:{ intros Heq; inversion Heq; subst. exact H2. }
    destruct (list_eqb after names).
    { intros Heq; inversion Heq; subst. exact H2. }
    intros Hrun. apply IH in Hrun as (Hf3 & Hc3 & Hg3).
    destruct H2 as (H2f & H2c & H2g).
    split; [congruence|]. split; [eapply same_config_trans; eauto|congruence].
Qed.

Lemma reload_frame s r s' :
  reload s = (r, s') -> files s' = files s /\ same_config s s'.
Proof.
  unfold reload. rewrite bind_get, bind_eq.
  destruct (reload_loop (S (retries s)) s) as [err s1] eqn:Hloop.
  apply reload_loop_frame in Hloop as (Hf & Hc & _).
  destruct err as [e|].
  { intros Heq; inversion Heq; subst. auto. }
  rewrite bind_get, bind_eq. unfold NewMerged.
  destruct (newMergedErr _).
  { intros Heq; inversion Heq; subst. auto. }
  unfold bind, modify, ret. intros Heq; inversion Heq; subst. cbn.
  split; [exact Hf|]. exact Hc.
Qed.

(** X10: [reload], whatever it returns, changes no file and leaves the
    manifest path, the table directory, the configuration and the
    statistics of the stack as they were. *)
Theorem reload_read_only (s s' : State) (r : option error) :
  reload s = (r, s') -> files s' = files s /\ same_config s s'.
Proof. exact (reload_frame s r s'). Qed.

(** A reload that fails leaves the merged view as it was. *)
Lemma reload_failure_merged s e s' :
  reload s = (Some e, s') -> merged (st s') = merged (st s).
Proof.
  unfold reload. rewrite bind_get, bind_eq.
  destruct (reload_loop (S (retries s)) s) as [err s1] eqn:Hloop.
  apply reload_loop_frame in Hloop as (Hf & Hc & Hg).
  destruct err as [e1|].
  { intros Heq; inversion Heq; subst. auto. }
  rewrite bind_get, bind_eq. unfold NewMerged.
  destruct (newMergedErr _).
  { intros Heq; inversion Heq; subst. auto. }
  unfold bind, modify, ret. intros Heq; inversion Heq.
Qed.

Lemma foldl_insert_lookup (nm : nat -> string) ps : forall (m : gmap string nat) n p,
  foldl (fun cur p => <[nm p := p]> cur) m ps !! n = Some p ->
  (p ∈ ps /\ nm p = n) \/ m !! n = Some p.
Proof.
  induction ps as [|q ps IH]; intros m n p Hl; cbn in Hl; [auto|].
  apply IH in Hl as [[Hin Hn]|Hl].
  - left. split; [apply elem_of_cons; auto|exact Hn].
  - apply lookup_insert_Some in Hl as [[Hq <-]|[_ Hl]]; [|auto].
    left. split; [apply elem_of_cons; auto|exact Hq].
Qed.

Lemma curReaders_lookup s n p :
  curReaders s !! n = Some p -> p ∈ stack (st s) /\ r_name (reader s p) = n.
Proof.
  unfold curReaders. intros Hl.
  apply (foldl_insert_lookup (fun p => r_name (reader s p))) in Hl as [Hl|Hl]; [exact Hl|].
  rewrite lookup_empty in Hl. discriminate.
Qed.



(** A successful [reload], step by step: the names are read once, then
    [reloadOnce] loads them, then the merged view is rebuilt. *)
Lemma reload_success s s' :
  reload s = (None, s') ->
  exists s0 s1,
    files s0 = files s /\ same_memory s s0
    /\ reloadOnce (manifest_names (files s) (listFile (st s))) s0 = (None, s1)
    /\ s' = set_st (set_merged (Some (stack (st s1))) (st s1)) s1.
Proof.
  unfold reload. unfold bind at 1, get. rewrite bind_eq.
  cbn [reload_loop]. rewrite bind_eq.
  destruct (readNames s) as [names s0] eqn:Hnames.
  apply readNames_inv in Hnames as (Hf0 & Hm0 & Hn0).
  destruct names as [names|e]; [|discriminate].
  specialize (Hn0 names eq_refl). subst names.
  rewrite bind_eq.
  destruct (reloadOnce _ s0) as [err s1] eqn:Honce.
  destruct err as [e|].
  - intros Hrun. exfalso. apply reloadOnce_inv in Honce as (Hf1 & Hl1 & _).
    destruct (negb (os_IsNotExist (Some e))); [discriminate|].
    rewrite bind_eq in Hrun.
    destruct (readNames s1) as [after s2] eqn:Hafter.
    apply readNames_inv in Hafter as (_ & _ & Hn1).
    destruct after as [after|e']; [|discriminate].
    specialize (Hn1 after eq_refl). subst after.
    destruct Hm0 as [_ Hst0].
    rewrite Hf1, Hl1, Hf0, Hst0, list_eqb_refl in Hrun. discriminate.
  - unfold bind, get, ret, modify, NewMerged.
    destruct (newMergedErr _); [discriminate|].
    intros Heq; inversion Heq; subst. cbn.
    exists s0, s1. repeat split; try assumption; apply Hm0.
Qed.



Lemma foldl_delete_all ns : forall (cur : gmap string nat) n,
  n ∈ ns -> foldl (fun m n => delete n m) cur ns !! n = None.
Proof.
  induction ns as [|x ns IH]; intros cur n Hn; [inversion Hn|]. cbn.
  destruct (decide (n ∈ ns)) as [Hin|Hout]; [apply IH, Hin|].
  apply elem_of_cons in Hn as [->|Hn]; [|contradiction].
  rewrite foldl_delete_lookup by exact Hout. apply lookup_delete_eq.
Qed.

Lemma set_stack_same s : set_st (set_stack (stack (st s)) (st s)) s = s.
Proof. destruct s as [f h fl r n [l d c k m t]]. reflexivity. Qed.

(** [reloadOnce] with the names of the stack, which are distinct, does
    nothing. *)
Lemma reloadOnce_same_names (s : State) :
  NoDup (stackNames s) -> reloadOnce (stackNames s) s = (None, s).
Proof.
  intros Hnd. unfold reloadOnce. rewrite bind_get, bind_eq.
  pose proof (reloadOnce_loop_reuse (stackNames s) (stack (st s)) (curReaders s) [] [] s)
    as Hreuse.
  rewrite app_nil_r in Hreuse. rewrite Hreuse; [|clear Hreuse|exact Hnd].
  2:{ unfold stackNames. apply Forall2_fmap_l, Forall_Forall2_diag, Forall_forall.
      intros p Hp. unfold curReaders.
      apply (foldl_insert_in (fun p => r_name (reader s p))); [exact Hnd|exact Hp]. }
  cbn [reloadOnce_loop app]. unfold ret at 1.
  assert (foldl (fun m n => delete n m) (curReaders s) (stackNames s) = ∅) as ->.
  { apply map_empty. intros n.
    destruct (decide (n ∈ stackNames s)) as [Hin|Hout]; [apply foldl_delete_all, Hin|].
    rewrite foldl_delete_lookup by exact Hout.
    destruct (curReaders s !! n) as [p|] eqn:Hp; [|reflexivity].
    apply curReaders_lookup in Hp as [Hin <-]. exfalso. apply Hout.
    unfold stackNames. apply list_elem_of_fmap. eauto. }
  rewrite bind_eq. unfold modify at 1. rewrite map_to_list_empty. cbn [map closeAll].
  rewrite bind_eq. unfold ret. rewrite set_stack_same. reflexivity.
Qed.

(** X13: [UpToDate] changes nothing; when it returns no error it answers
    true exactly when the names in the manifest are the names of the
    readers of the stack, in order (a missing manifest counting as no
    names); when it returns an error it answers false. *)
Theorem UpToDate_compares_names (s s' : State) (ok : bool) (err : option error) :
  UpToDate s = ((ok, err), s') ->
  files s' = files s /\ heap s' = heap s /\ st s' = st s
  /\ (err = None ->
      (ok = true <-> manifest_names (files s) (listFile (st s)) = stackNames s))
  /\ (err <> None -> ok = false).
Proof.
  intros Hrun. pose proof (UpToDate_inv _ _ _ _ Hrun) as (Hf & [Hh Hst] & Htrue).
  split; [exact Hf|]. split; [exact Hh|]. split; [exact Hst|].
  unfold UpToDate in Hrun. rewrite bind_eq in Hrun.
  destruct (readNames s) as [names s0] eqn:Hnames.
  apply readNames_inv in Hnames as (Hf0 & Hm0 & Hn0).
  destruct names as [names|e].
  - rewrite bind_get in Hrun. specialize (Hn0 names eq_refl).
    rewrite (stackNames_same _ _ Hm0) in Hrun.
    assert (length (stack (st s0)) = length (stackNames s)) as Hlen.
    { unfold stackNames. rewrite length_map. destruct Hm0 as [_ ->]. reflexivity. }
    rewrite Hlen in Hrun.
    split; [|intros Hne; destruct (negb _); inversion Hrun; subst; congruence].
    intros _. split; [exact Htrue|]. intros Heq. subst names. rewrite Heq in Hrun.
    rewrite Nat.eqb_refl, list_eqb_refl in Hrun. cbn in Hrun. inversion Hrun. reflexivity.
  - inversion Hrun; subst. split; [discriminate|reflexivity].
Qed.

Lemma closed_alter_keep (h : list Reader) q p :
  r_closed (h !!! p) = true -> r_closed (alter close_reader q h !!! p) = true.
Proof.
  rewrite !list_lookup_total_alt. destruct (decide (p = q)) as [->|Hne].
  - rewrite list_lookup_alter_eq. destruct (h !! q); cbn; auto.
  - rewrite list_lookup_alter_ne by congruence. auto.
Qed.

Lemma closed_alter_eq (h : list Reader) q :
  (q < length h)%nat -> r_closed (alter close_reader q h !!! q) = true.
Proof.
  intros Hq. destruct (lookup_lt_is_Some_2 h q Hq) as [r Hr].
  rewrite list_lookup_total_alt, list_lookup_alter_eq, Hr. reflexivity.
Qed.

Lemma closeAll_closed ps : forall s u s',
  closeAll ps s = (u, s') ->
  (forall p, p ∈ ps -> (p < length (heap s))%nat -> r_closed (reader s' p) = true)
  /\ (forall p, r_closed (reader s p) = true -> r_closed (reader s' p) = true)
  /\ (forall p, p ∉ ps -> reader s' p = reader s p).
Proof.
  induction ps as [|q ps IH]; intros s u s'; cbn [closeAll].
  - intros Heq; inversion Heq; subst.
    split; [intros p Hp; inversion Hp|]. split; auto.
  - unfold bind, Reader_Close, modify. intros Hrun.
    apply IH in Hrun as (Hin & Hkeep & Hout). cbn [heap set_heap] in *.
    rewrite length_alter in Hin.
    split; [|split].
    + intros p Hp Hlt. apply elem_of_cons in Hp as [->|Hp]; [|auto].
      apply Hkeep. unfold reader. cbn [heap set_heap]. apply closed_alter_eq, Hlt.
    + intros p Hc. apply Hkeep. unfold reader. cbn [heap set_heap].
      apply closed_alter_keep, Hc.
    + intros p Hp. apply not_elem_of_cons in Hp as [Hne Hp]. rewrite Hout by exact Hp.
      unfold reader. cbn [heap set_heap]. apply list_lookup_total_alter_ne. congruence.
Qed.

(** X14: [Close] returns with an empty stack and every reader of the
    former stack closed; it changes no file, no other reader, and leaves
    the merged view, now over closed readers, in place. *)
Theorem Close_releases_readers (s : State) :
  exists s',
    Close s = (tt, s')
    /\ stack (st s') = []
    /\ files s' = files s
    /\ readers_eq (heap s) (heap s')
    /\ (forall p, p ∈ stack (st s) -> (p < length (heap s))%nat ->
          r_closed (reader s' p) = true)
    /\ (forall p, p ∉ stack (st s) -> reader s' p = reader s p)
    /\ Merged s' = Merged s.
Proof.
  unfold Close. rewrite bind_get, bind_eq.
  destruct (closeAll (stack (st s)) s) as [[] s1] eqn:Hclose.
  pose proof (closeAll_inv _ _ _ _ Hclose) as (Hf & Hst & Hh).
  apply closeAll_closed in Hclose as (Hin & _ & Hout).
  eexists. split; [reflexivity|]. cbn. unfold Merged. cbn. rewrite Hst.
  repeat split; auto.
Qed.

Lemma reload_loop_missing n s :
  files s !! listFile (st s) = None -> stack (st s) = [] ->
  reload_loop (S n) s = (None, s).
Proof.
  intros Hfile Hstack. cbn [reload_loop]. unfold bind.
  rewrite (readNames_missing s Hfile).
  assert (reloadOnce [] s = (None, s)) as ->; [|reflexivity].
  pose proof (reloadOnce_same_names s) as Hsame.
  unfold stackNames in Hsame. rewrite Hstack in Hsame. apply Hsame. constructor.
Qed.

(** X15: [NewStack] on a directory without a manifest succeeds, when a
    merged view over no table can be built, with an empty stack, a merged
    view over no table and zero statistics; it creates no file. *)
Theorem NewStack_without_manifest (dir lf : string) (c : Config) (w : State) :
  files w !! lf = None -> newMergedErr [] = None ->
  NewStack dir lf c w
  = (None, set_st (mkStack lf dir c [] (Some []) (mkStats 0 0 0)) w).
Proof.
  intros Hfile Hmerged. unfold NewStack, bind at 1, modify at 1.
  set (s0 := set_st _ w). unfold reload, bind, get.
  rewrite (reload_loop_missing _ s0) by (try exact Hfile; reflexivity).
  unfold NewMerged. cbn [s0 st set_st stack map]. rewrite Hmerged. reflexivity.
Qed.

(** X12: a [reload] of a stack that is up to date, with distinct table
    names, keeps the reader objects: no reader is opened, closed or
    replaced, whatever [reload] returns; when it returns no error the
    merged view is over the same readers. *)
Theorem reload_keeps_readers (s s' : State) (r : option error) :
  NoDup (stackNames s) ->
  manifest_names (files s) (listFile (st s)) = stackNames s ->
  reload s = (r, s') ->
  heap s' = heap s /\ stack (st s') = stack (st s) /\ files s' = files s
  /\ (r = None -> Merged s' = Some (stack (st s))).
Proof.
  intros Hnd Hnames. unfold reload. rewrite bind_get, bind_eq.
  cbn [reload_loop]. rewrite bind_eq.
  destruct (readNames s) as [names s0] eqn:Hread.
  apply readNames_inv in Hread as (Hf0 & M0 & Hn0).
  pose proof M0 as [Hh0 Hst0].
  destruct names as [names|e].
  2:{ intros Heq; inversion Heq; subst. split; [exact Hh0|]. split; [rewrite Hst0; reflexivity|].
      split; [exact Hf0|discriminate]. }
  specialize (Hn0 names eq_refl). subst names. rewrite Hnames.
  rewrite <- (stackNames_same _ _ M0).
  rewrite bind_eq, reloadOnce_same_names
    by (rewrite (stackNames_same _ _ M0); exact Hnd).
  unfold ret at 1. rewrite bind_get, bind_eq. unfold NewMerged.
  destruct (newMergedErr _).
  { intros Heq; inversion Heq; subst. split; [exact Hh0|]. split; [rewrite Hst0; reflexivity|].
      split; [exact Hf0|discriminate]. }
  unfold bind, modify, ret. intros Heq; inversion Heq; subst. cbn.
  unfold Merged. cbn. rewrite Hst0. auto.
Qed.

(** X4: every name that [readNames] returns is non-empty and holds no
    newline; [readNames] changes neither the files, nor the readers, nor
    the stack. *)
Theorem readNames_legal (s s' : State) (names : list string) :
  readNames s = (inl names, s') ->
  Forall (fun n => legal_name n = true) names
  /\ files s' = files s /\ heap s' = heap s /\ st s' = st s.
Proof.
  intros Hrun. apply readNames_inv in Hrun as (Hf & [Hh Hst] & Hn).
  rewrite (Hn names eq_refl). split; [|auto].
  unfold manifest_names. destruct (files s !! listFile (st s)); [|constructor].
  apply names_of_manifest_all_legal.
Qed.
End Reloading.



(** ** What [add] touches *)

Section Effects.
Context `{Collaborators}.

Lemma touches_refl P s : touches P s s.
Proof. intros q _. reflexivity. Qed.

Lemma touches_trans P s1 s2 s3 :
  touches P s1 s2 -> touches P s2 s3 -> touches P s1 s3.
Proof. intros H12 H23 q Hq. rewrite H23, H12 by exact Hq. reflexivity. Qed.

Lemma touches_files P s s' : files s' = files s -> touches P s s'.
Proof. intros Hf q _. rewrite Hf. reflexivity. Qed.

Lemma touches_insert (P : string -> Prop) s s' path c :
  P path -> files s' = <[path := c]> (files s) -> touches P s s'.
Proof.
  intros HP Hf q Hq. rewrite Hf. apply lookup_insert_ne. intros <-. exact (Hq HP).
Qed.

Lemma touches_delete (P : string -> Prop) s s' path :
  P path -> files s' = delete path (files s) -> touches P s s'.
Proof.
  intros HP Hf q Hq. rewrite Hf. apply lookup_delete_ne. intros <-. exact (Hq HP).
Qed.

Lemma os_OpenFile_excl_touches (P : string -> Prop) path s r s' :
  P path -> os_OpenFile_excl path s = (r, s') -> touches P s s'.
Proof.
  intros HP Hrun. destruct r as [f e].
  apply os_OpenFile_excl_inv in Hrun as (_ & [(_ & _ & _ & F)|(_ & _ & F)]).
  - eapply touches_insert; eauto.
  - apply touches_files, F.
Qed.

Lemma file_Close_touches P f s e s' :
  file_Close f s = (e, s') -> touches P s s'.
Proof. intros Hrun. apply file_Close_inv in Hrun as [F _]. apply touches_files, F. Qed.

Lemma file_Write_touches (P : string -> Prop) path data s e s' :
  P path -> file_Write (Some path) data s = (e, s') -> touches P s s'.
Proof.
  intros HP Hrun. apply file_Write_inv in Hrun as (_ & [[_ F]|[_ F]]).
  - destruct (files s !! path) as [[c|t]|]; try (apply touches_files, F).
    eapply touches_insert; eauto.
  - apply touches_files, F.
Qed.

Lemma os_Remove_touches (P : string -> Prop) path s e s' :
  P path -> os_Remove path s = (e, s') -> touches P s s'.
Proof.
  intros HP Hrun. apply os_Remove_inv in Hrun as (_ & [[_ F]|[_ F]]).
  - eapply touches_delete; eauto.
  - apply touches_files, F.
Qed.

Lemma os_Rename_touches (P : string -> Prop) old new s e s' :
  P old -> P new -> os_Rename old new s = (e, s') -> touches P s s'.
Proof.
  intros Ho Hn Hrun. apply os_Rename_inv in Hrun as (_ & [(_ & c & _ & F)|[_ F]]).
  - intros q Hq. rewrite F. rewrite lookup_insert_ne by (intros <-; exact (Hq Hn)).
    apply lookup_delete_ne. intros <-. exact (Hq Ho).
  - apply touches_files, F.
Qed.

Lemma Writer_Close_touches (P : string -> Prop) f wr s e s' :
  P f -> Writer_Close f wr s = (e, s') -> touches P s s'.
Proof.
  intros HP Hrun. apply Writer_Close_inv in Hrun as (_ & [[_ F]|[_ F]]).
  - destruct (files s !! f); [eapply touches_insert; eauto|apply touches_files, F].
  - apply touches_files, F.
Qed.

Lemma removeAll_touches (P : string -> Prop) paths : forall s u s',
  Forall P paths -> removeAll paths s = (u, s') -> touches P s s'.
Proof.
  induction paths as [|p paths IH]; intros s u s' HP; cbn [removeAll].
  - intros Heq; inversion Heq; subst. apply touches_refl.
  - apply Forall_cons in HP as [Hp HP]. rewrite bind_eq.
    destruct (os_Remove p s) as [e s1] eqn:E1. intros Hrun.
    eapply touches_trans; [eapply os_Remove_touches; eauto|eapply IH; eauto].
Qed.

Lemma tempName_form fs dir pre suf cands path rest :
  tempName fs dir pre suf cands = Some (path, rest) ->
  exists x, path = filepath_Join dir (pre +:+ x +:+ suf).
Proof.
  induction cands as [|r cands IH]; cbn; [discriminate|].
  destruct (fs !! filepath_Join dir (pre +:+ r +:+ suf)); [exact IH|].
  intros Heq; inversion Heq; subst. eauto.
Qed.

Lemma ioutil_TempFile_form dir pre suf s path s' :
  ioutil_TempFile dir pre suf s = (inl path, s') ->
  exists x, path = filepath_Join dir (pre +:+ x +:+ suf).
Proof.
  unfold ioutil_TempFile.
  destruct (tempName (files s) dir pre suf (rands s)) as [[p rest]|] eqn:Ht; [|discriminate].
  apply tempName_form in Ht.
  destruct (next_fault _) as [b s1]. destruct b; intros Heq; inversion Heq; subst. exact Ht.
Qed.

Lemma ioutil_TempFile_touches (P : string -> Prop) dir pre suf s r s' :
  (forall x, P (filepath_Join dir (pre +:+ x +:+ suf))) ->
  ioutil_TempFile dir pre suf s = (r, s') -> touches P s s'.
Proof.
  intros HP Hrun. pose proof Hrun as Hinv.
  apply ioutil_TempFile_inv in Hinv as (_ & Hr). destruct r as [path|e].
  - apply ioutil_TempFile_form in Hrun as [x ->]. destruct Hr as [_ F].
    eapply touches_insert; eauto.
  - apply touches_files, Hr.
Qed.

Lemma reload_touches P s r s' : reload s = (r, s') -> touches P s s'.
Proof. intros Hrun. apply reload_frame in Hrun as [F _]. apply touches_files, F. Qed.

Lemma UpToDate_touches P s r s' : UpToDate s = (r, s') -> touches P s s'.
Proof.
  destruct r as [ok err]. intros Hrun. apply UpToDate_inv in Hrun as (F & _).
  apply touches_files, F.
Qed.

Lemma touches_mono (P Q : string -> Prop) s s' :
  (forall q, P q -> Q q) -> touches P s s' -> touches Q s s'.
Proof. intros HPQ HT q Hq. apply HT. intros HP. exact (Hq (HPQ _ HP)). Qed.

Lemma same_config_memory_trans s1 s2 s3 :
  same_config s1 s2 -> same_memory s2 s3 -> same_config s1 s3.
Proof. intros Hc Hm. eapply same_config_trans; [exact Hc|apply same_memory_config, Hm]. Qed.

(** [add] from line 252 on, whatever it returns: the files it may have
    touched, and what has become of the manifest. *)
Lemma add_table_effect write lock tab names next fn s r lk s' :
  add_table write (Some lock) tab names next fn s = ((r, lk), s') ->
  lock = listFile (st s) +:+ ".lock" ->
  let dest := filepath_Join (reftableDir (st s)) (fn +:+ ".ref") in
  touches (fun q => q = lock \/ q = tab \/ q = dest \/ q = listFile (st s)) s s'
  /\ same_config s s'
  /\ (files s !! lock = Some (Text EmptyString) ->
      tab <> lock -> tab <> listFile (st s) ->
      has_suffix ".ref" (listFile (st s)) = false ->
      (files s' !! listFile (st s) = files s !! listFile (st s) /\ r <> None)
      \/ files s' !! listFile (st s)
         = Some (Text (strings_Join (names ++ [fn +:+ ".ref"]))))
  /\ (lk = lock \/ lk = EmptyString).
Proof.
  intros Hrun Hlock dest.
  set (P' := fun q : string => q = lock \/ q = tab \/ q = dest).
  set (P := fun q : string => q = lock \/ q = tab \/ q = dest \/ q = listFile (st s)).
  assert (forall q, P' q -> P q) as Hmono by (unfold P, P'; intros q; tauto).
  assert (P' lock /\ P' tab /\ P' dest) as (Plock & Ptab & Pdest) by (unfold P'; auto).
  assert (forall e,
            touches P' s s' -> same_memory s s' -> r = Some e -> lk = lock ->
            touches P s s' /\ same_config s s'
            /\ (files s !! lock = Some (Text EmptyString) ->
                tab <> lock -> tab <> listFile (st s) ->
                has_suffix ".ref" (listFile (st s)) = false ->
                (files s' !! listFile (st s) = files s !! listFile (st s) /\ r <> None)
                \/ files s' !! listFile (st s)
                   = Some (Text (strings_Join (names ++ [fn +:+ ".ref"]))))
            /\ (lk = lock \/ lk = EmptyString)) as Hexit.
  { intros e T M -> Hlk. split; [eapply touches_mono; eauto|].
    split; [apply same_memory_config, M|]. split; [|auto].
    intros _ _ Htl Hsuffix. left. split; [|discriminate]. apply T.
    unfold P'. intros [Hq|[Hq|Hq]].
    - subst lock. symmetry in Hq. revert Hq. apply append_neq_self. discriminate.
    - congruence.
    - symmetry in Hq. revert Hq. apply table_path_not_manifest, Hsuffix. }
  unfold add_table in Hrun. rewrite bind_get in Hrun. rewrite <- Hlock in Hrun.
  destruct (NewWriter tab (cfg (st s))) as [wr0|e].
  2:{ unfold ret in Hrun; injection Hrun as Hr Hlk Hs; subst r s'; symmetry in Hlk. eapply Hexit; eauto using touches_refl, same_memory_refl. }
  destruct (write wr0) as [wr err] eqn:Hwrite.
  destruct err as [e|].
  { unfold ret in Hrun; injection Hrun as Hr Hlk Hs; subst r s'; symmetry in Hlk. eapply Hexit; eauto using touches_refl, same_memory_refl. }
  rewrite bind_eq in Hrun.
  destruct (Writer_Close tab wr s) as [e1 s1] eqn:E1.
  pose proof (Writer_Close_touches P' _ _ _ _ _ Ptab E1) as T1.
  apply Writer_Close_inv in E1 as (M1 & F1).
  destruct e1 as [e|].
  { unfold ret in Hrun; injection Hrun as Hr Hlk Hs; subst r s'; symmetry in Hlk. eapply Hexit; eauto. }
  destruct F1 as [[_ F1]|[N1 _]]; [|congruence].
  rewrite bind_eq in Hrun.
  destruct (file_Close (Some tab) s1) as [e2 s2] eqn:E2.
  apply file_Close_inv in E2 as (F2 & M2).
  assert (touches P' s s2) as T2 by (intros q Hq; rewrite F2; apply T1, Hq).
  assert (same_memory s s2) as M02 by (eapply same_memory_trans; eauto).
  destruct e2 as [e|].
  { unfold ret in Hrun; injection Hrun as Hr Hlk Hs; subst r s'; symmetry in Hlk. eapply Hexit; eauto. }
  destruct (minUpdateIndex wr <? next) eqn:Hnext.
  { unfold ret in Hrun; injection Hrun as Hr Hlk Hs; subst r s'; symmetry in Hlk. eapply Hexit; eauto. }
  rewrite bind_eq in Hrun. fold dest in Hrun.
  destruct (os_Rename tab dest s2) as [e3 s3] eqn:E3.
  pose proof (os_Rename_touches P' _ _ _ _ _ Ptab Pdest E3) as T3.
  assert (touches P' s s3) as T03 by (eapply touches_trans; eauto).
  apply os_Rename_inv in E3 as (M3 & F3).
  assert (same_memory s s3) as M03 by (eapply same_memory_trans; eauto).
  destruct e3 as [e|].
  { unfold ret in Hrun; injection Hrun as Hr Hlk Hs; subst r s'; symmetry in Hlk. eapply Hexit; eauto. }
  destruct F3 as [(_ & c3 & Hc3 & F3)|[N3 _]]; [|congruence].
  rewrite bind_eq in Hrun.
  destruct (file_Write (Some lock) _ s3) as [e4 s4] eqn:E4.
  pose proof (file_Write_touches P' _ _ _ _ _ Plock E4) as T4.
  assert (touches P' s s4) as T04 by (eapply touches_trans; eauto).
  apply file_Write_inv in E4 as (M4 & F4).
  assert (same_memory s s4) as M04 by (eapply same_memory_trans; eauto).
  destruct e4 as [e|].
  { rewrite bind_eq in Hrun. destruct (os_Remove dest s4) as [u sr] eqn:ER.
    pose proof (os_Remove_touches P' _ _ _ _ Pdest ER) as TR.
    apply os_Remove_inv in ER as (MR & _).
    unfold ret in Hrun; injection Hrun as Hr Hlk Hs; subst r s'; symmetry in Hlk.
    eapply Hexit; eauto using touches_trans, same_memory_trans. }
  destruct F4 as [[_ F4]|[N4 _]]; [|congruence].
  rewrite bind_eq in Hrun.
  destruct (file_Close (Some lock) s4) as [e5 s5] eqn:E5.
  apply file_Close_inv in E5 as (F5 & M5).
  assert (touches P' s s5) as T05 by (intros q Hq; rewrite F5; apply T04, Hq).
  assert (same_memory s s5) as M05 by (eapply same_memory_trans; eauto).
  destruct e5 as [e|].
  { rewrite bind_eq in Hrun. destruct (os_Remove dest s5) as [u sr] eqn:ER.
    pose proof (os_Remove_touches P' _ _ _ _ Pdest ER) as TR.
    apply os_Remove_inv in ER as (MR & _).
    unfold ret in Hrun; injection Hrun as Hr Hlk Hs; subst r s'; symmetry in Hlk.
    eapply Hexit; eauto using touches_trans, same_memory_trans. }
  rewrite bind_eq in Hrun.
  destruct (os_Rename lock (listFile (st s)) s5) as [e6 s6] eqn:E6.
  apply os_Rename_inv in E6 as (M6 & F6).
  assert (same_memory s s6) as M06 by (eapply same_memory_trans; eauto).
  destruct e6 as [e|].
  { destruct F6 as [(N6 & _)|[_ F6]]; [discriminate|].
    assert (touches P' s s6) as T06 by (intros q Hq; rewrite F6; apply T05, Hq).
    rewrite bind_eq in Hrun. destruct (os_Remove dest s6) as [u sr] eqn:ER.
    pose proof (os_Remove_touches P' _ _ _ _ Pdest ER) as TR.
    apply os_Remove_inv in ER as (MR & _).
    unfold ret in Hrun; injection Hrun as Hr Hlk Hs; subst r s'; symmetry in Hlk.
    eapply Hexit; eauto using touches_trans, same_memory_trans. }
  destruct F6 as [(_ & c6 & Hc6 & F6)|[N6 _]]; [|congruence].
  rewrite bind_eq in Hrun. destruct (reload s6) as [err s7] eqn:E7.
  apply reload_frame in E7 as (F7 & C7).
  inversion Hrun; subst err lk s7. clear Hrun.
  split; [|split; [|split; [|auto]]].
  - intros q Hq. rewrite F7, F6.
    rewrite lookup_insert_ne by (intros <-; apply Hq; unfold P; auto).
    rewrite lookup_delete_ne by (intros <-; apply Hq; unfold P; auto).
    apply T05. intros HP'. apply Hq, Hmono, HP'.
  - eapply same_config_trans; [apply same_memory_config, M06|exact C7].
  - intros Hlockfile Htl Htm Hsuffix. right.
    assert (dest <> lock) as Hdl by (subst lock; apply table_path_not_lock).
    rewrite F7, F6, lookup_insert_eq. rewrite <- Hc6. 
    rewrite F5, F4.
    assert (files s3 !! lock = Some (Text EmptyString)) as Hl3.
    { rewrite F3, lookup_insert_ne by congruence.
      rewrite lookup_delete_ne by congruence. rewrite F2, F1.
      destruct (files s !! tab); [rewrite lookup_insert_ne by congruence|]; exact Hlockfile. }
    rewrite Hl3. cbn [String.append]. apply lookup_insert_eq.
Qed.

Lemma temp_path_suffix dir pre x :
  has_suffix ".ref" (filepath_Join dir (pre +:+ x +:+ ".ref")) = true.
Proof. rewrite <- append_assoc. apply table_path_suffix. Qed.

(** [add], whatever it returns: the files it may have touched, and what
    has become of the manifest. *)
Lemma add_effect write s r s' :
  add write s = (r, s') ->
  let lf := listFile (st s) in
  let new := formatName (NextUpdateIndex s) (NextUpdateIndex s) +:+ ".ref" in
  touches (add_paths s) s s' /\ same_config s s'
  /\ (has_suffix ".ref" lf = false ->
      (files s' !! lf = files s !! lf /\ r <> None)
      \/ (manifest_names (files s) lf = stackNames s
          /\ files s' !! lf = Some (Text (strings_Join (stackNames s ++ [new]))))).
Proof.
  intros Hrun lf new. set (P := add_paths s).
  set (lock := lf +:+ ".lock").
  set (dir := reftableDir (st s)).
  set (fn := formatName (NextUpdateIndex s) (NextUpdateIndex s)).
  set (P' := fun q : string =>
               q = lock \/ exists x, q = filepath_Join dir (fn +:+ x +:+ ".ref")).
  assert (forall q, P' q -> P q) as Hmono.
  { unfold P, P', add_paths. intros q [Hq|Hq]; auto. }
  assert (P' lock) as Plock by (unfold P'; auto).
  assert (lf <> lock) as Hll.
  { intros Heq. symmetry in Heq. revert Heq. apply append_neq_self. discriminate. }
  assert (has_suffix ".ref" lf = false -> ~ P' lf) as Hlf.
  { intros Hsuffix [Hq|[x Hq]]; [congruence|].
    pose proof (temp_path_suffix dir fn x) as Hs. rewrite <- Hq in Hs. congruence. }
  assert (forall e,
            touches P' s s' -> same_memory s s' -> r = Some e ->
            touches P s s' /\ same_config s s'
            /\ (has_suffix ".ref" lf = false ->
                (files s' !! lf = files s !! lf /\ r <> None)
                \/ (manifest_names (files s) lf = stackNames s
                    /\ files s' !! lf
                       = Some (Text (strings_Join (stackNames s ++ [new])))))) as Hexit.
  { intros e T M ->. split; [eapply touches_mono; eauto|].
    split; [apply same_memory_config, M|].
    intros Hsuffix. left. split; [|discriminate]. apply T, Hlf, Hsuffix. }
  unfold add in Hrun. rewrite bind_get, bind_eq in Hrun. fold lf lock in Hrun.
  destruct (os_OpenFile_excl lock s) as [[f e] s1] eqn:E1.
  pose proof (os_OpenFile_excl_touches P' _ _ _ _ Plock E1) as T1.
  apply os_OpenFile_excl_inv in E1 as (M1 & F1).
  destruct (os_IsExist e) eqn:Hexist.
  { unfold ret in Hrun; injection Hrun as Hr Hs; subst r s'. eapply Hexit; eauto. }
  destruct e as [e|].
  { unfold ret in Hrun; injection Hrun as Hr Hs; subst r s'. eapply Hexit; eauto. }
  destruct F1 as [(_ & -> & Hfresh & F1)|(N1 & _)]; [|congruence].
  rewrite bind_eq in Hrun.
  destruct (add_locked write (Some lock) s1) as [[res lk] s2] eqn:E2.
  rewrite bind_eq in Hrun.
  destruct ((if String.eqb lk EmptyString then ret None else os_Remove lk) s2)
    as [u3 s3] eqn:E3.
  rewrite bind_eq in Hrun.
  destruct (file_Close (Some lock) s3) as [u4 s4] eqn:E4.
  unfold ret in Hrun; injection Hrun as Hr Hs; subst res s4.
  apply file_Close_inv in E4 as (F4 & M4).
  (* the body, under the lock *)
  unfold add_locked in E2. rewrite bind_get, bind_eq in E2.
  destruct M1 as [Hh1 Hst1].
  rewrite Hst1 in E2. fold lf lock in E2.
  destruct (UpToDate s1) as [[ok err] s5] eqn:E5.
  apply UpToDate_inv in E5 as (F5 & M5 & Hup).
  assert (same_memory s s5) as M05 by (eapply same_memory_trans; [split|]; eauto).
  assert (touches P' s s5) as T05 by (intros q Hq; rewrite F5; apply T1, Hq).
  assert (forall sk, touches P' s sk -> same_memory s sk -> s2 = sk ->
            lk = lock -> touches P' s s' /\ same_memory s s') as Hleave.
  { intros sk T M -> ->. unfold lock in E3 at 1.
    destruct (String.eqb_spec (lf +:+ ".lock") EmptyString) as [Hempty|_].
    { destruct lf; discriminate. }
    fold lock in E3.
    pose proof (os_Remove_touches P' _ _ _ _ Plock E3) as T3.
    apply os_Remove_inv in E3 as (M3 & _).
    split.
    - eapply touches_trans; [exact T|]. eapply touches_trans; [exact T3|].
      apply touches_files, F4.
    - eapply same_memory_trans; [exact M|]. eapply same_memory_trans; eauto. }
  destruct err as [e|].
  { unfold ret in E2; injection E2 as Hr Hlk Hs; subst r.
    destruct (Hleave s5) as [T M]; auto. eapply Hexit; eauto. }
  destruct ok; cbn [negb] in E2.
  2:{ unfold ret in E2; injection E2 as Hr Hlk Hs; subst r.
      destruct (Hleave s5) as [T M]; auto. eapply Hexit; eauto. }
  specialize (Hup eq_refl).
  rewrite bind_get, bind_eq in E2.
  rewrite (stackNames_same _ _ M05), (NextUpdateIndex_same _ _ M05) in E2.
  destruct M05 as [Hh05 Hst05]. rewrite Hst05 in E2. fold dir fn in E2.
  destruct (ioutil_TempFile dir fn ".ref" s5) as [tab s6] eqn:E6.
  assert (touches P' s5 s6) as T6.
  { eapply ioutil_TempFile_touches; [|exact E6]. intros x. unfold P'. eauto. }
  assert (touches P' s s6) as T06 by (eapply touches_trans; eauto).
  pose proof E6 as E6'.
  apply ioutil_TempFile_inv in E6 as (M6 & Htab).
  assert (same_memory s s6) as M06 by (eapply same_memory_trans; [split|]; eauto).
  destruct tab as [tab|e].
  2:{ unfold ret in E2; injection E2 as Hr Hlk Hs; subst r.
      destruct (Hleave s6) as [T M]; auto. eapply Hexit; eauto. }
  apply ioutil_TempFile_form in E6' as [x Hx].
  destruct Htab as [Htabfresh F6].
  rewrite bind_eq in E2.
  destruct (add_table write (Some lock) tab _ _ _ s6) as [[res' lk'] s7] eqn:E7.
  rewrite bind_eq in E2.
  destruct (os_Remove (file_Name (Some lock)) s7) as [u8 s8] eqn:E8.
  unfold ret in E2; injection E2 as Hr Hlk Hs; subst res' lk' s8.
  cbn [file_Name] in E8.
  pose proof E8 as T8'.
  apply os_Remove_inv in E8 as (M8 & _).
  destruct M06 as [Hh06 Hst06].
  apply add_table_effect in E7; [|rewrite Hst06; reflexivity].
  rewrite Hst06 in E7. fold lf dir in E7.
  destruct E7 as (T7 & C7 & Hatomic & Hlk).
  (* from the return of the table part to the return of [add] *)
  assert (touches (fun q => q = lock) s7 s' /\ same_memory s7 s') as [Tend Mend].
  { split.
    - eapply touches_trans; [eapply os_Remove_touches; [|exact T8'] ; reflexivity|].
      eapply touches_trans; [|apply touches_files, F4].
      destruct Hlk as [-> | ->].
      + unfold lock in E3 at 1.
        destruct (String.eqb_spec (lf +:+ ".lock") EmptyString) as [Hempty|_].
        { destruct lf; discriminate. }
        eapply os_Remove_touches; [|exact E3]. reflexivity.
      + cbn in E3. injection E3 as _ <-. apply touches_refl.
    - eapply same_memory_trans; [exact M8|]. eapply same_memory_trans; [|exact M4].
      destruct (String.eqb lk EmptyString).
      + injection E3 as _ <-. apply same_memory_refl.
      + apply os_Remove_inv in E3. apply E3. }
  assert (forall q, q <> lock -> files s' !! q = files s7 !! q) as Fend.
  { intros q Hq. apply Tend. exact Hq. }
  assert (P' tab) as Ptab by (unfold P'; eauto).
  assert (P' (filepath_Join dir (fn +:+ ".ref"))) as Pdest.
  { unfold P'. right. exists EmptyString. reflexivity. }
  split; [|split].
  - intros q Hq. rewrite Fend by (intros ->; apply Hq, Hmono, Plock).
    rewrite T7.
    + apply T06. intros HP'. apply Hq, Hmono, HP'.
    + intros [-> | [-> | [-> | ->]]]; apply Hq; auto using Hmono.
      unfold P, add_paths. auto.
  - eapply same_config_memory_trans; [|exact Mend].
    eapply same_config_trans; [apply same_memory_config; split; eassumption|exact C7].
  - intros Hsuffix.
    assert (files s6 !! lf = files s !! lf) as Hlf6 by (apply T06, Hlf, Hsuffix).
    rewrite Fend by exact Hll.
    assert (files s5 !! lock = Some (Text EmptyString)) as Hl5
      by (rewrite F5, F1; apply lookup_insert_eq).
    assert (tab <> lock) as Htl by congruence.
    destruct Hatomic as [[Hsame Hne]|Hnew]; try assumption.
    + rewrite F6, lookup_insert_ne by congruence. exact Hl5.
    + intros ->. apply (Hlf Hsuffix). exact Ptab.
    + left. rewrite Hsame. auto.
    + right. split; [|exact Hnew].
      rewrite (stackNames_same s s1) in Hup by (split; assumption).
      rewrite Hst1 in Hup. rewrite <- Hup. unfold manifest_names. fold lf.
      rewrite F1, lookup_insert_ne by congruence. reflexivity.
Qed.


(** X18: the manifest is replaced as a whole or not at all.  After [add],
    when the manifest path does not end in [.ref], either the manifest
    is what it was and [add] has returned an error, or the stack was up
    to date and the manifest lists the names of the stack followed by the
    new table.  So an [add] on a stale stack fails and leaves the
    manifest alone, and an [add] that returns no error has installed the
    new manifest. *)
Theorem add_manifest_atomic (write : Writer -> Writer * option error) (s s' : State)
    (r : option error) :
  has_suffix ".ref" (listFile (st s)) = false ->
  add write s = (r, s') ->
  (files s' !! listFile (st s) = files s !! listFile (st s) /\ r <> None)
  \/ (manifest_names (files s) (listFile (st s)) = stackNames s
      /\ files s' !! listFile (st s)
         = Some (Text (strings_Join
                         (stackNames s
                          ++ [formatName (NextUpdateIndex s) (NextUpdateIndex s)
                              +:+ ".ref"])))).
Proof. intros Hsuffix Hrun. apply add_effect in Hrun as (_ & _ & Hatomic). auto. Qed.

(** X16: while the manifest lock exists, [add] returns [ErrLockFailure]
    at once, the callback not run and nothing changed; [Add] reloads the
    stack and returns [ErrLockFailure], without touching a file. *)
Theorem Add_lock_held (write : Writer -> Writer * option error) (s : State) :
  is_Some (files s !! (listFile (st s) +:+ ".lock")) ->
  add write s = (Some ErrLockFailure, s)
  /\ exists s', Add write s = (Returns (Some ErrLockFailure), s')
                /\ files s' = files s /\ same_config s s'.
Proof.
  intros [c Hlock].
  assert (add write s = (Some ErrLockFailure, s)) as Hadd.
  { unfold add. rewrite bind_get, bind_eq. unfold os_OpenFile_excl. rewrite Hlock.
    reflexivity. }
  split; [exact Hadd|]. unfold Add. rewrite bind_eq, Hadd. cbn [is_ErrLockFailure].
  rewrite bind_eq. destruct (reload s) as [err s'] eqn:Hreload.
  apply reload_frame in Hreload as [Hf Hc]. exists s'. auto.
Qed.


(** The readers of the stack after a reload that kept the readers [ptrs]
    of the heap [heap s] and appended [rnew] to the heap. *)
Lemma readers_after s s' rnew ptrs :
  readers_eq (heap s ++ [rnew]) (heap s') ->
  Forall (fun p => (p < length (heap s))%nat) ptrs ->
  map close_reader (map (reader s') ptrs) = map close_reader (map (reader s) ptrs)
  /\ close_reader (reader s' (length (heap s))) = close_reader rnew.
Proof.
  intros Heq Hvalid. split.
  - rewrite !map_map. apply map_ext_in. intros p Hp.
    rewrite Forall_forall in Hvalid. apply list_elem_of_In, Hvalid in Hp.
    unfold reader. rewrite <- (readers_eq_lookup _ _ p Heq).
    rewrite lookup_total_app_l by exact Hp. reflexivity.
  - unfold reader. rewrite <- (readers_eq_lookup _ _ _ Heq).
    rewrite list_lookup_total_middle by reflexivity. reflexivity.
Qed.

End Effects.



(** ** Compaction in general *)

Section Compaction.
Context `{Collaborators}.

(** X20: a [compactRange] of more than one table that finds the manifest
    lock held counts an attempt and returns false without an error and
    without touching anything else; [compactRangeStats] counts a failure
    as well. *)
Theorem compactRange_lock_held (s : State) (first last : Z) :
  first < last ->
  is_Some (files s !! (listFile (st s) +:+ ".lock")) ->
  compactRange first last s = (Returns (false, None), count_attempt s)
  /\ compactRangeStats first last s
     = (Returns (false, None), count_failure (count_attempt s)).
Proof.
  intros Hlt [c Hlock].
  assert (compactRange first last s = (Returns (false, None), count_attempt s)) as Hrun.
  { unfold compactRange. destruct (first >=? last) eqn:Hge; [lia|].
    rewrite bind_eq. unfold modify at 1. fold (count_attempt s).
    rewrite bind_get, bind_eq. unfold os_OpenFile_excl.
    change (files (count_attempt s)) with (files s).
    change (listFile (st (count_attempt s))) with (listFile (st s)).
    rewrite Hlock. reflexivity. }
  split; [exact Hrun|]. unfold compactRangeStats. rewrite bind_eq, Hrun. reflexivity.
Qed.

(** X21: [CompactAll] on a stack of no table or one table returns no
    error and changes nothing, statistics included. *)
Theorem CompactAll_small (s : State) :
  (length (stack (st s)) <= 1)%nat -> CompactAll s = (Returns None, s).
Proof.
  intros Hlen. unfold CompactAll. rewrite bind_get, bind_eq. unfold compactRange.
  destruct (0 >=? Z.of_nat (length (stack (st s))) - 1) eqn:Hge; [reflexivity|lia].
Qed.

Lemma tableSizes_range s :
  Forall (fun sz => 0 <= sz < two64) (tableSizesForCompaction s).
Proof.
  unfold tableSizesForCompaction. apply Forall_forall. intros sz Hsz.
  apply list_elem_of_fmap in Hsz as (p & -> & _). apply wrap64_range.
Qed.

(** X24: [AutoCompact] does nothing and returns no error on a stack in
    which no two adjacent tables have sizes (file size minus 91) of the
    same [log2], the sizes being non-zero with a sum that fits in 64
    bits. *)
Theorem AutoCompact_balanced (s : State) :
  Forall (fun sz => sz <> 0) (tableSizesForCompaction s) ->
  sum_sizes (tableSizesForCompaction s) < two64 ->
  (forall i a b,
     tableSizesForCompaction s !! i = Some a ->
     tableSizesForCompaction s !! S i = Some b -> Z.log2 a <> Z.log2 b) ->
  AutoCompact s = (Returns None, s).
Proof.
  intros Hnz Hsum Hlogs.
  assert (Forall (fun sz => 0 < sz) (tableSizesForCompaction s)) as Hpos.
  { pose proof (tableSizes_range s) as Hr. rewrite Forall_forall in *.
    intros sz Hsz. specialize (Hr sz Hsz). specialize (Hnz sz Hsz). cbn in *. lia. }
  destruct (suggestCompactionSegment_balanced _ Hpos Hsum) as (r & Hr & Hiff).
  unfold AutoCompact. rewrite bind_get, Hr. destruct r as [seg|]; [|reflexivity].
  exfalso. destruct Hiff as [Hiff _].
  destruct (Hiff ltac:(eauto)) as (i & a & b & Ha & Hb & Hab).
  exact (Hlogs i a b Ha Hb Hab).
Qed.

(** ** What a compaction touches, and that it does not panic *)

Lemma stackAt_in_range s i :
  0 <= i < Z.of_nat (length (stack (st s))) -> is_Some (stackAt s i).
Proof.
  intros Hi. unfold stackAt. destruct (i <? 0) eqn:Hneg; [lia|].
  destruct (lookup_lt_is_Some_2 (stack (st s)) (Z.to_nat i)) as [p ->]; [lia|].
  cbn. eauto.
Qed.

Lemma subtabs_loop_returns s n : forall i acc,
  0 <= i -> i + Z.of_nat n <= Z.of_nat (length (stack (st s))) ->
  exists r, subtabs_loop s i n acc = Returns r.
Proof.
  induction n as [|n IH]; intros i acc Hi Hn; cbn [subtabs_loop]; [eauto|].
  unfold stackPtrAt. destruct (i <? 0) eqn:Hneg; [lia|].
  destruct (lookup_lt_is_Some_2 (stack (st s)) (Z.to_nat i)) as [p ->]; [lia|].
  apply IH; lia.
Qed.

Lemma writeCompact_returns s wr first last :
  0 <= first -> first <= last -> last < Z.of_nat (length (stack (st s))) ->
  exists r, writeCompact s wr first last = Returns r.
Proof.
  intros Hf0 Hle Hlen. unfold writeCompact.
  destruct (stackAt_in_range s first) as [rf ->]; [lia|].
  destruct (stackAt_in_range s last) as [rl ->]; [lia|].
  destruct (subtabs_loop_returns s (Z.to_nat (last - first + 1)) first []) as [subtabs ->];
    [lia|lia|].
  destruct (newMergedErr _); [eauto|].
  destruct (seekRef _); [|eauto].
  destruct (writeRefs_loop _ _ _) as [wr1 [e|]]; [eauto|].
  destruct (seekLog _); eauto.
Qed.

Section Range.
Variables (s0 : State) (first last : Z).

Lemma compact_paths_lock : compact_paths s0 first last (listFile (st s0) +:+ ".lock").
Proof. unfold compact_paths. auto. Qed.

Lemma compact_paths_manifest : compact_paths s0 first last (listFile (st s0)).
Proof. unfold compact_paths. auto. Qed.

Lemma compact_paths_table i r :
  first <= i <= last -> stackAt s0 i = Some r ->
  compact_paths s0 first last (filepath_Join (reftableDir (st s0)) (r_name r))
  /\ compact_paths s0 first last (filepath_Join (reftableDir (st s0)) (r_name r) +:+ ".lock").
Proof. intros Hi Hr. unfold compact_paths. split; right; right; right; eauto 10. Qed.

Lemma compact_paths_named rf rl x :
  stackAt s0 first = Some rf -> stackAt s0 last = Some rl ->
  compact_paths s0 first last (filepath_Join (reftableDir (st s0))
       (formatName (r_min rf) (r_max rl) +:+ x +:+ ".ref")).
Proof. intros Hrf Hrl. unfold compact_paths. right; right; left. eauto 10. Qed.

Lemma subtableLocks_loop_effect n : forall i sl ds s exit sl' ds' s',
  subtableLocks_loop i n sl ds s = ((exit, sl', ds'), s') ->
  same_memory s0 s -> first <= i -> i + Z.of_nat n <= last + 1 ->
  Forall (compact_paths s0 first last) sl -> Forall (compact_paths s0 first last) ds ->
  same_memory s s' /\ touches (compact_paths s0 first last) s s' /\ Forall (compact_paths s0 first last) sl' /\ Forall (compact_paths s0 first last) ds'
  /\ ((0 <= first /\ last < Z.of_nat (length (stack (st s0)))) -> forall m, exit <> Some (Panics m)).
Proof.
  induction n as [|n IH]; intros i sl ds s exit sl' ds' s' Hrun M0 Hi Hn Hsl Hds;
    cbn [subtableLocks_loop] in Hrun.
  - inversion Hrun; subst. split; [apply same_memory_refl|].
    split; [apply touches_refl|]. split; [auto|]. split; [auto|]. discriminate.
  - rewrite bind_get in Hrun. rewrite (stackAt_same _ _ i M0) in Hrun.
    destruct (stackAt s0 i) as [r|] eqn:Hr.
    2:{ inversion Hrun; subst. split; [apply same_memory_refl|].
        split; [apply touches_refl|]. split; [auto|]. split; [auto|].
        intros [Hf0 Hlen]. exfalso.
        destruct (stackAt_in_range s0 i) as [x Hx]; [lia|]. congruence. }
    destruct (compact_paths_table i r ltac:(lia) Hr) as [Ptab Plk].
    assert (reftableDir (st s) = reftableDir (st s0)) as Hd by (destruct M0 as [_ ->]; reflexivity).
    rewrite Hd in Hrun. rewrite bind_eq in Hrun.
    destruct (os_OpenFile_excl _ s) as [[l e] s1] eqn:E1.
    pose proof (os_OpenFile_excl_touches (compact_paths s0 first last) _ _ _ _ Plk E1) as T1.
    apply os_OpenFile_excl_inv in E1 as (M1 & _).
    destruct (os_IsExist e).
    { inversion Hrun; subst. repeat split; try assumption; try apply M1. discriminate. }
    destruct e as [e|].
    { inversion Hrun; subst. repeat split; try assumption; try apply M1. discriminate. }
    rewrite bind_eq in Hrun. destruct (file_Close l s1) as [e2 s2] eqn:E2.
    apply file_Close_inv in E2 as (F2 & M2).
    assert (same_memory s s2) as M02 by (eapply same_memory_trans; eauto).
    apply IH in Hrun; try lia.
    + destruct Hrun as (M3 & T3 & Hsl' & Hds' & Hpanic).
      split; [eapply same_memory_trans; eauto|].
      split; [|auto].
      eapply touches_trans; [exact T1|]. eapply touches_trans; [apply touches_files, F2|exact T3].
    + eapply same_memory_trans; eauto.
    + apply Forall_app. split; [exact Hsl|]. apply Forall_cons. split; [exact Plk|constructor].
    + apply Forall_app. split; [exact Hds|]. apply Forall_cons. split; [exact Ptab|constructor].
Qed.

Lemma compactLocked_effect s r s' :
  compactLocked first last s = (r, s') -> same_memory s0 s ->
  same_memory s s' /\ touches (compact_paths s0 first last) s s'
  /\ (forall tmp, r = Returns (inl tmp) -> (compact_paths s0 first last) tmp)
  /\ ((0 <= first /\ last < Z.of_nat (length (stack (st s0)))) -> first <= last -> forall m, r <> Panics m).
Proof.
  intros Hrun M0. unfold compactLocked in Hrun. rewrite bind_get in Hrun.
  rewrite !(stackAt_same _ _ _ M0) in Hrun.
  assert ((0 <= first /\ last < Z.of_nat (length (stack (st s0)))) -> first <= last ->
          is_Some (stackAt s0 first) /\ is_Some (stackAt s0 last)) as Hin.
  { intros [Hf0 Hlen] Hle. split; apply stackAt_in_range; lia. }
  destruct (stackAt s0 first) as [rf|] eqn:Hrf.
  2:{ inversion Hrun; subst. split; [apply same_memory_refl|]. split; [apply touches_refl|].
      split; [discriminate|]. intros Hr Hle. destruct (Hin Hr Hle) as [[? ?] _]. discriminate. }
  destruct (stackAt s0 last) as [rl|] eqn:Hrl.
  2:{ inversion Hrun; subst. split; [apply same_memory_refl|]. split; [apply touches_refl|].
      split; [discriminate|]. intros Hr Hle. destruct (Hin Hr Hle) as [_ [? ?]]. discriminate. }
  assert (reftableDir (st s) = reftableDir (st s0)) as Hd by (destruct M0 as [_ ->]; reflexivity).
  rewrite Hd in Hrun. rewrite bind_eq in Hrun.
  assert (forall x, compact_paths s0 first last (filepath_Join (reftableDir (st s0))
                         ((formatName (r_min rf) (r_max rl) +:+ "_") +:+ x +:+ ".ref")))
    as Ptmp.
  { intros x. rewrite append_assoc. exact (compact_paths_named rf rl ("_" +:+ x) Hrf Hrl). }
  destruct (ioutil_TempFile _ _ _ s) as [t s1] eqn:E1.
  pose proof (ioutil_TempFile_touches (compact_paths s0 first last) _ _ _ _ _ _ Ptmp E1) as T1.
  pose proof E1 as E1'.
  apply ioutil_TempFile_inv in E1 as (M1 & _).
  destruct t as [t|e].
  2:{ inversion Hrun; subst. repeat split; try assumption; try apply M1; discriminate. }
  apply ioutil_TempFile_form in E1' as [x Hx].
  assert ((compact_paths s0 first last) t) as Pt by (rewrite Hx; apply Ptmp).
  rewrite bind_eq in Hrun.
  destruct (compactLocked_write first last t s1) as [[res rm] s2] eqn:E2.
  rewrite bind_eq in Hrun.
  destruct ((if String.eqb rm EmptyString then ret None else os_Remove rm) s2) as [u3 s3] eqn:E3.
  rewrite bind_eq in Hrun.
  destruct (file_Close (Some t) s3) as [u4 s4] eqn:E4.
  inversion Hrun; subst res s4. clear Hrun.
  apply file_Close_inv in E4 as (F4 & M4).
  assert (same_memory s1 s2 /\ touches (compact_paths s0 first last) s1 s2 /\ (rm = t \/ rm = EmptyString)
          /\ (forall tmp, r = Returns (inl tmp) -> tmp = t)
          /\ ((0 <= first /\ last < Z.of_nat (length (stack (st s0)))) -> first <= last -> forall m, r <> Panics m)) as (M2 & T2 & Hrm & Hres & Hpanic).
  { unfold compactLocked_write in E2. rewrite bind_get in E2.
    destruct (NewWriter t (cfg (st s1))) as [wr0|e].
    2:{ inversion E2; subst. split; [apply same_memory_refl|]. split; [apply touches_refl|].
        split; [auto|]. split; discriminate. }
    assert (same_memory s0 s1) as M01 by (eapply same_memory_trans; eauto).
    rewrite (writeCompact_same _ _ _ _ _ M01) in E2.
    destruct (writeCompact s0 wr0 first last) as [[wr [e|]]|m] eqn:Hwc.
    { inversion E2; subst. split; [apply same_memory_refl|]. split; [apply touches_refl|].
      split; [auto|]. split; discriminate. }
    2:{ inversion E2; subst. split; [apply same_memory_refl|]. split; [apply touches_refl|].
        split; [auto|]. split; [discriminate|]. intros [Hf0 Hlen] Hle.
        destruct (writeCompact_returns s0 wr0 first last) as [y Hy]; try lia. congruence. }
    rewrite bind_eq in E2.
    destruct (Writer_Close t wr s1) as [e5 s5] eqn:E5.
    pose proof (Writer_Close_touches (compact_paths s0 first last) _ _ _ _ _ Pt E5) as T5.
    apply Writer_Close_inv in E5 as (M5 & _).
    destruct e5 as [e|].
    { inversion E2; subst. repeat split; try assumption; try apply M5; auto; discriminate. }
    rewrite bind_eq in E2.
    destruct (file_Close (Some t) s5) as [e6 s6] eqn:E6.
    apply file_Close_inv in E6 as (F6 & M6).
    assert (touches (compact_paths s0 first last) s1 s6) as T6 by (intros q Hq; rewrite F6; apply T5, Hq).
    assert (same_memory s1 s6) as M16 by (eapply same_memory_trans; eauto).
    destruct e6 as [e|]; inversion E2; subst.
    - split; [exact M16|]. split; [exact T6|]. split; [auto|]. split; discriminate.
    - split; [exact M16|]. split; [exact T6|]. split; [auto|].
      split; [intros tmp Htmp; congruence|discriminate]. }
  assert (same_memory s2 s3 /\ touches (compact_paths s0 first last) s2 s3) as [M3 T3].
  { destruct Hrm as [-> | ->].
    - destruct (String.eqb t EmptyString).
      + inversion E3; subst. split; [apply same_memory_refl|apply touches_refl].
      + pose proof (os_Remove_touches (compact_paths s0 first last) _ _ _ _ Pt E3). apply os_Remove_inv in E3 as [M3 _].
        auto.
    - cbn in E3. inversion E3; subst. split; [apply same_memory_refl|apply touches_refl]. }
  split.
  { repeat (eapply same_memory_trans; [eassumption|]). apply same_memory_refl. }
  split.
  { eapply touches_trans; [exact T1|]. eapply touches_trans; [exact T2|].
    eapply touches_trans; [exact T3|]. apply touches_files, F4. }
  split; [|exact Hpanic].
  intros tmp Htmp. rewrite (Hres tmp Htmp). exact Pt.
Qed.

Lemma compactRange_install_effect tmp ds s r lk s' :
  compactRange_install first last tmp (Some (listFile (st s0) +:+ ".lock")) ds s
  = ((r, lk), s') ->
  same_memory s0 s -> (compact_paths s0 first last) tmp -> Forall (compact_paths s0 first last) ds ->
  touches (compact_paths s0 first last) s s'
  /\ (lk = listFile (st s0) +:+ ".lock" \/ lk = EmptyString)
  /\ ((0 <= first /\ last < Z.of_nat (length (stack (st s0)))) -> first <= last -> forall m, r <> Panics m).
Proof.
  intros Hrun M0 Ptmp Pds. unfold compactRange_install in Hrun.
  rewrite bind_get in Hrun. rewrite !(stackAt_same _ _ _ M0) in Hrun.
  assert (listFile (st s) = listFile (st s0) /\ reftableDir (st s) = reftableDir (st s0))
    as [Hl Hd] by (destruct M0 as [_ ->]; auto).
  rewrite Hl, Hd in Hrun.
  assert ((0 <= first /\ last < Z.of_nat (length (stack (st s0)))) -> first <= last ->
          is_Some (stackAt s0 first) /\ is_Some (stackAt s0 last)) as Hin.
  { intros [Hf0 Hlen] Hle. split; apply stackAt_in_range; lia. }
  destruct (stackAt s0 first) as [rf|] eqn:Hrf.
  2:{ inversion Hrun; subst. split; [apply touches_refl|]. split; [auto|].
      intros Hr Hle. destruct (Hin Hr Hle) as [[? ?] _]. discriminate. }
  destruct (stackAt s0 last) as [rl|] eqn:Hrl.
  2:{ inversion Hrun; subst. split; [apply touches_refl|]. split; [auto|].
      intros Hr Hle. destruct (Hin Hr Hle) as [_ [? ?]]. discriminate. }
  clear Hin.
  set (lock := listFile (st s0) +:+ ".lock") in *.
  set (dest := filepath_Join (reftableDir (st s0))
                 (formatName (r_min rf) (r_max rl) +:+ ".ref")) in *.
  assert ((compact_paths s0 first last) dest) as Pdest by exact (compact_paths_named rf rl EmptyString Hrf Hrl).
  pose proof compact_paths_lock as Plock. fold lock in Plock. pose proof compact_paths_manifest as Pman.
  rewrite bind_eq in Hrun.
  destruct (os_Rename tmp dest s) as [e1 s1] eqn:E1.
  pose proof (os_Rename_touches (compact_paths s0 first last) _ _ _ _ _ Ptmp Pdest E1) as T1.
  destruct e1 as [e|].
  { inversion Hrun; subst. split; [exact T1|]. split; [auto|]. discriminate. }
  rewrite bind_eq in Hrun.
  destruct (file_Write (Some lock) _ s1) as [e2 s2] eqn:E2.
  pose proof (file_Write_touches (compact_paths s0 first last) _ _ _ _ _ Plock E2) as T2.
  assert (touches (compact_paths s0 first last) s s2) as T02 by (eapply touches_trans; eauto).
  destruct e2 as [e|].
  { rewrite bind_eq in Hrun. destruct (os_Remove dest s2) as [u sr] eqn:ER.
    pose proof (os_Remove_touches (compact_paths s0 first last) _ _ _ _ Pdest ER) as TR.
    inversion Hrun; subst. split; [eapply touches_trans; eauto|]. split; [auto|]. discriminate. }
  rewrite bind_eq in Hrun.
  destruct (file_Close (Some lock) s2) as [e3 s3] eqn:E3.
  pose proof (file_Close_touches (compact_paths s0 first last) _ _ _ _ E3) as T3.
  rewrite bind_eq in Hrun.
  destruct ((match e3 with Some _ => os_Remove dest | None => ret None end) s3)
    as [u4 s4] eqn:E4.
  assert (touches (compact_paths s0 first last) s3 s4) as T4.
  { destruct e3; [exact (os_Remove_touches (compact_paths s0 first last) _ _ _ _ Pdest E4)|].
    inversion E4; subst. apply touches_refl. }
  assert (touches (compact_paths s0 first last) s s4) as T04.
  { eapply touches_trans; [exact T02|]. eapply touches_trans; eauto. }
  rewrite bind_eq in Hrun.
  destruct (os_Rename lock (listFile (st s0)) s4) as [e5 s5] eqn:E5.
  pose proof (os_Rename_touches (compact_paths s0 first last) _ _ _ _ _ Plock Pman E5) as T5.
  assert (touches (compact_paths s0 first last) s s5) as T05 by (eapply touches_trans; eauto).
  destruct e5 as [e|].
  { rewrite bind_eq in Hrun. destruct (os_Remove dest s5) as [u sr] eqn:ER.
    pose proof (os_Remove_touches (compact_paths s0 first last) _ _ _ _ Pdest ER) as TR.
    inversion Hrun; subst. split; [eapply touches_trans; eauto|]. split; [auto|]. discriminate. }
  rewrite bind_eq in Hrun.
  destruct (removeAll ds s5) as [u6 s6] eqn:E6.
  pose proof (removeAll_touches (compact_paths s0 first last) _ _ _ _ Pds E6) as T6.
  rewrite bind_eq in Hrun.
  destruct (reload s6) as [err s7] eqn:E7.
  pose proof (reload_touches (compact_paths s0 first last) _ _ _ E7) as T7.
  inversion Hrun; subst. split; [|split; [auto|discriminate]].
  eapply touches_trans; [exact T05|]. eapply touches_trans; eauto.
Qed.

Lemma compactRange_tables_effect s r lk sl s' :
  compactRange_tables first last s = ((r, lk, sl), s') ->
  same_memory s0 s -> first <= last ->
  touches (compact_paths s0 first last) s s' /\ Forall (compact_paths s0 first last) sl
  /\ (lk = listFile (st s0) +:+ ".lock" \/ lk = EmptyString)
  /\ ((0 <= first /\ last < Z.of_nat (length (stack (st s0)))) -> forall m, r <> Panics m).
Proof.
  intros Hrun M0 Hle. unfold compactRange_tables in Hrun.
  rewrite bind_get, bind_eq in Hrun.
  assert (listFile (st s) = listFile (st s0)) as Hl by (destruct M0 as [_ ->]; auto).
  rewrite Hl in Hrun.
  set (lock := listFile (st s0) +:+ ".lock") in *.
  pose proof compact_paths_lock as Plock. fold lock in Plock.
  destruct (subtableLocks_loop _ _ _ _ s) as [[[exit sl1] ds] s1] eqn:E1.
  apply subtableLocks_loop_effect in E1; [|exact M0|lia|lia|constructor|constructor].
  destruct E1 as (M1 & T1 & Psl & Pds & Hpanic1).
  assert (same_memory s0 s1) as M01 by (eapply same_memory_trans; eauto).
  destruct exit as [x|].
  { inversion Hrun; subst. split; [exact T1|]. split; [exact Psl|]. split; [auto|].
    intros Hr m ->. exact (Hpanic1 Hr m eq_refl). }
  rewrite bind_eq in Hrun.
  destruct (os_Remove lock s1) as [e2 s2] eqn:E2.
  pose proof (os_Remove_touches (compact_paths s0 first last) _ _ _ _ Plock E2) as T2.
  apply os_Remove_inv in E2 as (M2 & _).
  assert (same_memory s0 s2) as M02 by (eapply same_memory_trans; eauto).
  assert (touches (compact_paths s0 first last) s s2) as T02 by (eapply touches_trans; eauto).
  destruct e2 as [e|].
  { inversion Hrun; subst. split; [exact T02|]. split; [exact Psl|]. split; [auto|].
    discriminate. }
  rewrite bind_eq in Hrun.
  destruct (compactLocked first last s2) as [tmp s3] eqn:E3.
  apply compactLocked_effect in E3; [|exact M02].
  destruct E3 as (M3 & T3 & Ptmp & Hpanic3).
  assert (same_memory s0 s3) as M03 by (eapply same_memory_trans; eauto).
  assert (touches (compact_paths s0 first last) s s3) as T03 by (eapply touches_trans; eauto).
  destruct tmp as [[tmp|e]|m].
  3:{ inversion Hrun; subst. split; [exact T03|]. split; [exact Psl|]. split; [auto|].
      intros Hr m' Hm. exact (Hpanic3 Hr Hle m eq_refl). }
  2:{ inversion Hrun; subst. split; [exact T03|]. split; [exact Psl|]. split; [auto|].
      discriminate. }
  specialize (Ptmp tmp eq_refl).
  rewrite bind_eq in Hrun.
  destruct (os_OpenFile_excl lock s3) as [[lockFile e4] s4] eqn:E4.
  pose proof (os_OpenFile_excl_touches (compact_paths s0 first last) _ _ _ _ Plock E4) as T4.
  apply os_OpenFile_excl_inv in E4 as (M4 & F4).
  assert (same_memory s0 s4) as M04 by (eapply same_memory_trans; eauto).
  assert (touches (compact_paths s0 first last) s s4) as T04 by (eapply touches_trans; eauto).
  destruct e4 as [e|].
  { inversion Hrun; subst. split; [exact T04|]. split; [exact Psl|]. split; [auto|].
    discriminate. }
  destruct F4 as [(_ & -> & _ & _)|(N4 & _)]; [|congruence].
  rewrite bind_eq in Hrun.
  destruct (compactRange_install _ _ _ _ _ s4) as [[res lk5] s5] eqn:E5.
  apply compactRange_install_effect in E5; try assumption.
  destruct E5 as (T5 & Hlk & Hpanic5).
  rewrite bind_eq in Hrun.
  destruct (file_Close _ s5) as [u6 s6] eqn:E6.
  pose proof (file_Close_touches (compact_paths s0 first last) _ _ _ _ E6) as T6.
  inversion Hrun; subst res lk5 sl1 s6. clear Hrun.
  split; [|split; [exact Psl|split; [exact Hlk|]]].
  - eapply touches_trans; [exact T04|]. eapply touches_trans; eauto.
  - intros Hr. apply Hpanic5; assumption.
Qed.
End Range.

(** [compactRange], whatever it returns: the files it may have touched,
    and that it returns when its range lies within the stack. *)
Lemma compactRange_effect first last s r s' :
  compactRange first last s = (r, s') ->
  touches (compact_paths s first last) s s'
  /\ (0 <= first -> last < Z.of_nat (length (stack (st s))) ->
      exists ok err, r = Returns (ok, err)).
Proof.
  intros Hrun. unfold compactRange in Hrun.
  destruct (first >=? last) eqn:Hge.
  { inversion Hrun; subst. split; [apply touches_refl|eauto]. }
  assert (first <= last) as Hle by lia.
  rewrite bind_eq in Hrun. unfold modify at 1 in Hrun. fold (count_attempt s) in Hrun.
  assert (touches (compact_paths (count_attempt s) first last) (count_attempt s) s'
          /\ (0 <= first /\ last < Z.of_nat (length (stack (st (count_attempt s)))) ->
              forall m, r <> Panics m)) as [T Hpanic].
  2:{ split; [exact T|]. intros Hf0 Hlen. destruct r as [[ok err]|m]; [eauto|].
      exfalso. exact (Hpanic (conj Hf0 Hlen) m eq_refl). }
  set (sa := count_attempt s) in *. clearbody sa. clear s.
  set (P := compact_paths sa first last).
  rewrite bind_get, bind_eq in Hrun.
  set (lock := listFile (st sa) +:+ ".lock") in *.
  pose proof (compact_paths_lock sa first last) as Plock. fold lock P in Plock.
  destruct (os_OpenFile_excl lock sa) as [[lockFile e1] s1] eqn:E1.
  pose proof (os_OpenFile_excl_touches P _ _ _ _ Plock E1) as T1.
  apply os_OpenFile_excl_inv in E1 as (M1 & _).
  destruct (os_IsExist e1).
  { inversion Hrun; subst. split; [exact T1|discriminate]. }
  rewrite bind_eq in Hrun.
  destruct (file_Close lockFile s1) as [u2 s2] eqn:E2.
  apply file_Close_inv in E2 as (F2 & M2).
  rewrite bind_eq in Hrun.
  destruct (UpToDate s2) as [[ok3 e3] s3] eqn:E3.
  apply UpToDate_inv in E3 as (F3 & M3 & _).
  assert (same_memory sa s3) as M03.
  { repeat (eapply same_memory_trans; [eassumption|]). apply same_memory_refl. }
  assert (touches P sa s3) as T03.
  { intros q Hq. rewrite F3, F2. apply T1, Hq. }
  rewrite bind_eq in Hrun.
  match type of Hrun with
  | context [(if ?b then ?x else ?y) s3] =>
      destruct ((if b then x else y) s3) as [[res lk] s4] eqn:E4
  end.
  rewrite bind_eq in Hrun.
  match type of Hrun with
  | context [(if ?b then ?x else ?y) s4] =>
      destruct ((if b then x else y) s4) as [u5 s5] eqn:E5
  end.
  inversion Hrun; subst res s5. clear Hrun.
  assert (touches P s3 s4 /\ (lk = lock \/ lk = EmptyString)
          /\ (0 <= first /\ last < Z.of_nat (length (stack (st sa))) ->
              forall m, r <> Panics m)) as (T4 & Hlk & Hpanic).
  { destruct (negb ok3 || bool_decide (is_Some e3)).
    { inversion E4; subst. split; [apply touches_refl|]. split; [auto|discriminate]. }
    rewrite bind_eq in E4.
    destruct (compactRange_tables first last s3) as [[[res6 lk6] sl6] s6] eqn:E6.
    apply (compactRange_tables_effect sa) in E6; try assumption.
    destruct E6 as (T6 & Psl & Hlk & Hpanic).
    rewrite bind_eq in E4.
    destruct (removeAll sl6 s6) as [u7 s7] eqn:E7.
    pose proof (removeAll_touches _ _ _ _ _ Psl E7) as T7.
    inversion E4; subst res6 lk6 s7. clear E4.
    split; [eapply touches_trans; eauto|]. split; [exact Hlk|exact Hpanic]. }
  split; [|exact Hpanic].
  eapply touches_trans; [exact T03|]. eapply touches_trans; [exact T4|].
  destruct Hlk as [-> | ->].
  - destruct (String.eqb lock EmptyString).
    + inversion E5; subst. apply touches_refl.
    + exact (os_Remove_touches P _ _ _ _ Plock E5).
  - cbn in E5. inversion E5; subst. apply touches_refl.
Qed.

(** X22: [CompactAll] never panics: whatever the stack, the files and the
    failures of system calls, it returns. *)
Theorem CompactAll_returns (s : State) :
  exists err s', CompactAll s = (Returns err, s').
Proof.
  unfold CompactAll. rewrite bind_get, bind_eq.
  destruct (compactRange 0 (Z.of_nat (length (stack (st s))) - 1) s) as [r s'] eqn:Hrun.
  apply compactRange_effect in Hrun as [_ Hret].
  destruct Hret as (ok & err & ->); [lia|lia|]. eauto.
Qed.

Lemma suggestCompactionSegment_nonzero sizes r :
  suggestCompactionSegment sizes = Returns r -> Forall (fun sz => sz <> 0) sizes.
Proof.
  intros Hrun. apply Forall_forall. intros sz Hsz ->.
  apply list_elem_of_In in Hsz.
  destruct (suggestCompactionSegment_zero sizes Hsz) as [m Hm]. congruence.
Qed.

(** X23: [AutoCompact] panics only where [suggestCompactionSegment]
    panics, before it has changed anything: the range it hands to
    [compactRangeStats] always lies within the stack. *)
Theorem AutoCompact_panics_in_selection (s s' : State) (m : string) :
  AutoCompact s = (Panics m, s') ->
  suggestCompactionSegment (tableSizesForCompaction s) = Panics m /\ s' = s.
Proof.
  unfold AutoCompact. rewrite bind_get.
  destruct (suggestCompactionSegment (tableSizesForCompaction s)) as [[seg|]|m'] eqn:Hsel.
  - intros Hrun. exfalso.
    assert (Forall (fun sz => 0 < sz < two64) (tableSizesForCompaction s)) as Hvalid.
    { pose proof (suggestCompactionSegment_nonzero _ _ Hsel) as Hnz.
      pose proof (tableSizes_range s) as Hr. rewrite Forall_forall in *.
      intros sz Hsz. specialize (Hr sz Hsz). specialize (Hnz sz Hsz). cbn in *. lia. }
    destruct (suggestCompactionSegment_range _ _ Hvalid Hsel) as (Hs0 & Hb & _).
    unfold tableSizesForCompaction in Hb. rewrite length_map in Hb.
    rewrite bind_eq in Hrun. unfold compactRangeStats in Hrun. rewrite bind_eq in Hrun.
    destruct (compactRange (seg_start seg) (seg_end seg - 1) s) as [r s1] eqn:Hc.
    apply compactRange_effect in Hc as [_ Hret].
    destruct Hret as (ok & err & ->); [lia|lia|].
    rewrite bind_eq in Hrun. destruct ok; cbn in Hrun; discriminate.
  - discriminate.
  - intros Hrun. inversion Hrun. auto.
Qed.

(** ** Tables outside the range *)

Lemma chain_outside lo Pre x M y Q r :
  0 <= lo -> chain lo (Pre ++ x :: M ++ y :: Q) ->
  r ∈ Pre \/ r ∈ Q -> first_index r <> r_min x.
Proof.
  intros Hlo Hchain Hr Heq.
  apply chain_app in Hchain as [HP [Hx Hrest]].
  pose proof (chain_top lo Pre Hlo HP) as HtopP.
  pose proof (named_indices (top lo Pre) x ltac:(lia) Hx) as Hix.
  assert (0 <= r_max x) as Hmx by lia.
  destruct Hr as [Hr|Hr].
  - pose proof (chain_elem _ _ r Hlo HP Hr) as (_ & H1 & H2 & _). lia.
  - assert (r ∈ M ++ y :: Q) as Hr'.
    { apply elem_of_app. right. apply elem_of_cons. auto. }
    pose proof (chain_elem _ _ r Hmx Hrest Hr') as (H1 & _). lia.
Qed.

Lemma lock_path_suffix p : has_suffix "lock" (p +:+ ".lock") = true.
Proof.
  change (p +:+ ".lock") with (p +:+ ("." +:+ "lock")).
  rewrite <- append_assoc. apply has_suffix_append.
Qed.

(** X25: whatever [compactRange first last] returns, on a stack that
    satisfies the invariant, the file of every table of the stack
    outside [first, last] is as it was. *)
Theorem compactRange_keeps_other_tables (dir lf : string) (first last : Z)
    (s s' : State) (r : outcome (bool * option error)) (i : Z) (rd : Reader) :
  stack_inv dir lf s ->
  compactRange first last s = (r, s') ->
  i < first \/ last < i -> stackAt s i = Some rd ->
  files s' !! filepath_Join dir (r_name rd) = files s !! filepath_Join dir (r_name rd).
Proof.
  intros (Hlf & Hdir & Hsuffix & Hvalid & Hchain) Hrun Hi Hrd.
  destruct (Z_le_gt_dec last first) as [Hge|Hlt].
  { unfold compactRange in Hrun. destruct (first >=? last) eqn:E; [|lia].
    inversion Hrun. reflexivity. }
  apply compactRange_effect in Hrun as [T _]. apply T. clear T.
  pose proof (stackAt_lookup _ _ _ Hrd) as (Hi0 & p & Hp & ->).
  assert (reader s p ∈ stackReaders s) as Hin.
  { unfold stackReaders. apply list_elem_of_fmap. exists p. split; [reflexivity|].
    eapply list_elem_of_lookup_2, Hp. }
  pose proof (chain_suffix _ _ _ Hchain Hin) as Href.
  apply (filepath_Join_suffix dir) in Href.
  unfold compact_paths. rewrite Hlf, Hdir.
  intros [Hq|[Hq|[(rf & rl & x & Hrf & Hrl & Hq)|(j & rj & Hj & Hrj & [Hq|Hq])]]].
  - rewrite Hq in Href.
    pose proof (has_suffix_inj ".ref" "lock" _ eq_refl Href (lock_path_suffix lf)).
    discriminate.
  - rewrite Hq in Href. congruence.
  - apply filepath_Join_inj in Hq.
    apply stackAt_lookup in Hrf as (Hf0 & pf & Hpf & ->).
    apply stackAt_lookup in Hrl as (Hl0 & pl & Hpl & ->).
    destruct (split_range (stack (st s)) (Z.to_nat first) (Z.to_nat last) pf pl)
      as [M Hsplit]; [assumption|assumption|lia|].
    assert (stackReaders s
            = map (reader s) (take (Z.to_nat first) (stack (st s)))
              ++ reader s pf :: map (reader s) M
              ++ reader s pl :: map (reader s) (drop (S (Z.to_nat last)) (stack (st s))))
      as Hreaders.
    { unfold stackReaders. rewrite Hsplit at 1. rewrite map_app. cbn [map].
      rewrite map_app. reflexivity. }
    rewrite Hreaders in Hchain.
    apply (chain_outside 0 _ _ _ _ _ (reader s p) (Z.le_refl 0) Hchain).
    + destruct Hi as [Hi|Hi]; [left|right]; apply list_elem_of_fmap; exists p;
        (split; [reflexivity|]).
      * apply (list_elem_of_lookup_2 _ (Z.to_nat i)). rewrite lookup_take_lt by lia. exact Hp.
      * apply (list_elem_of_lookup_2 _ (Z.to_nat i - S (Z.to_nat last))%nat).
        rewrite lookup_drop. rewrite <- Hp. f_equal. lia.
    + unfold first_index. rewrite Hq. apply hex_value_formatName.
      apply chain_app in Hchain as [HP [Hx _]].
      pose proof (chain_top 0 _ (Z.le_refl 0) HP).
      match type of Hx with
      | named ?lo ?x => pose proof (named_indices lo x ltac:(lia) Hx)
      end. lia.
  - apply filepath_Join_inj in Hq.
    apply stackAt_lookup in Hrj as (Hj0 & pj & Hpj & ->).
    pose proof (chain_NoDup 0 _ (Z.le_refl 0) Hchain) as Hnd.
    assert (map r_name (stackReaders s) !! Z.to_nat i = Some (r_name (reader s p))) as H1.
    { unfold stackReaders. rewrite !list_lookup_fmap, Hp. reflexivity. }
    assert (map r_name (stackReaders s) !! Z.to_nat j = Some (r_name (reader s p))) as H2.
    { unfold stackReaders. rewrite !list_lookup_fmap, Hpj, Hq. reflexivity. }
    pose proof (NoDup_lookup _ _ _ _ Hnd H1 H2). lia.
  - rewrite Hq in Href.
    pose proof (has_suffix_inj ".ref" "lock" _ eq_refl Href (lock_path_suffix _)).
    discriminate.
Qed.

(** ** The stack after a successful compaction *)

Lemma compactLocked_inv_full first last s tmp s' :
  compactLocked first last s = (Returns (inl tmp), s') ->
  same_memory s s'
  /\ exists rf rl wr,
      stackAt s first = Some rf /\ stackAt s last = Some rl
      /\ writeCompact s (mkWriter 0 0 [] []) first last = Returns (wr, None)
      /\ minUpdateIndex wr = r_min rf /\ maxUpdateIndex wr = r_max rl
      /\ files s' !! tmp = Some (TableData (table_of_writer wr)).
Proof.
  unfold compactLocked. rewrite bind_get.
  destruct (stackAt s first) as [rf|] eqn:Hrf; [|discriminate].
  destruct (stackAt s last) as [rl|] eqn:Hrl; [|discriminate].
  rewrite bind_eq.
  destruct (ioutil_TempFile _ _ _ s) as [t s1] eqn:E1.
  apply ioutil_TempFile_inv in E1 as (M1 & Ht).
  destruct t as [t|e]; [|discriminate]. destruct Ht as [Hfresh F1].
  rewrite bind_eq.
  destruct (compactLocked_write first last t s1) as [[res rm] s2] eqn:E2.
  rewrite bind_eq.
  destruct ((if String.eqb rm EmptyString then ret None else os_Remove rm) s2) as [u3 s3] eqn:E3.
  rewrite bind_eq.
  destruct (file_Close (Some t) s3) as [u4 s4] eqn:E4.
  intros Heq; inversion Heq; subst res s4. clear Heq.
  apply file_Close_inv in E4 as (F4 & M4).
  unfold compactLocked_write in E2. rewrite bind_get in E2.
  unfold NewWriter in E2.
  destruct (newWriterErr (cfg (st s1))); [discriminate|].
  rewrite (writeCompact_same _ _ _ _ _ M1) in E2.
  destruct (writeCompact s _ first last) as [[wr [e|]]|] eqn:Hwc; try discriminate.
  pose proof (writeCompact_limits _ _ _ _ _ Hwc) as (rf' & rl' & Hrf' & Hrl' & Hmin & Hmax).
  rewrite Hrf in Hrf'. rewrite Hrl in Hrl'. inversion Hrf'; inversion Hrl'; subst rf' rl'.
  rewrite bind_eq in E2.
  destruct (Writer_Close t wr s1) as [e5 s5] eqn:E5.
  apply Writer_Close_inv in E5 as (M5 & [[-> F5]|[N5 _]]);
    [|destruct e5; [discriminate|congruence]].
  rewrite bind_eq in E2.
  destruct (file_Close (Some t) s5) as [e6 s6] eqn:E6.
  apply file_Close_inv in E6 as (F6 & M6).
  destruct e6 as [e|]; [discriminate|].
  inversion E2; subst tmp rm s6. clear E2.
  cbn in E3. inversion E3; subst u3 s3. clear E3.
  split.
  { repeat (eapply same_memory_trans; [eassumption|]). apply same_memory_refl. }
  exists rf, rl, wr. repeat split; try assumption.
  rewrite F4, F6, F5, F1, lookup_insert_eq. apply lookup_insert_eq.
Qed.

Lemma subtableLocks_loop_exit n : forall i sl ds s ok e sl' ds' s',
  subtableLocks_loop i n sl ds s = ((Some (Returns (ok, e)), sl', ds'), s') ->
  ok = false.
Proof.
  induction n as [|n IH]; intros i sl ds s ok e sl' ds' s'; cbn [subtableLocks_loop].
  - discriminate.
  - rewrite bind_get. destruct (stackAt s i); [|discriminate].
    rewrite bind_eq. destruct (os_OpenFile_excl _ s) as [[l err] s1].
    destruct (os_IsExist err); [intros Heq; inversion Heq; reflexivity|].
    destruct err; [intros Heq; inversion Heq; reflexivity|].
    rewrite bind_eq. destruct (file_Close l s1) as [e2 s2]. apply IH.
Qed.

(** The reload at the end of a successful compaction of [first, last]
    keeps the readers below and above the range and opens the compacted
    table between them. *)
Lemma compaction_reload_shape dir lf s sr s' first last rf rl t :
  stack_inv dir lf s -> first < last ->
  stackAt s first = Some rf -> stackAt s last = Some rl ->
  same_memory s sr ->
  let fn := formatName (r_min rf) (r_max rl) +:+ ".ref" in
  files sr !! lf
  = Some (Text (strings_Join
                  (take (Z.to_nat first) (stackNames s) ++ [fn]
                   ++ drop (Z.to_nat (last + 1)) (stackNames s)))) ->
  (files sr !! filepath_Join dir fn = Some (TableData t)
   \/ files sr !! filepath_Join dir fn = None) ->
  reload sr = (None, s') ->
  stack (st s')
  = take (Z.to_nat first) (stack (st s)) ++ length (heap s)
    :: drop (S (Z.to_nat last)) (stack (st s))
  /\ readers_eq (heap s ++ [reader_of_table fn t]) (heap s')
  /\ Merged s' = Some (stack (st s')).
Proof.
  intros (Hlf & Hdir & Hsuffix & Hvalid & Hchain) Hlt Hrf Hrl Msr fn
    Hman Htable Hreload.
  assert (Merged s' = Some (stack (st s'))) as Hmerged.
  { apply reload_success in Hreload as (? & ? & _ & _ & _ & ->). reflexivity. }
  apply stackAt_lookup in Hrf as (Hf0 & pf & Hpf & ->).
  apply stackAt_lookup in Hrl as (Hl0 & pl & Hpl & ->).
  destruct (split_range (stack (st s)) (Z.to_nat first) (Z.to_nat last) pf pl)
    as [M Hsplit]; [assumption|assumption|lia|].
  set (pre := take (Z.to_nat first) (stack (st s))) in *.
  set (post := drop (S (Z.to_nat last)) (stack (st s))) in *.
  assert (stackReaders s
          = map (reader s) pre ++ reader s pf :: map (reader s) M
            ++ reader s pl :: map (reader s) post) as Hreaders.
  { unfold stackReaders. rewrite Hsplit at 1. rewrite map_app. cbn [map].
    rewrite map_app. reflexivity. }
  rewrite Hreaders in Hchain.
  pose proof (chain_compact_fresh 0 _ _ _ _ _ (Z.le_refl 0) Hchain) as Hfresh.
  fold fn in Hfresh. rewrite <- Hreaders in Hfresh, Hchain.
  assert (take (Z.to_nat first) (stackNames s) ++ [fn]
          ++ drop (Z.to_nat (last + 1)) (stackNames s)
          = map (fun p => r_name (reader s p)) pre
            ++ fn :: map (fun p => r_name (reader s p)) post) as Htarget.
  { unfold stackNames, pre, post. rewrite <- fmap_take, <- fmap_drop.
    replace (Z.to_nat (last + 1)) with (S (Z.to_nat last)) by lia. reflexivity. }
  rewrite Htarget in Hman.
  apply reload_inv in Hreload
    as (s0 & s1 & F0 & M0 & Honce & F1 & Hh1 & Hs1 & Hl1 & Hd1).
  assert (same_memory s s0) as Ms0 by (eapply same_memory_trans; eauto).
  assert (listFile (st sr) = lf) as Hlsr by (destruct Msr; congruence).
  assert (manifest_names (files sr) (listFile (st sr))
          = map (fun p => r_name (reader s0 p)) pre
            ++ fn :: map (fun p => r_name (reader s0 p)) post) as Hnames.
  { unfold manifest_names. rewrite Hlsr, Hman. cbn [text_of].
    rewrite names_of_manifest_Join.
    - destruct Ms0 as [Hh0 _]. unfold reader. rewrite Hh0. reflexivity.
    - assert (Forall (fun n => legal_name n = true) (stackNames s)) as Hlegal.
      { rewrite stackNames_readers. eapply chain_legal; [|exact Hchain]. lia. }
      rewrite <- Htarget. apply Forall_app. split; [apply Forall_take, Hlegal|].
      apply Forall_app. split; [|apply Forall_drop, Hlegal].
      repeat constructor. apply legal_formatName. }
  rewrite Hnames in Honce.
  assert (stackReaders s0 = stackReaders s) as Hrs0 by (apply stackReaders_same, Ms0).
  eapply (reloadOnce_splice s0 pre (pf :: M ++ [pl]) post) in Honce;
    [| | rewrite stackNames_readers, Hrs0; eapply chain_NoDup; [|exact Hchain]; lia
     | rewrite stackNames_readers, Hrs0; exact Hfresh
     | reflexivity ].
  2:{ destruct Ms0 as [_ ->]. rewrite Hsplit at 1. cbn [app].
      rewrite <- app_assoc. reflexivity. }
  destruct Honce as (t' & Ht' & Hstack1 & Hheap1).
  destruct Ms0 as [Hh0 Hst0].
  rewrite F0, Hst0, Hdir in Ht'.
  destruct Htable as [Htable|Htable]; rewrite Htable in Ht'; [|discriminate].
  inversion Ht'; subst t'. clear Ht'.
  split; [rewrite Hs1, Hstack1, Hh0; reflexivity|].
  split; [rewrite Hh1, <- Hh0; exact Hheap1|exact Hmerged].
Qed.

Lemma Merged_same s s' : same_memory s s' -> Merged s' = Merged s.
Proof. intros [_ Hst]. unfold Merged. rewrite Hst. reflexivity. Qed.

Lemma compactRange_tables_success dir lf first last s lk sl s' :
  stack_inv dir lf s -> first < last ->
  compactRange_tables first last s = ((Returns (true, None), lk, sl), s') ->
  exists rf rl wr,
    stackAt s first = Some rf /\ stackAt s last = Some rl
    /\ writeCompact s (mkWriter 0 0 [] []) first last = Returns (wr, None)
    /\ minUpdateIndex wr = r_min rf /\ maxUpdateIndex wr = r_max rl
    /\ stack (st s')
       = take (Z.to_nat first) (stack (st s)) ++ length (heap s)
         :: drop (S (Z.to_nat last)) (stack (st s))
    /\ readers_eq
         (heap s ++ [reader_of_table (formatName (r_min rf) (r_max rl) +:+ ".ref")
                       (table_of_writer wr)])
         (heap s')
    /\ Merged s' = Some (stack (st s')).
Proof.
  intros Hinv Hlt Hrun.
  unfold compactRange_tables in Hrun. rewrite bind_get, bind_eq in Hrun.
  destruct (subtableLocks_loop _ _ _ _ s) as [[[exit sl1] ds] s1] eqn:E1.
  pose proof E1 as E1'.
  apply subtableLocks_loop_inv in E1 as (M1 & Hds); [|constructor].
  destruct exit as [r|].
  { inversion Hrun; subst. apply subtableLocks_loop_exit in E1'. discriminate. }
  clear E1'. rewrite bind_eq in Hrun.
  destruct (os_Remove _ s1) as [e2 s2] eqn:E2.
  apply os_Remove_inv in E2 as (M2 & _).
  destruct e2 as [e|]; [discriminate|].
  rewrite bind_eq in Hrun.
  destruct (compactLocked first last s2) as [tmp s3] eqn:E3.
  destruct tmp as [[tmp|e]|m]; [|discriminate|discriminate].
  apply compactLocked_inv_full in E3
    as (M3 & rf & rl & wr & Hrf & Hrl & Hwc & Hmin & Hmax & Htmp).
  rewrite bind_eq in Hrun.
  destruct (os_OpenFile_excl _ s3) as [[lockFile e4] s4] eqn:E4.
  apply os_OpenFile_excl_inv in E4 as (M4 & [(-> & -> & Hfresh & F4)|(N4 & _)]);
    [|destruct e4; [discriminate|congruence]].
  rewrite bind_eq in Hrun.
  destruct (compactRange_install _ _ _ _ _ s4) as [[res lk5] s5] eqn:E5.
  rewrite bind_eq in Hrun.
  destruct (file_Close _ s5) as [u6 s6] eqn:E6.
  apply file_Close_inv in E6 as (_ & M6).
  inversion Hrun; subst res lk5 sl1 s6. clear Hrun.
  assert (same_memory s s2) as M02 by (eapply same_memory_trans; eauto).
  assert (same_memory s s4) as M04.
  { repeat (eapply same_memory_trans; [eassumption|]). apply same_memory_refl. }
  assert (same_memory s2 s4) as M24 by (eapply same_memory_trans; eauto).
  assert (stack_inv dir lf s4) as Hinv4
    by (eapply stack_inv_same; [apply same_memory_stack, M04|exact Hinv]).
  rewrite (writeCompact_same _ _ _ _ _ M02) in Hwc.
  rewrite (stackAt_same _ _ first M02) in Hrf.
  rewrite (stackAt_same _ _ last M02) in Hrl.
  pose proof Hrf as Hrf4. pose proof Hrl as Hrl4.
  rewrite <- (stackAt_same _ _ first M04) in Hrf4.
  rewrite <- (stackAt_same _ _ last M04) in Hrl4.
  destruct M04 as [Hh04 Hst04].
  destruct Hinv4 as (Hlf4 & Hdir4 & Hsuffix & Hvalid4 & Hchain4).
  assert (stack_inv dir lf s4) as Hinv4 by (repeat split; assumption).
  pose proof (compact_name_fresh _ _ _ _ _ _ _ Hinv4 Hlt Hrf4 Hrl4) as Hnew.
  assert (stack_paths s4 ds) as Hds4.
  { eapply stack_paths_same; [|exact Hds]. split; assumption. }
  rewrite <- Hst04 in E5, Hfresh, F4.
  eapply compactRange_install_inv in E5; try eassumption; try reflexivity.
  - destruct E5 as (sr & Msr & Hman & Htable & Hreload).
    rewrite Hlf4, Hdir4 in *.
    destruct (compaction_reload_shape dir lf s4 sr s5 first last rf rl (table_of_writer wr))
      as (Hstack & Hheap & Hmerged); try eassumption.
    exists rf, rl, wr. repeat split; try assumption.
    + destruct M6 as [_ ->]. rewrite Hstack, Hst04, Hh04. reflexivity.
    + destruct M6 as [-> _]. rewrite <- Hh04. exact Hheap.
    + rewrite (Merged_same _ _ M6). destruct M6 as [_ ->]. exact Hmerged.
  - rewrite F4. apply lookup_insert_eq.
  - rewrite F4, lookup_insert_ne; [exact Htmp|]. congruence.
  - rewrite Hlf4. exact Hsuffix.
  - intros Hin. unfold stack_paths in Hds4.
    rewrite Forall_forall in Hds4. apply Hds4 in Hin as (n & Hn & Heq).
    apply filepath_Join_inj in Heq. subst n. exact (Hnew Hn).
  - intros Hin. unfold stack_paths in Hds4.
    rewrite Forall_forall in Hds4. apply Hds4 in Hin as (n & Hn & Heq).
    rewrite stackNames_readers in Hn.
    apply list_elem_of_fmap in Hn as (r & -> & Hr).
    pose proof (chain_suffix _ _ _ Hchain4 Hr) as Hs.
    apply (filepath_Join_suffix (reftableDir (st s4))) in Hs.
    rewrite <- Heq, Hlf4, Hsuffix in Hs. discriminate.
Qed.

Lemma subtabs_loop_count s n : forall i acc,
  subtabs_loop (count_attempt s) i n acc = subtabs_loop s i n acc.
Proof.
  induction n as [|n IH]; intros i acc; cbn [subtabs_loop]; [reflexivity|].
  change (stackPtrAt (count_attempt s) i) with (stackPtrAt s i).
  destruct (stackPtrAt s i); [apply IH|reflexivity].
Qed.

Lemma writeCompact_count s wr first last :
  writeCompact (count_attempt s) wr first last = writeCompact s wr first last.
Proof. unfold writeCompact. rewrite subtabs_loop_count. reflexivity. Qed.

(** X26: a [compactRange first last] of more than one table that returns
    true and no error, on a stack that satisfies the invariant, leaves
    the readers below [first] and above [last] in place and puts between
    them one reader for the table that [writeCompact] wrote from a fresh
    writer: it is named after [min] and [max], the minimum of table
    [first] and the maximum of table [last], and covers [min, max].  The
    merged view is over the new stack. *)
Theorem compactRange_replaces_range (dir lf : string) (first last : Z) (s s' : State) :
  stack_inv dir lf s -> first < last ->
  compactRange first last s = (Returns (true, None), s') ->
  exists rf rl wr,
    stackAt s first = Some rf /\ stackAt s last = Some rl
    /\ writeCompact s (mkWriter 0 0 [] []) first last = Returns (wr, None)
    /\ minUpdateIndex wr = r_min rf /\ maxUpdateIndex wr = r_max rl
    /\ map close_reader (stackReaders s')
       = map close_reader
           (take (Z.to_nat first) (stackReaders s)
            ++ reader_of_table (formatName (r_min rf) (r_max rl) +:+ ".ref")
                 (table_of_writer wr)
               :: drop (Z.to_nat (last + 1)) (stackReaders s))
    /\ Merged s' = Some (stack (st s')).
Proof.
  intros Hinv Hlt Hrun. unfold compactRange in Hrun.
  destruct (first >=? last) eqn:Hge; [lia|].
  rewrite bind_eq in Hrun. unfold modify at 1 in Hrun. fold (count_attempt s) in Hrun.
  change (stackAt s first) with (stackAt (count_attempt s) first).
  change (stackAt s last) with (stackAt (count_attempt s) last).
  rewrite <- writeCompact_count.
  change (stackReaders s) with (stackReaders (count_attempt s)).
  assert (stack_inv dir lf (count_attempt s)) as Hinva.
  { eapply stack_inv_same; [|exact Hinv]. unfold same_stack. cbn. auto. }
  set (sa := count_attempt s) in *. clearbody sa. clear Hinv s.
  rewrite bind_get, bind_eq in Hrun.
  destruct (os_OpenFile_excl _ sa) as [[lockFile e1] s1] eqn:E1.
  apply os_OpenFile_excl_inv in E1 as (M1 & _).
  destruct (os_IsExist e1); [discriminate|].
  rewrite bind_eq in Hrun.
  destruct (file_Close lockFile s1) as [u2 s2] eqn:E2.
  apply file_Close_inv in E2 as (_ & M2).
  rewrite bind_eq in Hrun.
  destruct (UpToDate s2) as [[ok3 e3] s3] eqn:E3.
  apply UpToDate_inv in E3 as (_ & M3 & _).
  assert (same_memory sa s3) as M03.
  { repeat (eapply same_memory_trans; [eassumption|]). apply same_memory_refl. }
  assert (stack_inv dir lf s3) as Hinv3
    by (eapply stack_inv_same; [apply same_memory_stack, M03|exact Hinva]).
  rewrite bind_eq in Hrun.
  match type of Hrun with
  | context [(if ?b then ?x else ?y) s3] =>
      destruct ((if b then x else y) s3) as [[res lk] s4] eqn:E4
  end.
  rewrite bind_eq in Hrun.
  match type of Hrun with
  | context [(if ?b then ?x else ?y) s4] =>
      destruct ((if b then x else y) s4) as [u5 s5] eqn:E5
  end.
  inversion Hrun; subst res s5. clear Hrun.
  assert (same_memory s4 s') as M45.
  { destruct (String.eqb lk EmptyString); [inversion E5; subst; apply same_memory_refl|].
    apply os_Remove_inv in E5. apply E5. }
  clear E5.
  destruct (negb ok3 || bool_decide (is_Some e3)); [discriminate|].
  rewrite bind_eq in E4.
  destruct (compactRange_tables first last s3) as [[[res6 lk6] sl6] s6] eqn:E6.
  rewrite bind_eq in E4.
  destruct (removeAll sl6 s6) as [u7 s7] eqn:E7.
  apply removeAll_inv in E7 as (M7 & _).
  inversion E4; subst res6 lk6 s7. clear E4.
  assert (same_memory s6 s') as M6' by (eapply same_memory_trans; eauto).
  apply (compactRange_tables_success dir lf) in E6; [|exact Hinv3|exact Hlt].
  destruct E6 as (rf & rl & wr & Hrf & Hrl & Hwc & Hmin & Hmax & Hstack & Hheap & Hmerged).
  rewrite (stackAt_same _ _ _ M03) in Hrf. rewrite (stackAt_same _ _ _ M03) in Hrl.
  rewrite (writeCompact_same _ _ _ _ _ M03) in Hwc.
  exists rf, rl, wr. repeat split; try assumption.
  2:{ rewrite (Merged_same _ _ M6'). destruct M6' as [_ ->]. exact Hmerged. }
  destruct M03 as [Hh03 Hst03]. destruct M6' as [Hh6 Hst6].
  rewrite Hst03, Hh03 in Hstack. rewrite Hh03 in Hheap. rewrite <- Hh6 in Hheap.
  destruct Hinva as (_ & _ & _ & Hvalid & _).
  set (pre := take (Z.to_nat first) (stack (st sa))) in *.
  set (post := drop (S (Z.to_nat last)) (stack (st sa))) in *.
  destruct (readers_after sa s' _ pre Hheap ltac:(apply Forall_take, Hvalid)) as [Hpre Hnew].
  destruct (readers_after sa s' _ post Hheap ltac:(apply Forall_drop, Hvalid)) as [Hpost _].
  unfold stackReaders. rewrite Hst6, Hstack, !map_app. cbn [map].
  rewrite Hpre, Hpost, Hnew.
  unfold pre, post. rewrite <- !fmap_take, <- !fmap_drop.
  pose proof (stackAt_lookup _ _ _ Hrf) as [Hf0 _].
  replace (Z.to_nat (last + 1)) with (S (Z.to_nat last)) by lia. reflexivity.
Qed.
End Compaction.

(** ** The stack on concrete inputs *)

Section Runs.
#[local] Existing Instances Demo.records Demo.collaborators.
Import Demo.

Lemma manifest_round_trip_witness :
  names_of_manifest
    (strings_Join ["000000000001-000000000001.ref"; "000000000002-000000000002.ref"])
  = ["000000000001-000000000001.ref"; "000000000002-000000000002.ref"]
  /\ (files twoTables !! listFile (st twoTables)
      = Some (Text (strings_Join
                      ["000000000001-000000000001.ref"; "000000000002-000000000002.ref"])) ->
      hd false (faults twoTables) = false ->
      fst (readNames twoTables)
      = inl ["000000000001-000000000001.ref"; "000000000002-000000000002.ref"])
  /\ (files twoTables !! listFile (st twoTables) = None ->
      readNames twoTables = (inl [], twoTables)).
Proof.
  apply (manifest_round_trip twoTables).
  repeat constructor.
Defined.

Example formatName_examples :
  formatName 1 1 = "000000000001-000000000001"%string
  /\ formatName 255 (2 ^ 52) = "0000000000ff-10000000000000"%string.
Proof. vm_compute. split; reflexivity. Qed.

(** First add: one table file, named in the manifest, and the next update
    index is 2. *)
Example scenario_first_add :
  let s := after (Add (writeRange 1 1 [main_v1])) newStack in
  result (Add (writeRange 1 1 [main_v1])) newStack = Returns None
  /\ fileNames s = ["repo/reftable/tables.list"%string;
                    "repo/reftable/000000000001-000000000001.ref"%string]
  /\ manifestText s = Some "000000000001-000000000001.ref"%string
  /\ NextUpdateIndex s = 2.
Proof. vm_compute. repeat split; reflexivity. Qed.

(** The manifest lock is held: [Add] returns the lock failure and leaves
    the directory as it was. *)
Example scenario_lock_failure :
  result (Add (writeRange 1 1 [main_v1])) lockedStack = Returns (Some ErrLockFailure)
  /\ fileNames (after (Add (writeRange 1 1 [main_v1])) lockedStack)
     = ["repo/reftable/tables.list.lock"%string].
Proof. vm_compute. split; reflexivity. Qed.

(** Tombstone at the bottom: [CompactAll] leaves one table covering
    [1, 3], without the deletion of [main]. *)
Example scenario_tombstone_at_bottom :
  let s := after CompactAll threeAdds in
  result CompactAll threeAdds = Returns None
  /\ readers s = [("000000000001-000000000003.ref"%string, 1, 3, false)]
  /\ map r_refs (stackReaders s) = [[topic_v2_at_3]].
Proof. vm_compute. repeat split; reflexivity. Qed.

(** Tombstone above the bottom: [compactRange 1 2] leaves two tables, the
    upper one with the deletion of [main]. *)
Example scenario_tombstone_above_bottom :
  let s := after (compactRange 1 2) threeAdds in
  result (compactRange 1 2) threeAdds = Returns (true, None)
  /\ readers s = [("000000000001-000000000001.ref"%string, 1, 1, false);
                  ("000000000002-000000000003.ref"%string, 2, 3, false)]
  /\ map r_refs (stackReaders s) = [[main_v1]; [main_deleted; topic_v2_at_3]].
Proof. vm_compute. repeat split; reflexivity. Qed.

Example twoTables_manifest :
  files twoTables !! listFile (st twoTables)
  = Some (Text (strings_Join
                  ["000000000001-000000000001.ref"; "000000000002-000000000002.ref"]))
  /\ hd false (faults twoTables) = false.
Proof. vm_compute. split; reflexivity. Qed.


Lemma AutoCompact_table_sizes_witness :
  tableSizesForCompaction (tableOfSize 91)
    = map (fun q => (r_size (reader (tableOfSize 91) q) - 91) mod 2 ^ 64)
        (stack (st (tableOfSize 91)))
  /\ (r_size (reader (tableOfSize 91) 0%nat) = 91 ->
      exists m, AutoCompact (tableOfSize 91) = (Panics m, tableOfSize 91))
  /\ (0 <= r_size (reader (tableOfSize 91) 0%nat) < 91 ->
      In (r_size (reader (tableOfSize 91) 0%nat) + 2 ^ 64 - 91)
         (tableSizesForCompaction (tableOfSize 91))
      /\ log2 (r_size (reader (tableOfSize 91) 0%nat) + 2 ^ 64 - 91) = Returns 63).
Proof.
  apply (AutoCompact_table_sizes (tableOfSize 91) 0%nat).
  left. reflexivity.
Defined.

(** C10, as stated, fails: [AutoCompact] returns on a stack whose only
    table is a file of 50 bytes, so it is not only total when every file
    size exceeds 91. *)
Lemma AutoCompact_returns_below_91 :
  ~ (forall s : State,
       (exists r s', AutoCompact s = (Returns r, s')) ->
       Forall (fun p => 91 < r_size (reader s p)) (stack (st s))).
Proof.
  intros Hclaim.
  assert (Forall (fun p => 91 < r_size (reader (tableOfSize 50) p))
            (stack (st (tableOfSize 50)))) as Hall.
  { apply Hclaim. exists None, (tableOfSize 50). vm_compute. reflexivity. }
  inversion Hall as [|? ? Hlt _]; subst. vm_compute in Hlt. discriminate.
Qed.

(** C2 on a failing input: the callback covers [1, 2] on an empty stack;
    [Add] succeeds and installs the table as [formatName 1 1 + ".ref"],
    the name of the precomputed index, and no file [formatName 1 2 + ".ref"]. *)
Theorem add_names_table_by_next_index :
  let s := after (Add (writeRange 1 2 [main_v1])) newStack in
  result (Add (writeRange 1 2 [main_v1])) newStack = Returns None
  /\ readers s = [("000000000001-000000000001.ref"%string, 1, 2, false)]
  /\ formatName 1 2 +:+ ".ref" = "000000000001-000000000002.ref"%string
  /\ files s !! filepath_Join dir (formatName 1 2 +:+ ".ref") = None
  /\ fileList s
     = [("repo/reftable/tables.list"%string, None);
        ("repo/reftable/000000000001-000000000001.ref"%string, Some (1, 2))].
Proof. vm_compute. repeat split; reflexivity. Qed.

(** C3 on a failing input: the callback returns an error on an empty
    stack; [Add] returns the error, the manifest is still missing and the
    lock is gone, but the temporary table file stays in the directory. *)
Theorem add_callback_error_leaves_temporary_table :
  let s := after (Add writeFails) newStack in
  result (Add writeFails) newStack = Returns (Some (ErrUser "callback failed"))
  /\ files s !! manifest = None
  /\ files s !! (manifest +:+ ".lock") = None
  /\ fileNames s = ["repo/reftable/000000000001-000000000001371.ref"%string].
Proof. vm_compute. repeat split; reflexivity. Qed.

(** C4 on a failing input: that [Close] fails; the compacted table is
    removed, the manifest that names it is installed all the same, the
    two compacted tables are deleted, and the compaction returns the
    error of the reload: the manifest names a file that is not there. *)
Theorem compaction_close_error_leaves_dangling_manifest :
  let s0 := set_faults closeOfManifestFails twoTables in
  let s := after CompactAll s0 in
  fileNames s0
  = ["repo/reftable/tables.list"%string;
     "repo/reftable/000000000001-000000000001.ref"%string;
     "repo/reftable/000000000002-000000000002.ref"%string]
  /\ result CompactAll s0 = Returns (Some ErrNotExist)
  /\ manifestText s = Some "000000000001-000000000002.ref"%string
  /\ files s !! filepath_Join dir "000000000001-000000000002.ref" = None
  /\ fileNames s = ["repo/reftable/tables.list"%string].
Proof. vm_compute. repeat split; reflexivity. Qed.

(** C5 on a failing input: the stack holds two readers and the target
    names are theirs and a third whose file is missing.  [reloadOnce]
    returns the error and leaves [st.stack] as it was, but it has closed
    the two readers of [st.stack], which it had carried over before the
    failure. *)
Theorem reloadOnce_error_closes_carried_over_readers :
  let names := ["000000000001-000000000001.ref"; "000000000002-000000000002.ref";
                "000000000003-000000000003.ref"]%string in
  let s := after (reloadOnce names) twoTables in
  readers twoTables
  = [("000000000001-000000000001.ref"%string, 1, 1, false);
     ("000000000002-000000000002.ref"%string, 2, 2, false)]
  /\ result (reloadOnce names) twoTables = Some ErrNotExist
  /\ stack (st s) = stack (st twoTables)
  /\ length (heap s) = length (heap twoTables)
  /\ readers s
     = [("000000000001-000000000001.ref"%string, 1, 1, true);
        ("000000000002-000000000002.ref"%string, 2, 2, true)].
Proof. vm_compute. repeat split; reflexivity. Qed.


Example update_index_wraps_around_run :
  NextUpdateIndex fullRange = 0
  /\ readers wrappedStack
     = [("000000000001-000000000001.ref"%string, 1, 2 ^ 64 - 1, false);
        ("000000000000-000000000000.ref"%string, 0, 0, false)].
Proof. vm_compute. split; reflexivity. Qed.
Lemma addRefs_limits rs : forall wr wr' e,
  addRefs wr rs = (wr', e) ->
  minUpdateIndex wr' = minUpdateIndex wr /\ maxUpdateIndex wr' = maxUpdateIndex wr.
Proof.
  induction rs as [|r rs IH]; intros wr wr' e; cbn [addRefs].
  - intros Heq; inversion Heq; subst. auto.
  - unfold Writer_AddRef. destruct (addRefErr wr r).
    + intros Heq; inversion Heq; subst. auto.
    + intros Hrun. apply IH in Hrun. cbn in Hrun. exact Hrun.
Qed.

Lemma writeRange_covers_well min max rs :
  min <= max < two64 - 1 -> covers_well (writeRange min max rs).
Proof.
  intros Hrange wr wr' Hrun. unfold writeRange in Hrun.
  apply addRefs_limits in Hrun as [-> ->]. cbn. exact Hrange.
Qed.


(** *** The general properties on concrete inputs *)

Lemma formatName_injective_witness : 255 = 2 ^ 8 - 1 /\ 16 = 2 ^ 4.
Proof. apply (formatName_injective 255 16 (2 ^ 8 - 1) (2 ^ 4)); try lia. reflexivity. Defined.

Lemma formatName_length_witness :
  (25 <= String.length (formatName 255 (2 ^ 52)) <= 33)%nat
  /\ (255 < 2 ^ 48 -> 2 ^ 52 < 2 ^ 48 ->
      String.length (formatName 255 (2 ^ 52)) = 25%nat).
Proof. apply (formatName_length 255 (2 ^ 52)); unfold two64; lia. Defined.

Lemma readNames_legal_witness :
  Forall (fun n => legal_name n = true)
    ["000000000001-000000000001.ref"; "000000000002-000000000002.ref"]
  /\ files (after readNames twoTables) = files twoTables
  /\ heap (after readNames twoTables) = heap twoTables
  /\ st (after readNames twoTables) = st twoTables.
Proof.
  apply (readNames_legal twoTables (after readNames twoTables)).
  vm_compute. reflexivity.
Defined.

Lemma sizesToSegments_tiles_witness :
  exists segs,
    sizesToSegments [1024; 1024; 2 ^ 20] = Returns segs
    /\ ([1024; 1024; 2 ^ 20] = [] -> segs = [mkSegment 0 0 0 0])
    /\ ([1024; 1024; 2 ^ 20] <> [] ->
        tiles 0 segs (Z.of_nat (length [1024; 1024; 2 ^ 20])))
    /\ Forall (fun sg => seg_bytes sg
                         = wrap64 (sizes_between [1024; 1024; 2 ^ 20]
                                     (seg_start sg) (seg_end sg))) segs.
Proof.
  apply (sizesToSegments_tiles [1024; 1024; 2 ^ 20]).
  repeat (apply Forall_cons; split; [lia|]). constructor.
Defined.

Lemma sizesToSegments_runs_witness :
  (forall sg k sz,
     sg ∈ [mkSegment 0 2 10 2048; mkSegment 2 3 20 (2 ^ 20)] ->
     seg_start sg <= Z.of_nat k < seg_end sg ->
     [1024; 1024; 2 ^ 20] !! k = Some sz -> Z.log2 sz = seg_log sg)
  /\ (forall j a b,
        [mkSegment 0 2 10 2048; mkSegment 2 3 20 (2 ^ 20)] !! j = Some a ->
        [mkSegment 0 2 10 2048; mkSegment 2 3 20 (2 ^ 20)] !! S j = Some b ->
        seg_log a <> seg_log b)
  /\ (forall sg,
        sg ∈ [mkSegment 0 2 10 2048; mkSegment 2 3 20 (2 ^ 20)] ->
        seg_bytes sg = sizes_between [1024; 1024; 2 ^ 20] (seg_start sg) (seg_end sg)).
Proof.
  apply (sizesToSegments_runs [1024; 1024; 2 ^ 20]
           [mkSegment 0 2 10 2048; mkSegment 2 3 20 (2 ^ 20)]).
  - repeat (apply Forall_cons; split; [lia|]). constructor.
  - vm_compute. reflexivity.
  - vm_compute. reflexivity.
Defined.

Lemma suggestCompactionSegment_bounds_witness :
  0 <= seg_start (mkSegment 1 3 10 2048)
  /\ seg_start (mkSegment 1 3 10 2048) + 2 <= seg_end (mkSegment 1 3 10 2048)
     <= Z.of_nat (length [2 ^ 20; 1024; 1024])
  /\ seg_bytes (mkSegment 1 3 10 2048)
     = wrap64 (sizes_between [2 ^ 20; 1024; 1024]
                 (seg_start (mkSegment 1 3 10 2048)) (seg_end (mkSegment 1 3 10 2048)))
  /\ (seg_start (mkSegment 1 3 10 2048) = 0
      \/ exists sp,
           [2 ^ 20; 1024; 1024] !! Z.to_nat (seg_start (mkSegment 1 3 10 2048) - 1)
           = Some sp
           /\ Z.log2 (seg_bytes (mkSegment 1 3 10 2048)) < Z.log2 sp).
Proof.
  apply (suggestCompactionSegment_bounds [2 ^ 20; 1024; 1024] (mkSegment 1 3 10 2048)).
  - repeat (apply Forall_cons; split; [unfold two64; lia|]). constructor.
  - vm_compute. reflexivity.
Defined.

Lemma suggestCompactionSegment_least_log_witness :
  exists run,
    run ∈ [mkSegment 0 1 20 (2 ^ 20); mkSegment 1 3 10 2048]
    /\ 2 <= segment_size run
    /\ seg_end (mkSegment 1 3 10 2048) = seg_end run
    /\ seg_log (mkSegment 1 3 10 2048) = seg_log run
    /\ seg_start (mkSegment 1 3 10 2048) <= seg_start run
    /\ (forall other,
          other ∈ [mkSegment 0 1 20 (2 ^ 20); mkSegment 1 3 10 2048] ->
          segment_size other <> 1 -> seg_log run <= seg_log other)
    /\ (forall k,
          seg_start (mkSegment 1 3 10 2048) <= Z.of_nat k < seg_start run ->
          exists sp,
            [2 ^ 20; 1024; 1024] !! k = Some sp
            /\ Z.log2 sp
               <= Z.log2 (wrap64 (sizes_between [2 ^ 20; 1024; 1024]
                                    (Z.of_nat k + 1) (seg_end run)))).
Proof.
  apply (suggestCompactionSegment_least_log [2 ^ 20; 1024; 1024]
           [mkSegment 0 1 20 (2 ^ 20); mkSegment 1 3 10 2048] (mkSegment 1 3 10 2048)).
  - repeat (apply Forall_cons; split; [unfold two64; lia|]). constructor.
  - vm_compute. reflexivity.
  - vm_compute. reflexivity.
Defined.

Lemma suggestCompactionSegment_some_iff_witness :
  exists r,
    suggestCompactionSegment [2 ^ 20; 1024; 1024] = Returns r
    /\ (is_Some r <->
        exists i a b,
          [2 ^ 20; 1024; 1024] !! i = Some a /\ [2 ^ 20; 1024; 1024] !! S i = Some b
          /\ Z.log2 a = Z.log2 b).
Proof.
  apply (suggestCompactionSegment_some_iff [2 ^ 20; 1024; 1024]).
  - repeat (apply Forall_cons; split; [lia|]). constructor.
  - vm_compute. reflexivity.
Defined.

Lemma reload_read_only_witness :
  files (after reload twoTables) = files twoTables
  /\ same_config twoTables (after reload twoTables).
Proof.
  apply (reload_read_only twoTables (after reload twoTables) (result reload twoTables)).
  unfold result, after. apply surjective_pairing.
Defined.


Lemma reload_keeps_readers_witness :
  heap (after reload twoTables) = heap twoTables
  /\ stack (st (after reload twoTables)) = stack (st twoTables)
  /\ files (after reload twoTables) = files twoTables
  /\ (result reload twoTables = None ->
      Merged (after reload twoTables) = Some (stack (st twoTables))).
Proof.
  apply (reload_keeps_readers twoTables (after reload twoTables) (result reload twoTables)).
  - apply (bool_decide_unpack _). vm_compute. reflexivity.
  - vm_compute. reflexivity.
  - unfold result, after. apply surjective_pairing.
Defined.

Lemma UpToDate_compares_names_witness :
  files (after UpToDate twoTables) = files twoTables
  /\ heap (after UpToDate twoTables) = heap twoTables
  /\ st (after UpToDate twoTables) = st twoTables
  /\ (@None error = None ->
      (true = true
       <-> manifest_names (files twoTables) (listFile (st twoTables))
           = stackNames twoTables))
  /\ (@None error <> None -> true = false).
Proof.
  apply (UpToDate_compares_names twoTables (after UpToDate twoTables) true None).
  vm_compute. reflexivity.
Defined.

Lemma NewStack_without_manifest_witness :
  NewStack dir manifest config emptyWorld
  = (None, set_st (mkStack manifest dir config [] (Some []) (mkStats 0 0 0)) emptyWorld).
Proof.
  apply (NewStack_without_manifest dir manifest config emptyWorld); reflexivity.
Defined.

Lemma Add_lock_held_witness :
  add (writeRange 1 1 [main_v1]) lockedStack = (Some ErrLockFailure, lockedStack)
  /\ exists s', Add (writeRange 1 1 [main_v1]) lockedStack
                = (Returns (Some ErrLockFailure), s')
                /\ files s' = files lockedStack /\ same_config lockedStack s'.
Proof.
  apply (Add_lock_held (writeRange 1 1 [main_v1]) lockedStack).
  eexists. vm_compute. reflexivity.
Defined.


Lemma add_manifest_atomic_witness :
  (files (after (add (writeRange 3 3 [topic_v2_at_3])) twoTables)
     !! listFile (st twoTables)
   = files twoTables !! listFile (st twoTables)
   /\ result (add (writeRange 3 3 [topic_v2_at_3])) twoTables <> None)
  \/ (manifest_names (files twoTables) (listFile (st twoTables)) = stackNames twoTables
      /\ files (after (add (writeRange 3 3 [topic_v2_at_3])) twoTables)
           !! listFile (st twoTables)
         = Some (Text (strings_Join
                         (stackNames twoTables
                          ++ [formatName (NextUpdateIndex twoTables)
                                (NextUpdateIndex twoTables) +:+ ".ref"])))).
Proof.
  apply (add_manifest_atomic (writeRange 3 3 [topic_v2_at_3]) twoTables).
  - vm_compute. reflexivity.
  - unfold result, after. apply surjective_pairing.
Defined.

Lemma newStack_inv : stack_inv dir manifest newStack.
Proof.
  apply (NewStack_inv dir manifest config emptyWorld).
  - reflexivity.
  - reflexivity.
  - vm_compute. reflexivity.
Qed.


Lemma threeAdds_inv : stack_inv dir manifest threeAdds.
Proof.
  unfold threeAdds.
  set (s1 := after (add (writeRange 1 1 [main_v1])) newStack).
  set (s2 := after (add (writeRange 2 2 [main_deleted])) s1).
  apply (add_preserves_inv dir manifest (writeRange 3 3 [topic_v2_at_3]) s2).
  - apply (add_preserves_inv dir manifest (writeRange 2 2 [main_deleted]) s1).
    + apply (add_preserves_inv dir manifest (writeRange 1 1 [main_v1]) newStack).
      * exact newStack_inv.
      * apply writeRange_covers_well. unfold two64. lia.
      * vm_compute. reflexivity.
    + apply writeRange_covers_well. unfold two64. lia.
    + vm_compute. reflexivity.
  - apply writeRange_covers_well. unfold two64. lia.
  - vm_compute. reflexivity.
Qed.

Lemma twoTables_sizes : tableSizesForCompaction twoTables = [193; 65].
Proof. vm_compute. reflexivity. Qed.


Lemma compactRange_lock_held_witness :
  compactRange 0 1 lockedStack = (Returns (false, None), count_attempt lockedStack)
  /\ compactRangeStats 0 1 lockedStack
     = (Returns (false, None), count_failure (count_attempt lockedStack)).
Proof.
  apply (compactRange_lock_held lockedStack 0 1).
  - lia.
  - eexists. vm_compute. reflexivity.
Defined.

Lemma CompactAll_small_witness : CompactAll oneTable = (Returns None, oneTable).
Proof. apply (CompactAll_small oneTable). vm_compute. lia. Defined.

Lemma AutoCompact_panics_in_selection_witness :
  suggestCompactionSegment (tableSizesForCompaction (tableOfSize 91)) = Panics "log(0)"
  /\ tableOfSize 91 = tableOfSize 91.
Proof.
  apply (AutoCompact_panics_in_selection (tableOfSize 91) (tableOfSize 91) "log(0)").
  vm_compute. reflexivity.
Defined.

Lemma AutoCompact_balanced_witness : AutoCompact twoTables = (Returns None, twoTables).
Proof.
  apply (AutoCompact_balanced twoTables).
  - rewrite twoTables_sizes. repeat (apply Forall_cons; split; [lia|]). constructor.
  - rewrite twoTables_sizes. vm_compute. reflexivity.
  - rewrite twoTables_sizes. intros [|[|i]] a b Ha Hb; simpl in Ha, Hb.
    + injection Ha as <-. injection Hb as <-. vm_compute. discriminate.
    + discriminate.
    + discriminate.
Defined.

Lemma compactRange_keeps_other_tables_witness :
  files (after (compactRange 0 1) threeAdds)
    !! filepath_Join dir "000000000003-000000000003.ref"
  = files threeAdds !! filepath_Join dir "000000000003-000000000003.ref".
Proof.
  apply (compactRange_keeps_other_tables dir manifest 0 1 threeAdds
           (after (compactRange 0 1) threeAdds) (result (compactRange 0 1) threeAdds) 2
           (reader threeAdds 2%nat)).
  - exact threeAdds_inv.
  - unfold result, after. apply surjective_pairing.
  - right. lia.
  - vm_compute. reflexivity.
Defined.

Lemma compactRange_replaces_range_witness :
  exists rf rl wr,
    stackAt threeAdds 0 = Some rf /\ stackAt threeAdds 2 = Some rl
    /\ writeCompact threeAdds (mkWriter 0 0 [] []) 0 2 = Returns (wr, None)
    /\ minUpdateIndex wr = r_min rf /\ maxUpdateIndex wr = r_max rl
    /\ map close_reader (stackReaders (after (compactRange 0 2) threeAdds))
       = map close_reader
           (take (Z.to_nat 0) (stackReaders threeAdds)
            ++ reader_of_table (formatName (r_min rf) (r_max rl) +:+ ".ref")
                 (table_of_writer wr)
               :: drop (Z.to_nat (2 + 1)) (stackReaders threeAdds))
    /\ Merged (after (compactRange 0 2) threeAdds)
       = Some (stack (st (after (compactRange 0 2) threeAdds))).
Proof.
  apply (compactRange_replaces_range dir manifest 0 2 threeAdds
           (after (compactRange 0 2) threeAdds)).
  - exact threeAdds_inv.
  - lia.
  - vm_compute. reflexivity.
Defined.
End Runs.
